(** * Grant_Rektora: the occupancy-grid route planner and the output handler

    A shallow embedding of [testy.py] (classes [LidarMap] and [RoadFinder])
    and of [update_output_handler.py] (class [UpdateOutputHandler]), with the
    properties the specification states about them.

    Conventions of the embedding:
    - a Python exception is a value [Raise e] of the [outcome] type; the
      [while] loop of [__reconstruct_path] is run with an explicit bound on
      its number of iterations and answers [OutOfFuel] when the bound is hit;
    - Python dictionaries are [gmap]s, Python lists are lists; an index or
      key that Python would reject raises [IndexError] or [KeyError];
    - the numbers stored in [distances] and [edge_weights] are taken from an
      [Arith] structure, whose instance [float64] is IEEE binary64 as CPython
      uses it ([math.sqrt], [numpy.inf], [+], [>], [==]);
    - the [print] calls of [testy.py] only write to the standard output and
      are left out; the one of [update_output] is kept, since the
      specification speaks about it.

    The properties of the shortest-path computation are proved for any
    [Arith] that satisfies the order laws [OrderLaws]; these laws are then
    proved for [float64] from the binary64 specification of the addition and
    of the comparisons, so the statements about [find_path] hold for the
    numbers the program computes with. *)

From Stdlib Require Import ZArith List Floats Reals Lra Lia.
From stdpp Require Import base list gmap strings pretty sorting.

Local Open Scope Z_scope.

(** ** Exceptions and results *)

Inductive exn : Type :=
| ValueError (msg : string)
| KeyError
| IndexError.

Inductive outcome (A : Type) : Type :=
| Ok (a : A)
| Raise (e : exn)
| OutOfFuel.

Arguments Ok {A} a.
Arguments Raise {A} e.
Arguments OutOfFuel {A}.

Definition bind {A B : Type} (m : outcome A) (k : A → outcome B) : outcome B :=
  match m with
  | Ok a => k a
  | Raise e => Raise e
  | OutOfFuel => OutOfFuel
  end.

#[global] Instance outcome_ret : MRet outcome := λ A a, Ok a.
#[global] Instance outcome_bind : MBind outcome := λ A B k m, bind m k.

(** [for x in l: body], threading the state [s] through the iterations. *)
Fixpoint for_each {A S : Type} (l : list A) (body : A → S → outcome S) (s : S)
  : outcome S :=
  match l with
  | [] => Ok s
  | x :: l' => s' ← body x s; for_each l' body s'
  end.

(** [[f(x) for x in l]] for an [f] that may raise. *)
Fixpoint map_each {A B : Type} (f : A → outcome B) (l : list A) : outcome (list B) :=
  match l with
  | [] => Ok []
  | x :: l' => y ← f x; ys ← map_each f l'; Ok (y :: ys)
  end.

(** ** Python containers *)

(** [len(l)] *)
Definition len {A : Type} (l : list A) : Z := Z.of_nat (length l).

(** [l[i]] for a Python [int] index: negative indices count from the end. *)
Definition py_index {A : Type} (l : list A) (i : Z) : outcome A :=
  let j := if i <? 0 then i + len l else i in
  if j <? 0 then Raise IndexError
  else match l !! Z.to_nat j with
       | Some a => Ok a
       | None => Raise IndexError
       end.

(** [l[i]] and [l[i] = x] for an index that is a natural number in the source
    (a [range], [enumerate] or [list.index] value). *)
Definition list_get {A : Type} (l : list A) (i : nat) : outcome A :=
  match l !! i with
  | Some a => Ok a
  | None => Raise IndexError
  end.

Definition list_set {A : Type} (l : list A) (i : nat) (x : A) : outcome (list A) :=
  if decide (i < length l)%nat then Ok (<[i := x]> l) else Raise IndexError.

(** [d[k]] *)
Definition dict_get `{Countable K} {V : Type} (d : gmap K V) (k : K) : outcome V :=
  match d !! k with
  | Some v => Ok v
  | None => Raise KeyError
  end.

(** [enumerate(l)] *)
Definition enumerate {A : Type} (l : list A) : list (nat * A) := imap pair l.

(** [l.index(x)]: the first position of [x]. *)
Fixpoint index_from `{EqDecision A} (x : A) (l : list A) (i : nat) : option nat :=
  match l with
  | [] => None
  | y :: l' => if decide (x = y) then Some i else index_from x l' (S i)
  end.

(** [str(p)] and [repr(p)] for a pair of integers. *)
Definition str_point (p : Z * Z) : string :=
  ("(" +:+ pretty (fst p) +:+ ", " +:+ pretty (snd p) +:+ ")")%string.

Definition py_list_index (l : list (Z * Z)) (x : Z * Z) : outcome nat :=
  match index_from x l 0 with
  | Some i => Ok i
  | None => Raise (ValueError (str_point x +:+ " is not in list"))
  end.

(** ** The numbers of the shortest-path computation *)

(** What [testy.py] does with numbers: the constants [0], [1], [math.sqrt(2)]
    and [np.inf], the sum [distances[u] + weight], the test [a > b] of the
    relaxation and the test [a == b] against [np.inf]. *)
Record Arith : Type := {
  num : Type;
  zero : num;
  one : num;
  sqrt2 : num;
  inf : num;
  add : num → num → num;
  gtb : num → num → bool;
  eqb : num → num → bool;
}.

(** CPython's [float]: IEEE 754 binary64, round to nearest even.  The [int]s
    [0] and [1] of the source, and their sums, are written as the binary64
    numbers of the same value: a sum of [int]s is a number of steps along a
    path without repeated cell, far below [2^53], and comparing or adding an
    [int] and a [float] converts the [int] to that binary64 number. *)
Definition float64 : Arith := {|
  num := float;
  zero := 0%float;
  one := 1%float;
  sqrt2 := PrimFloat.sqrt 2%float;
  inf := infinity;
  add := PrimFloat.add;
  gtb := λ a b, PrimFloat.ltb b a;
  eqb := PrimFloat.eqb;
|}.

(** ** [testy.py] *)

(** [class LidarMap]; the object given to [RoadFinder] may be any object,
    with or without a [map] attribute. *)
Record LidarMap : Type := { map_attr : option (list (list Z)) }.

Definition mkLidarMap (map_data : list (list Z)) : LidarMap :=
  {| map_attr := Some map_data |}.

Record RoadFinder : Type := {
  lidar_map : list (list Z);
  car_length : float;
  car_width : float;
  starting_point : Z * Z;
  ending_point : Z * Z;
  path : list (Z * Z);
}.

Definition set_path (self : RoadFinder) (p : list (Z * Z)) : RoadFinder :=
  {| lidar_map := lidar_map self;
     car_length := car_length self;
     car_width := car_width self;
     starting_point := starting_point self;
     ending_point := ending_point self;
     path := p |}.

Definition msg_no_map_attr : string := "LidarMap class must have a 'map' attribute".
Definition msg_no_valid_path : string := "No valid path in the lidar map".
Definition msg_not_in_map : string := "Starting or ending point is not in the lidar map".

(** [RoadFinder.__init__] *)
Definition init_with (map_class : LidarMap) (starting_point ending_point : Z * Z)
    (car_length car_width : float) : outcome RoadFinder :=
  match map_attr map_class with
  | None => Raise (ValueError msg_no_map_attr)
  | Some m =>
      Ok {| lidar_map := m;
            car_length := car_length;
            car_width := car_width;
            starting_point := starting_point;
            ending_point := ending_point;
            path := [] |}
  end.

(** [RoadFinder(map_class, starting_point, ending_point)], with the default
    [car_length=1.5] and [car_width=0.5]. *)
Definition init (map_class : LidarMap) (starting_point ending_point : Z * Z)
  : outcome RoadFinder :=
  init_with map_class starting_point ending_point 1.5%float 0.5%float.

(** [not val] and [val == 0] for an integer cell value. *)
Definition py_not (val : Z) : bool := val =? 0.

(** [RoadFinder.__is_path_clear] *)
Definition is_path_clear (lidar_map : list (list Z)) (start : Z * Z) (dx dy : Z)
  : outcome bool :=
  let '(x, y) := start in
  let nx := x + dx in
  let ny := y + dy in
  if (0 <=? nx) && (nx <? len lidar_map) && (0 <=? ny) then
    row0 ← py_index lidar_map 0;
    if ny <? len row0 then
      row ← py_index lidar_map nx;
      val ← py_index row ny;
      Ok (val =? 0)
    else Ok false
  else Ok false.

(** The list [keys] of [__create_graph]: the free cells in row-major order. *)
Definition keys_of (lidar_map : list (list Z)) : list (Z * Z) :=
  '(i, row) ← enumerate lidar_map;
  '(j, val) ← enumerate row;
  if py_not val then [(Z.of_nat i, Z.of_nat j)] else [].

(** [{key: idx for idx, key in enumerate(keys)}] *)
Definition key_to_index_of (keys : list (Z * Z)) : gmap (Z * Z) nat :=
  foldl (λ d '(idx, key), <[key := idx]> d) ∅ (enumerate keys).

(** [{i: [] for i in range(len(keys))}] *)
Definition empty_graph (n : nat) : gmap nat (list nat) :=
  foldl (λ d i, <[i := []]> d) ∅ (seq 0 n).

Definition neighbors : list (Z * Z) :=
  [(-1, 0); (1, 0); (0, -1); (0, 1); (-1, -1); (-1, 1); (1, -1); (1, 1)].

Section Planner.

Context (A : Arith).

Abbreviation graph_t := (gmap nat (list nat)).
Abbreviation weights_t := (gmap (nat * nat) (num A)).

(** The body of [for dx, dy in neighbors:] in [__create_graph]. *)
Definition add_neighbor (lidar_map : list (list Z)) (key_to_index : gmap (Z * Z) nat)
    (idx : nat) (x y : Z) (d : Z * Z) (st : graph_t * weights_t)
  : outcome (graph_t * weights_t) :=
  let '(dx, dy) := d in
  let '(graph, edge_weights) := st in
  let nx := x + dx in
  let ny := y + dy in
  clear ← (if decide (is_Some (key_to_index !! (nx, ny)))
           then is_path_clear lidar_map (x, y) dx dy
           else Ok false);
  if (clear : bool) then
    neighbor_index ← dict_get key_to_index (nx, ny);
    adj ← dict_get graph idx;
    let graph := <[idx := adj ++ [neighbor_index]]> graph in
    if Z.abs dx + Z.abs dy =? 1
    then Ok (graph, <[(idx, neighbor_index) := one A]> edge_weights)
    else Ok (graph, <[(idx, neighbor_index) := sqrt2 A]> edge_weights)
  else Ok (graph, edge_weights).

(** The body of [for idx, (x, y) in enumerate(keys):]. *)
Definition add_vertex (lidar_map : list (list Z)) (key_to_index : gmap (Z * Z) nat)
    (ik : nat * (Z * Z)) (st : graph_t * weights_t) : outcome (graph_t * weights_t) :=
  let '(idx, (x, y)) := ik in
  for_each neighbors (add_neighbor lidar_map key_to_index idx x y) st.

(** [RoadFinder.__create_graph] *)
Definition create_graph (self : RoadFinder)
  : outcome (graph_t * list (Z * Z) * weights_t) :=
  let keys := keys_of (lidar_map self) in
  if decide (keys = []) then Raise (ValueError msg_no_valid_path)
  else
    let key_to_index := key_to_index_of keys in
    let graph := empty_graph (length keys) in
    '(graph, edge_weights) ←
      for_each (enumerate keys) (add_vertex (lidar_map self) key_to_index) (graph, ∅);
    Ok (graph, keys, edge_weights).

(** The body of [for v in graph[u]:] in [__relax_edges]. *)
Definition relax_edge (edge_weights : weights_t) (u v : nat)
    (st : list (num A) * list Z) : outcome (list (num A) * list Z) :=
  let '(distances, predecessor) := st in
  weight ← dict_get edge_weights (u, v);
  dv ← list_get distances v;
  du ← list_get distances u;
  if gtb A dv (add A du weight) then
    distances ← list_set distances v (add A du weight);
    predecessor ← list_set predecessor v (Z.of_nat u);
    Ok (distances, predecessor)
  else Ok (distances, predecessor).

(** The body of [for u in range(num_vertices):]. *)
Definition relax_vertex (graph : graph_t) (edge_weights : weights_t) (u : nat)
    (st : list (num A) * list Z) : outcome (list (num A) * list Z) :=
  adj ← dict_get graph u;
  for_each adj (relax_edge edge_weights u) st.

(** One pass of the outer loop. *)
Definition relax_pass (graph : graph_t) (edge_weights : weights_t) (num_vertices : nat)
    (st : list (num A) * list Z) : outcome (list (num A) * list Z) :=
  for_each (seq 0 num_vertices) (relax_vertex graph edge_weights) st.

(** [RoadFinder.__relax_edges]; the lists are updated in place in the source
    and returned here. *)
Definition relax_edges (graph : graph_t) (edge_weights : weights_t)
    (distances : list (num A)) (predecessor : list Z)
  : outcome (list (num A) * list Z) :=
  let num_vertices := size graph in
  for_each (seq 0 (num_vertices - 1)%nat)
    (λ _, relax_pass graph edge_weights num_vertices) (distances, predecessor).

(** The [while] loop of [__reconstruct_path] and what follows it, for at most
    [fuel] iterations. *)
Fixpoint reconstruct_loop (fuel : nat) (predecessor : list Z) (start_index : Z)
    (current : Z) (path_indices : list Z) : outcome (list Z) :=
  if decide (current ≠ start_index) then
    match fuel with
    | O => OutOfFuel
    | S fuel' =>
        let path_indices := path_indices ++ [current] in
        current ← py_index predecessor current;
        if current =? -1 then Ok []
        else reconstruct_loop fuel' predecessor start_index current path_indices
    end
  else Ok (reverse (path_indices ++ [start_index])).

(** [RoadFinder.__reconstruct_path] *)
Definition reconstruct_path (fuel : nat) (predecessor : list Z)
    (start_index end_index : Z) : outcome (list Z) :=
  reconstruct_loop fuel predecessor start_index end_index [].

(** [RoadFinder.__bellman_ford]: the result and the object after the call. *)
Definition bellman_ford (fuel : nat) (self : RoadFinder) (graph : graph_t)
    (keys : list (Z * Z)) (edge_weights : weights_t)
  : outcome (list (Z * Z) * RoadFinder) :=
  if bool_decide (starting_point self ∉ keys) || bool_decide (ending_point self ∉ keys)
  then Raise (ValueError msg_not_in_map)
  else
    let num_vertices := size graph in
    start_index ← py_list_index keys (starting_point self);
    end_index ← py_list_index keys (ending_point self);
    let distances := replicate num_vertices (inf A) in
    let predecessor := replicate num_vertices (-1) in
    distances ← list_set distances start_index (zero A);
    '(distances, predecessor) ← relax_edges graph edge_weights distances predecessor;
    dend ← list_get distances end_index;
    if eqb A dend (inf A) then Ok ([], self)
    else
      path_indices ← reconstruct_path fuel predecessor
                       (Z.of_nat start_index) (Z.of_nat end_index);
      match path_indices with
      | [] => Ok ([], self)
      | _ :: _ =>
          p ← map_each (py_index keys) path_indices;
          Ok (p, set_path self p)
      end.

(** [RoadFinder.find_path] *)
Definition find_path (fuel : nat) (self : RoadFinder)
  : outcome (list (Z * Z) * RoadFinder) :=
  '(graph, keys, edge_weights) ← create_graph self;
  bellman_ford fuel self graph keys edge_weights.

End Planner.

(** [RoadFinder.__repr__] *)
Fixpoint join (sep : string) (l : list string) : string :=
  match l with
  | [] => EmptyString
  | [s] => s
  | s :: l' => (s +:+ sep +:+ join sep l')%string
  end.

Definition repr (self : RoadFinder) : string :=
  ("[" +:+ join " -> " (map str_point (path self)) +:+ "]")%string.

(** ** The vocabulary of the specification *)

(** The value of a cell, when the cell exists. *)
Definition cell_value (m : list (list Z)) (c : Z * Z) : option Z :=
  if (0 <=? c.1) && (0 <=? c.2)
  then row ← m !! Z.to_nat c.1; row !! Z.to_nat c.2
  else None.

(** A free cell holds [0]; a blocked cell holds anything else. *)
Definition free (m : list (list Z)) (c : Z * Z) : Prop := cell_value m c = Some 0.

Definition blocked (m : list (list Z)) (c : Z * Z) : Prop :=
  ∃ v, cell_value m c = Some v ∧ v ≠ 0.

(** Every row is as long as the first one. *)
Definition rectangular (m : list (list Z)) : Prop :=
  ∀ row, row ∈ m → length row = length (default [] (head m)).

(** Within the bounds of the grid: row below [len(map)], column below
    [len(map[0])]. *)
Definition in_bounds (m : list (list Z)) (c : Z * Z) : Prop :=
  0 ≤ c.1 < len m ∧ 0 ≤ c.2 < len (default [] (head m)).

Definition offset (c d : Z * Z) : Z * Z := (c.1 + d.1, c.2 + d.2).

(** One move of 8-connectivity onto a free cell, and routes made of them. *)
Definition step8 (m : list (list Z)) (c c' : Z * Z) : Prop :=
  free m c' ∧ ∃ d, d ∈ neighbors ∧ c' = offset c d.

Definition reachable8 (m : list (list Z)) : Z * Z → Z * Z → Prop := rtc (step8 m).

(** [abs(dx) + abs(dy) == 1] *)
Definition axis_aligned (d : Z * Z) : bool := Z.abs d.1 + Z.abs d.2 =? 1.

(** ** Definitions used to state and prove the properties *)

Definition weight_of (A : Arith) (d : Z * Z) : num A :=
  if axis_aligned d then one A else sqrt2 A.

Definition neighbor_index (m : list (list Z)) (key_to_index : gmap (Z * Z) nat)
    (c d : Z * Z) : option nat :=
  j ← key_to_index !! offset c d;
  if c.2 + d.2 <? len (default [] (head m)) then Some j else None.

Definition add_neighbor_pure (A : Arith) (m : list (list Z))
    (key_to_index : gmap (Z * Z) nat) (idx : nat) (c : Z * Z)
    (st : gmap nat (list nat) * gmap (nat * nat) (num A)) (d : Z * Z)
  : gmap nat (list nat) * gmap (nat * nat) (num A) :=
  match neighbor_index m key_to_index c d with
  | Some j => (<[idx := default [] (st.1 !! idx) ++ [j]]> st.1,
               <[(idx, j) := weight_of A d]> st.2)
  | None => st
  end.

Definition add_vertex_pure (A : Arith) (m : list (list Z))
    (key_to_index : gmap (Z * Z) nat)
    (st : gmap nat (list nat) * gmap (nat * nat) (num A)) (ik : nat * (Z * Z))
  : gmap nat (list nat) * gmap (nat * nat) (num A) :=
  foldl (add_neighbor_pure A m key_to_index ik.1 ik.2) st neighbors.

(** The dictionaries [__create_graph] builds, as a fold over the free cells
    and the eight offsets. *)
Definition built (A : Arith) (m : list (list Z))
  : gmap nat (list nat) * gmap (nat * nat) (num A) :=
  foldl (add_vertex_pure A m (key_to_index_of (keys_of m)))
    (empty_graph (length (keys_of m)), ∅) (enumerate (keys_of m)).

(** Every entry of the weight table belongs to a move between two free cells,
    and every listed neighbor has an entry. *)
Definition table_sound (A : Arith) (m : list (list Z))
    (st : gmap nat (list nat) * gmap (nat * nat) (num A)) : Prop :=
  (∀ u v w, st.2 !! (u, v) = Some w →
     ∃ c d, keys_of m !! u = Some c ∧ d ∈ neighbors
            ∧ neighbor_index m (key_to_index_of (keys_of m)) c d = Some v
            ∧ w = weight_of A d)
  ∧ (∀ u adj v, st.1 !! u = Some adj → v ∈ adj → is_Some (st.2 !! (u, v))).

Definition edge (graph : gmap nat (list nat)) (u v : nat) : Prop :=
  ∃ adj, graph !! u = Some adj ∧ v ∈ adj.

Definition successors (graph : gmap nat (list nat)) (X : gset nat) : gset nat :=
  set_bind (λ u, list_to_set (default [] (graph !! u))) X.

(** The vertices at most [k] edges away from [s]. *)
Fixpoint within_hops (graph : gmap nat (list nat)) (s : nat) (k : nat) : gset nat :=
  match k with
  | O => {[s]}
  | S k' => within_hops graph s k' ∪ successors graph (within_hops graph s k')
  end.

Definition is_weight (A : Arith) (w : num A) : Prop := w = one A ∨ w = sqrt2 A.

(** A number that compares equal to itself (every number but a NaN). *)
Definition is_num (A : Arith) (x : num A) : Prop := eqb A x x = true.

(** What the planner needs of [np.inf]. *)
Record SentinelLaws (A : Arith) : Prop := {
  inf_eqb_inf : eqb A (inf A) (inf A) = true;
  zero_finite : eqb A (zero A) (inf A) = false;
  below_finite : ∀ x y, gtb A y x = true → eqb A x (inf A) = false;
  add_inf : ∀ x w, is_weight A w →
    eqb A x (inf A) = true → eqb A (add A x w) (inf A) = true;
}.

(** A number that is not below zero: what a distance is. *)
Definition is_dist (A : Arith) (x : num A) : Prop :=
  is_num A x ∧ gtb A (zero A) x = false.

(** What the planner needs of the order and of the sum: on numbers [>] is a
    strict total order, and adding a weight to a distance gives a number that
    is not below it, and that is finite when the distance is. *)
Record OrderLaws (A : Arith) : Prop := {
  sentinel_laws : SentinelLaws A;
  zero_num : is_num A (zero A);
  add_num : ∀ x w, is_weight A w → is_dist A x → is_num A (add A x w);
  gtb_asym : ∀ x y, gtb A x y = true → gtb A y x = false;
  gtb_negtrans : ∀ x y z, is_num A x → is_num A y → is_num A z →
    gtb A x y = false → gtb A y z = false → gtb A x z = false;
  add_ge : ∀ x w, is_weight A w → is_dist A x → gtb A x (add A x w) = false;
  add_finite : ∀ x w, is_weight A w → is_dist A x →
    eqb A x (inf A) = false → eqb A (add A x w) (inf A) = false;
  le_finite : ∀ x y, is_num A x → is_num A y →
    gtb A x y = false → eqb A y (inf A) = false → eqb A x (inf A) = false;
}.

Record graph_wf (A : Arith) (n : nat) (graph : gmap nat (list nat))
    (edge_weights : gmap (nat * nat) (num A)) : Prop := {
  wf_size : size graph = n;
  wf_dom : ∀ u, (u < n)%nat → is_Some (graph !! u);
  wf_edge : ∀ u v, edge graph u v →
    (u < n)%nat ∧ (v < n)%nat ∧ ∃ w, edge_weights !! (u, v) = Some w ∧ is_weight A w;
}.

(** [distances[x]] is not [np.inf]. *)
Definition finite_at (A : Arith) (distances : list (num A)) (x : nat) : Prop :=
  ∃ d, distances !! x = Some d ∧ eqb A d (inf A) = false.

(** Following [predecessor] from [x] leads to [s]. *)
Inductive to_start (predecessor : list Z) (s : nat) : nat → Prop :=
| to_start_here : to_start predecessor s s
| to_start_step x u :
    x ≠ s → predecessor !! x = Some (Z.of_nat u) →
    to_start predecessor s u → to_start predecessor s x.

Definition light_inv (A : Arith) (n : nat) (graph : gmap nat (list nat)) (s : nat)
    (st : list (num A) * list Z) : Prop :=
  length st.1 = n ∧ length st.2 = n ∧ finite_at A st.1 s
  ∧ ∀ x, finite_at A st.1 x → rtc (edge graph) s x.

Definition tree_inv (A : Arith) (n : nat) (s : nat) (st : list (num A) * list Z) : Prop :=
  length st.1 = n ∧ length st.2 = n
  ∧ (∀ x d, st.1 !! x = Some d → is_dist A d)
  ∧ (∀ x u, st.2 !! x = Some (Z.of_nat u) →
       ∃ du dx, st.1 !! u = Some du ∧ st.1 !! x = Some dx ∧ gtb A du dx = false)
  ∧ (∀ x, finite_at A st.1 x → to_start st.2 s x).

(** No finite distance becomes infinite. *)
Definition keeps_finite (A : Arith) (st st' : list (num A) * list Z) : Prop :=
  ∀ x, finite_at A st.1 x → finite_at A st'.1 x.

(** [RoadFinder(LidarMap(map_data), start, end).find_path()], as
    [test_road_finder] calls it. *)
Definition run_case (A : Arith) (fuel : nat) (map_data : list (list Z))
    (start end_ : Z * Z) : outcome (list (Z * Z) * RoadFinder) :=
  road_finder ← init (mkLidarMap map_data) start end_;
  find_path A fuel road_finder.

Definition map_simple : list (list Z) := [[0; 0; 0; 0]; [0; 1; 1; 0]; [0; 0; 0; 0]].
Definition map_blocked : list (list Z) := [[0; 0; 0]; [0; 1; 1]; [0; 0; 0]].
Definition map_diagonal : list (list Z) := [[0; 1; 0]; [0; 0; 0]; [0; 0; 0]].

(** The real number a binary64 number stands for ([0] for an infinity or a NaN). *)
Definition float_value (x : float) : R :=
  match Prim2SF x with
  | S754_finite s m e =>
      ((if s then -1 else 1) * IZR (Z.pos m) * powerRZ 2 e)%R
  | _ => 0%R
  end.

#[global] Instance rectangular_dec (m : list (list Z)) : Decision (rectangular m).
Proof.
  refine (cast_if (decide (Forall (λ row, length row = length (default [] (head m))) m)));
    unfold rectangular; by rewrite <- Forall_forall.
Defined.

Definition map_walled : list (list Z) := [[0; 1; 0]; [1; 1; 1]; [0; 1; 0]].
Definition map_corner : list (list Z) := [[0; 1]; [1; 0]].
Definition map_full : list (list Z) := [[1; 1]; [1; 1]].

(** The object [RoadFinder(LidarMap(map_data), start, end)]. *)
Definition road_finder (map_data : list (list Z)) (start end_ : Z * Z) : RoadFinder :=
  {| lidar_map := map_data;
     car_length := 1.5;
     car_width := 0.5;
     starting_point := start;
     ending_point := end_;
     path := [] |}.

(** ** Definitions used to state and prove the further properties *)

(** One turn of the [while] loop of [__reconstruct_path] after which the loop
    goes on: [current] is not the start, and its predecessor is not [-1]. *)
Definition follows (predecessor : list Z) (start_index : Z) (current next : Z) : Prop :=
  current ≠ start_index ∧ py_index predecessor current = Ok next ∧ next ≠ -1.

(** The indices the loop visits from [current] until it meets the start. *)
Inductive chain (predecessor : list Z) (start_index : Z) : Z → list Z → Prop :=
| chain_start : chain predecessor start_index start_index [start_index]
| chain_next current next l :
    follows predecessor start_index current next →
    chain predecessor start_index next l →
    chain predecessor start_index current (current :: l).

(** Any two consecutive elements of a list are related. *)
Definition linked {B : Type} (R : B → B → Prop) (l : list B) : Prop :=
  ∀ i a b, l !! i = Some a → l !! S i = Some b → R a b.

(** Every entry of [predecessor] is [-1] or the tail of an edge into its
    position. *)
Definition pred_edges (graph : gmap nat (list nat)) (predecessor : list Z) : Prop :=
  ∀ x p, predecessor !! x = Some p → p = -1 ∨ ∃ u, p = Z.of_nat u ∧ edge graph u x.

(** The start keeps the distance [0] and the predecessor [-1], and only a
    vertex with a finite distance has a predecessor. *)
Definition start_inv (A : Arith) (s : nat) (st : list (num A) * list Z) : Prop :=
  st.1 !! s = Some (zero A) ∧ st.2 !! s = Some (-1)
  ∧ ∀ x u, st.2 !! x = Some (Z.of_nat u) → finite_at A st.1 x.

(** The order of the cells in a row-by-row reading of the grid. *)
Definition row_major (c c' : Z * Z) : Prop :=
  c.1 < c'.1 ∨ (c.1 = c'.1 ∧ c.2 < c'.2).

(** A grid whose first row is shorter than the second. *)
Definition map_ragged : list (list Z) := [[0]; [0; 0]].

(** One move as [__create_graph] allows it: a move of 8-connectivity onto a
    free cell whose column is below the length of the first row. *)
Definition move (m : list (list Z)) (c c' : Z * Z) : Prop :=
  step8 m c c' ∧ c'.2 < len (default [] (head m)).

(** ** [update_output_handler.py] *)

(** The constants of [interfaces.msg.CommandArray].  The message definition
    is not among the sources, so their values are parameters. *)
Record CommandArray : Type := {
  GO_FORWARD : Z;
  GO_LEFT : Z;
  GO_RIGHT : Z;
  GO_BACKWARD : Z;
  STOP : Z;
}.

(** [GPIO.LOW] and [GPIO.HIGH] *)
Inductive level : Type := LOW | HIGH.

#[global] Instance level_eq_dec : EqDecision level.
Proof. solve_decision. Defined.

(** What the handler acts on: the level of every output line that has been
    driven, and the lines printed so far. *)
Record world : Type := {
  lines : gmap Z level;
  stdout : list string;
}.

(** Modelled from the spec: [GPIO.output(channels, values)] of the [GPIO]
    object of [gpio_importer], which is not among the sources: each listed
    output line is driven to the level at the same position of [values]. *)
Definition GPIO_output (channels : list Z) (values : list level) (w : world) : world :=
  {| lines := foldl (λ l '(c, v), <[c := v]> l) (lines w) (zip channels values);
     stdout := stdout w |}.

(** [print(s)] *)
Definition print (s : string) (w : world) : world :=
  {| lines := lines w; stdout := stdout w ++ [s] |}.

(** [d[k] = v] on a Python dictionary, which keeps its keys in the order of
    their first insertion. *)
Fixpoint dict_set (d : list (Z * level)) (k : Z) (v : level) : list (Z * level) :=
  match d with
  | [] => [(k, v)]
  | (k', v') :: d' =>
      if decide (k' = k) then (k, v) :: d' else (k', v') :: dict_set d' k v
  end.

Fixpoint dict_lookup (d : list (Z * level)) (k : Z) : option level :=
  match d with
  | [] => None
  | (k', v') :: d' => if decide (k' = k) then Some v' else dict_lookup d' k
  end.

Record UpdateOutputHandler : Type := { _pins : list Z }.

Definition pins_of (ca : CommandArray) : list Z :=
  [GO_FORWARD ca; GO_LEFT ca; GO_RIGHT ca; GO_BACKWARD ca].

(** [UpdateOutputHandler.__init__]: [GPIO.setmode] and [GPIO.setup] only
    configure the lines, then [GPIO.output] drives the four of them low. *)
Definition handler_init (ca : CommandArray) (w : world) : UpdateOutputHandler * world :=
  let self := {| _pins := pins_of ca |} in
  (self, GPIO_output (_pins self) (replicate (length (_pins self)) LOW) w).

(** [UpdateOutputHandler.update_output] *)
Definition update_output (ca : CommandArray) (self : UpdateOutputHandler)
    (command : Z) (w : world) : world :=
  let pin_states := foldl (λ d pin, dict_set d pin LOW) [] (_pins self) in
  let '(pin_states, w) :=
    if bool_decide (command ∈ _pins self) then (dict_set pin_states command HIGH, w)
    else if bool_decide (command ≠ STOP ca)
         then (pin_states, print ("Invalid command: " +:+ pretty command) w)
         else (pin_states, w) in
  GPIO_output pin_states.*1 pin_states.*2 w.

Definition sample_commands : CommandArray :=
  {| GO_FORWARD := 11; GO_LEFT := 13; GO_RIGHT := 15; GO_BACKWARD := 16; STOP := 0 |}.

Definition world0 : world := {| lines := ∅; stdout := [] |}.

(** What [binary_round_aux] of the binary64 specification returns for a
    positive mantissa of at least 53 bits: the mantissa shifted to 53 bits,
    or its successor, renormalised when the successor has 54 bits. *)
Definition rounded (m1 e' : Z) : spec_float :=
  if m1 <? 2 ^ 53
  then (if e' <=? 971 then S754_finite false (Z.to_pos m1) e' else S754_infinity false)
  else (if e' + 1 <=? 971 then S754_finite false (Z.to_pos (2 ^ 52)) (e' + 1)
        else S754_infinity false).

(** Cases on the comparisons of exponents and mantissas in [SFcompare]. *)
Ltac sf_compare :=
  repeat match goal with
  | H : context [PosDef.Pos.compare_cont Eq ?a ?b] |- _ =>
      change (PosDef.Pos.compare_cont Eq a b) with (Pos.compare a b) in H
  | |- context [PosDef.Pos.compare_cont Eq ?a ?b] =>
      change (PosDef.Pos.compare_cont Eq a b) with (Pos.compare a b)
  end;
  repeat match goal with
  | H : context [(?a ?= ?b)%Z] |- _ => destruct (Z.compare_spec a b); simpl in H
  | |- context [(?a ?= ?b)%Z] => destruct (Z.compare_spec a b); simpl
  | H : context [(?a ?= ?b)%positive] |- _ => destruct (Pos.compare_spec a b); simpl in H
  | |- context [(?a ?= ?b)%positive] => destruct (Pos.compare_spec a b); simpl
  end;
  try done; try lia.

#[global] Arguments is_path_clear : simpl never.

(** * Properties *)

(** ** Results and loops *)

(** A loop whose body cannot fail is a left fold. *)
Lemma for_each_pure {A S : Type} (P : S → Prop) (f : S → A → S)
    (body : A → S → outcome S) (l : list A) (s : S) :
  (∀ x s, x ∈ l → P s → body x s = Ok (f s x) ∧ P (f s x)) →
  P s →
  for_each l body s = Ok (foldl f s l) ∧ P (foldl f s l).
Proof.
  revert s. induction l as [|x l IH]; intros s Hb Hs; simpl; [done|].
  destruct (Hb x s) as [-> HP]; [left|done|]. simpl.
  apply IH; [|done]. intros y s' Hy. apply Hb. by right.
Qed.

(** ** Lists and dictionaries *)

Lemma enumerate_elem {A : Type} (l : list A) (i : nat) (a : A) :
  (i, a) ∈ enumerate l ↔ l !! i = Some a.
Proof.
  unfold enumerate. rewrite elem_of_lookup_imap. split.
  - intros (j & y & [= -> ->] & H). done.
  - intros H. eauto.
Qed.

Lemma enumerate_lookup {A : Type} (l : list A) (i : nat) :
  enumerate l !! i = pair i <$> l !! i.
Proof. unfold enumerate. apply list_lookup_imap. Qed.

Lemma enumerate_NoDup_fst {A : Type} (l : list A) : NoDup (enumerate l).*1.
Proof.
  assert (H : (enumerate l).*1 = seq 0 (length l)).
  { unfold enumerate. apply list_eq. intros i.
    rewrite list_lookup_fmap, list_lookup_imap.
    destruct (l !! i) eqn:E; simpl.
    - symmetry. apply lookup_seq. split; [done|]. by eapply lookup_lt_Some.
    - symmetry. apply lookup_seq_ge. by apply lookup_ge_None. }
  rewrite H. apply NoDup_seq.
Qed.

Lemma enumerate_NoDup {A : Type} (l : list A) : NoDup (enumerate l).
Proof. eapply NoDup_fmap_1, enumerate_NoDup_fst. Qed.

Lemma index_from_Some `{EqDecision A} (x : A) (l : list A) (k i : nat) :
  index_from x l k = Some i →
  (k ≤ i)%nat ∧ l !! (i - k)%nat = Some x.
Proof.
  revert k. induction l as [|y l IH]; intros k; simpl; [done|].
  case_decide as E.
  - intros [= ->]. subst. by rewrite Nat.sub_diag.
  - intros H. apply IH in H as [Hle Hl]. split; [lia|].
    replace (i - k)%nat with (S (i - S k)) by lia. done.
Qed.

Lemma index_from_elem `{EqDecision A} (x : A) (l : list A) (k : nat) :
  x ∈ l → is_Some (index_from x l k).
Proof.
  revert k. induction l as [|y l IH]; intros k Hin; simpl.
  - by apply elem_of_nil in Hin.
  - case_decide; [eauto|]. apply IH. apply elem_of_cons in Hin as [?|?]; done.
Qed.

Lemma py_list_index_elem (l : list (Z * Z)) (x : Z * Z) :
  x ∈ l → ∃ i, py_list_index l x = Ok i ∧ l !! i = Some x.
Proof.
  intros Hin. unfold py_list_index.
  destruct (index_from_elem x l 0%nat Hin) as [i Hi]. rewrite Hi.
  exists i. split; [done|]. apply index_from_Some in Hi as [_ Hi].
  by rewrite Nat.sub_0_r in Hi.
Qed.

(** ** The free cells *)

Lemma keys_of_free (m : list (list Z)) (c : Z * Z) : c ∈ keys_of m ↔ free m c.
Proof.
  unfold keys_of, free, cell_value. rewrite list_elem_of_bind. split.
  - intros ([i row] & Hc & Hrow). apply enumerate_elem in Hrow.
    apply list_elem_of_bind in Hc as ([j val] & Hc & Hval).
    apply enumerate_elem in Hval. unfold py_not in Hc.
    simpl in Hc. destruct (Z.eqb_spec val 0) as [E|E]; [|by apply elem_of_nil in Hc]. subst val.
    apply list_elem_of_singleton in Hc as ->. simpl.
    rewrite !(proj2 (Z.leb_le _ _)) by lia. simpl.
    rewrite !Nat2Z.id, Hrow. done.
  - destruct c as [x y]. simpl.
    destruct (Z.leb_spec 0 x); [|done]. destruct (Z.leb_spec 0 y); [|done]. simpl.
    destruct (m !! Z.to_nat x) as [row|] eqn:Hrow; [|done]. simpl. intros Hval.
    exists (Z.to_nat x, row). split; [|by apply enumerate_elem].
    apply list_elem_of_bind. exists (Z.to_nat y, 0). split; [|by apply enumerate_elem].
    simpl. rewrite !Z2Nat.id by done. by apply list_elem_of_singleton.
Qed.

Lemma keys_of_NoDup (m : list (list Z)) : NoDup (keys_of m).
Proof.
  unfold keys_of. apply NoDup_bind; [| |apply enumerate_NoDup].
  - intros [i1 r1] [i2 r2] c H1 H2 Hc1 Hc2.
    apply enumerate_elem in H1, H2.
    apply list_elem_of_bind in Hc1 as ([j1 v1] & Hc1 & _).
    apply list_elem_of_bind in Hc2 as ([j2 v2] & Hc2 & _).
    destruct (py_not v1); [|by apply elem_of_nil in Hc1].
    destruct (py_not v2); [|by apply elem_of_nil in Hc2].
    apply list_elem_of_singleton in Hc1, Hc2. subst c.
    assert (i1 = i2) by (injection Hc2; lia). subst. congruence.
  - intros [i row] _. apply NoDup_bind; [| |apply enumerate_NoDup].
    + intros [j1 v1] [j2 v2] c H1 H2 Hc1 Hc2.
      apply enumerate_elem in H1, H2.
      destruct (py_not v1); [|by apply elem_of_nil in Hc1].
      destruct (py_not v2); [|by apply elem_of_nil in Hc2].
      apply list_elem_of_singleton in Hc1, Hc2. subst c.
      assert (j1 = j2) by (injection Hc2; lia). subst. congruence.
    + intros [j v] _. destruct (py_not v); [apply NoDup_singleton|apply NoDup_nil_2].
Qed.

Lemma key_to_index_of_lookup (keys : list (Z * Z)) (c : Z * Z) (i : nat) :
  NoDup keys →
  key_to_index_of keys !! c = Some i ↔ keys !! i = Some c.
Proof.
  intros Hnd. unfold key_to_index_of.
  assert (G : ∀ (l : list (nat * (Z * Z))) (d0 : gmap (Z * Z) nat),
    NoDup (l.*2) →
    (foldl (λ d '(idx, key), <[key := idx]> d) d0 l) !! c = Some i ↔
    ((i, c) ∈ l ∨ ((c ∉ l.*2) ∧ d0 !! c = Some i))).
  { induction l as [|[j k] l IH] using rev_ind; intros d0 Hl.
    - simpl. split; [intros ?; right; split; [apply not_elem_of_nil|done]|].
      intros [H|[_ H]]; [by apply elem_of_nil in H|done].
    - rewrite foldl_snoc. rewrite fmap_app in Hl. simpl in Hl.
      apply NoDup_app in Hl as (Hl & Hdis & _).
      rewrite fmap_app, lookup_insert. simpl. case_decide as E.
      + subst k. split.
        * intros [= ->]. left. apply elem_of_app. right. by apply list_elem_of_singleton.
        * intros [H|[H _]].
          -- apply elem_of_app in H as [H|H].
             ++ exfalso. eapply Hdis; [|by apply list_elem_of_singleton].
                apply list_elem_of_fmap. by exists (i, c).
             ++ apply list_elem_of_singleton in H. congruence.
          -- exfalso. apply H. apply elem_of_app. right. by apply list_elem_of_singleton.
      + rewrite IH by done. split.
        * intros [H|[H1 H2]]; [left; apply elem_of_app; by left|].
          right. split; [|done]. intros H. apply elem_of_app in H as [H|H]; [done|].
          apply list_elem_of_singleton in H. done.
        * intros [H|[H1 H2]].
          -- apply elem_of_app in H as [H|H]; [by left|].
             apply list_elem_of_singleton in H. congruence.
          -- right. split; [|done]. intros H. apply H1, elem_of_app. by left. }
  rewrite G.
  - rewrite enumerate_elem, lookup_empty. split; [by intros [H|[_ H]]|by left].
  - assert (E : (enumerate keys).*2 = keys); [|by rewrite E].
    apply list_eq. intros j. rewrite list_lookup_fmap, enumerate_lookup.
    by destruct (keys !! j).
Qed.

(** A loop whose body keeps [P] and cannot fail. *)
Lemma for_each_inv {B S : Type} (P : S → Prop) (body : B → S → outcome S)
    (l : list B) (s : S) :
  (∀ x s, x ∈ l → P s → ∃ s', body x s = Ok s' ∧ P s') →
  P s → ∃ s', for_each l body s = Ok s' ∧ P s'.
Proof.
  revert s. induction l as [|x l IH]; intros s Hb Hs; simpl; [eauto|].
  destruct (Hb x s) as (s1 & -> & H1); [left|done|]. simpl.
  apply IH; [|done]. intros y s' Hy. apply Hb. by right.
Qed.

(** The same with an invariant that speaks of the elements already visited. *)
Lemma for_each_prefix {B S : Type} (I : list B → S → Prop)
    (body : B → S → outcome S) (l : list B) (s : S) :
  (∀ l1 x l2 s, l = l1 ++ x :: l2 → I l1 s →
     ∃ s', body x s = Ok s' ∧ I (l1 ++ [x]) s') →
  I [] s → ∃ s', for_each l body s = Ok s' ∧ I l s'.
Proof.
  intros Hb Hs.
  assert (G : ∀ l2 l1 s, l = l1 ++ l2 → I l1 s →
                ∃ s', for_each l2 body s = Ok s' ∧ I l s').
  { induction l2 as [|x l2 IH]; intros l1 s0 El Hs0; simpl.
    - rewrite app_nil_r in El. subst. eauto.
    - destruct (Hb l1 x l2 s0 El Hs0) as (s1 & -> & H1). simpl.
      apply (IH (l1 ++ [x])); [|done]. by rewrite <- app_assoc. }
  by apply (G l []).
Qed.

Lemma py_index_nat {A : Type} (l : list A) (i : nat) (a : A) :
  l !! i = Some a → py_index l (Z.of_nat i) = Ok a.
Proof.
  intros H. unfold py_index.
  destruct (Z.ltb_spec (Z.of_nat i) 0); [lia|].
  destruct (Z.ltb_spec (Z.of_nat i) 0); [lia|].
  by rewrite Nat2Z.id, H.
Qed.

Lemma py_index_nonneg {A : Type} (l : list A) (i : Z) (a : A) :
  0 ≤ i → l !! Z.to_nat i = Some a → py_index l i = Ok a.
Proof.
  intros Hi H. rewrite <- (Z2Nat.id i) by done. by apply py_index_nat.
Qed.

Lemma free_inv (m : list (list Z)) (c : Z * Z) :
  free m c →
  ∃ row, 0 ≤ c.1 ∧ 0 ≤ c.2 ∧ m !! Z.to_nat c.1 = Some row ∧ row !! Z.to_nat c.2 = Some 0.
Proof.
  unfold free, cell_value.
  destruct (Z.leb_spec 0 c.1); [|done]. destruct (Z.leb_spec 0 c.2); [|done]. simpl.
  destruct (m !! Z.to_nat c.1) as [row|] eqn:E; [|done]. simpl. eauto.
Qed.

Lemma is_path_clear_free (m : list (list Z)) (x y dx dy : Z) :
  free m (x + dx, y + dy) →
  is_path_clear m (x, y) dx dy = Ok (y + dy <? len (default [] (head m))).
Proof.
  intros (row & Hx & Hy & Hrow & Hval)%free_inv. simpl in *.
  unfold is_path_clear.
  assert (x + dx < len m).
  { apply lookup_lt_Some in Hrow. unfold len. lia. }
  rewrite (proj2 (Z.leb_le 0 (x + dx))), (proj2 (Z.ltb_lt (x + dx) _)),
    (proj2 (Z.leb_le 0 (y + dy))) by done. simpl.
  destruct m as [|row0 m']; [done|]. simpl.
  destruct (Z.ltb_spec (y + dy) (len row0)); [|done].
  rewrite (py_index_nonneg _ _ row) by done. simpl.
  rewrite (py_index_nonneg _ _ 0) by done. done.
Qed.

Section Graph.

Context (A : Arith) (m : list (list Z)).

Let keys := keys_of m.
Let kti := key_to_index_of keys.

Lemma kti_lookup (c : Z * Z) (i : nat) : kti !! c = Some i ↔ keys !! i = Some c.
Proof. apply key_to_index_of_lookup, keys_of_NoDup. Qed.

Lemma kti_free (c : Z * Z) (i : nat) : kti !! c = Some i → free m c.
Proof.
  intros H%kti_lookup. apply keys_of_free. by eapply list_elem_of_lookup_2.
Qed.

Lemma add_neighbor_ok (idx : nat) (x y : Z) (d : Z * Z)
    (st : gmap nat (list nat) * gmap (nat * nat) (num A)) :
  is_Some (st.1 !! idx) →
  add_neighbor A m kti idx x y d st = Ok (add_neighbor_pure A m kti idx (x, y) st d).
Proof.
  destruct st as [graph ew], d as [dx dy]. simpl. intros [adj Hadj].
  unfold add_neighbor, add_neighbor_pure, neighbor_index, offset. cbn [fst snd].
  case_decide as Hk.
  - destruct Hk as [j Hj]. rewrite Hj.
    rewrite is_path_clear_free by (by eapply kti_free). simpl.
    destruct (y + dy <? len (default [] (head m))); [|done].
    unfold dict_get. rewrite Hj, Hadj. simpl.
    unfold weight_of, axis_aligned. simpl.
    by destruct (Z.abs dx + Z.abs dy =? 1).
  - destruct (kti !! (x + dx, y + dy)) eqn:Hj; [|done].
    exfalso. apply Hk. eauto.
Qed.

Lemma add_neighbor_pure_dom (idx : nat) (c d : Z * Z)
    (st : gmap nat (list nat) * gmap (nat * nat) (num A)) :
  is_Some (st.1 !! idx) →
  dom (add_neighbor_pure A m kti idx c st d).1 = dom st.1.
Proof.
  intros Hs. unfold add_neighbor_pure.
  destruct (neighbor_index m kti c d); [|done]. simpl.
  rewrite dom_insert_L. apply elem_of_dom in Hs.
  apply subseteq_union_1_L. by apply singleton_subseteq_l.
Qed.

Lemma add_vertex_ok (ik : nat * (Z * Z))
    (st : gmap nat (list nat) * gmap (nat * nat) (num A)) :
  is_Some (st.1 !! ik.1) →
  add_vertex A m kti ik st = Ok (add_vertex_pure A m kti st ik)
  ∧ dom (add_vertex_pure A m kti st ik).1 = dom st.1.
Proof.
  destruct ik as [idx [x y]]. cbn [fst snd]. intros Hs.
  unfold add_vertex, add_vertex_pure. cbn [fst snd].
  eapply (for_each_pure (λ s, dom s.1 = dom st.1)); [|done].
  intros d s _ Hdom.
  assert (is_Some (s.1 !! idx)) by (apply elem_of_dom; rewrite Hdom; by apply elem_of_dom).
  split; [by apply add_neighbor_ok|].
  by rewrite add_neighbor_pure_dom.
Qed.

Lemma empty_graph_S (n : nat) : empty_graph (S n) = <[n := []]> (empty_graph n).
Proof. unfold empty_graph. by rewrite seq_S, foldl_snoc. Qed.

Lemma empty_graph_lookup (n i : nat) :
  empty_graph n !! i = if decide (i < n)%nat then Some [] else None.
Proof.
  induction n as [|n IH].
  - rewrite decide_False by lia. apply lookup_empty.
  - rewrite empty_graph_S, lookup_insert, IH.
    repeat case_decide; (done || lia).
Qed.

Lemma empty_graph_size (n : nat) : size (empty_graph n) = n.
Proof.
  induction n as [|n IH]; [apply map_size_empty|].
  rewrite empty_graph_S, map_size_insert_None, IH; [done|].
  rewrite empty_graph_lookup. by rewrite decide_False by lia.
Qed.

Lemma foldl_inv {S B : Type} (P : S → Prop) (f : S → B → S) (l : list B) (s : S) :
  (∀ s x, x ∈ l → P s → P (f s x)) → P s → P (foldl f s l).
Proof.
  revert s. induction l as [|x l IH]; intros s Hf Hs; simpl; [done|].
  apply IH; [|apply Hf; [left|done]]. intros s' y Hy. apply Hf. by right.
Qed.

Lemma create_graph_ok (self : RoadFinder) :
  lidar_map self = m → keys ≠ [] →
  create_graph A self = Ok ((built A m).1, keys, (built A m).2)
  ∧ dom (built A m).1 = dom (empty_graph (length keys)).
Proof.
  intros Hm Hne. unfold create_graph. rewrite Hm. fold keys. fold kti.
  rewrite decide_False by done.
  destruct (for_each_pure (λ s, dom s.1 = dom (empty_graph (length keys)))
              (add_vertex_pure A m kti) (add_vertex A m kti) (enumerate keys)
              (empty_graph (length keys), ∅)) as [-> Hdom]; [|done|].
  - intros [idx c] s Hin Hs. apply enumerate_elem in Hin.
    destruct (add_vertex_ok (idx, c) s) as [-> Hd].
    + apply elem_of_dom. rewrite Hs. apply elem_of_dom.
      rewrite empty_graph_lookup, decide_True; [done|]. by eapply lookup_lt_Some.
    + split; [done|]. by rewrite Hd.
  - change (foldl (add_vertex_pure A m kti) (empty_graph (length keys), ∅) (enumerate keys))
      with (built A m) in *.
    split; [|done]. by destruct (built A m).
Qed.

Lemma built_size : size (built A m).1 = length keys.
Proof.
  rewrite <- size_dom.
  assert (dom (built A m).1 = dom (empty_graph (length keys))) as ->.
  { unfold built. apply (foldl_inv (λ s, dom s.1 = dom (empty_graph (length keys)))); [|done].
    intros s [idx c] Hin%enumerate_elem Hs.
    rewrite <- Hs. apply add_vertex_ok. cbn [fst].
    apply elem_of_dom. rewrite Hs. apply elem_of_dom.
    rewrite empty_graph_lookup, decide_True; [done|]. by eapply lookup_lt_Some. }
  rewrite size_dom. apply empty_graph_size.
Qed.

Lemma add_neighbors_graph (idx : nat) (c : Z * Z) (ds : list (Z * Z))
    (st : gmap nat (list nat) * gmap (nat * nat) (num A)) (adj : list nat) :
  st.1 !! idx = Some adj →
  (foldl (add_neighbor_pure A m kti idx c) st ds).1 !! idx
    = Some (adj ++ omap (neighbor_index m kti c) ds)
  ∧ ∀ i, i ≠ idx →
      (foldl (add_neighbor_pure A m kti idx c) st ds).1 !! i = st.1 !! i.
Proof.
  revert st adj. induction ds as [|d ds IH]; intros st adj Hadj; simpl.
  - by rewrite app_nil_r.
  - unfold add_neighbor_pure at 2 4.
    destruct (neighbor_index m kti c d) as [j|] eqn:Hj.
    + destruct (IH (<[idx:=default [] (st.1 !! idx) ++ [j]]> st.1,
                    <[(idx, j):=weight_of A d]> st.2) (adj ++ [j])) as [E1 E2].
      { cbn [fst]. rewrite Hadj. simpl. apply lookup_insert_eq. }
      split.
      * rewrite E1. by rewrite <- app_assoc.
      * intros i Hi. rewrite E2 by done. cbn [fst]. by rewrite lookup_insert_ne.
    + by apply IH.
Qed.

Lemma add_vertices_graph (L : list (nat * (Z * Z)))
    (st : gmap nat (list nat) * gmap (nat * nat) (num A)) :
  NoDup (L.*1) →
  (∀ ik, ik ∈ L → st.1 !! ik.1 = Some []) →
  (∀ ik, ik ∈ L →
     (foldl (add_vertex_pure A m kti) st L).1 !! ik.1
       = Some (omap (neighbor_index m kti ik.2) neighbors))
  ∧ ∀ i, i ∉ L.*1 → (foldl (add_vertex_pure A m kti) st L).1 !! i = st.1 !! i.
Proof.
  revert st. induction L as [|ik L IH]; intros st Hnd Hst; simpl.
  - split; [|done]. intros ik Hik. by apply elem_of_nil in Hik.
  - rewrite fmap_cons in Hnd. apply NoDup_cons in Hnd as [Hik HL].
    destruct (add_neighbors_graph ik.1 ik.2 neighbors st []) as [E1 E2].
    { apply Hst. left. }
    fold (add_vertex_pure A m kti st ik) in E1, E2.
    destruct (IH (add_vertex_pure A m kti st ik) HL) as [F1 F2].
    { intros ik' Hik'. rewrite E2; [apply Hst; by right|].
      intros E. apply Hik. rewrite <- E. apply list_elem_of_fmap. eauto. }
    split.
    + intros ik' [->|Hik']%elem_of_cons; [|by apply F1].
      rewrite F2 by done. apply E1.
    + intros i Hi. apply not_elem_of_cons in Hi as [Hi1 Hi2].
      rewrite F2 by done. by apply E2.
Qed.

Lemma built_graph (idx : nat) (adj : list nat) :
  (built A m).1 !! idx = Some adj ↔
  ∃ c, keys !! idx = Some c ∧ adj = omap (neighbor_index m kti c) neighbors.
Proof.
  destruct (add_vertices_graph (enumerate keys) (empty_graph (length keys), ∅))
    as [F1 F2]; [apply enumerate_NoDup_fst| |].
  { intros [i c] Hin%enumerate_elem. cbn [fst].
    rewrite empty_graph_lookup, decide_True; [done|]. by eapply lookup_lt_Some. }
  change (foldl (add_vertex_pure A m kti) (empty_graph (length keys), ∅) (enumerate keys))
    with (built A m) in F1, F2.
  split.
  - intros Hadj. destruct (keys !! idx) as [c|] eqn:Hc.
    + exists c. split; [done|].
      specialize (F1 (idx, c)). cbn [fst snd] in F1.
      rewrite F1 in Hadj by (by apply enumerate_elem). congruence.
    + rewrite F2 in Hadj.
      * cbn [fst] in Hadj. rewrite empty_graph_lookup, decide_False in Hadj; [done|].
        apply lookup_ge_None in Hc. lia.
      * intros ([i c] & -> & Hin%enumerate_elem)%list_elem_of_fmap. simpl in Hc. congruence.
  - intros (c & Hc & ->). apply (F1 (idx, c)). by apply enumerate_elem.
Qed.

Lemma add_neighbor_pure_sound (idx : nat) (c d : Z * Z)
    (st : gmap nat (list nat) * gmap (nat * nat) (num A)) :
  keys !! idx = Some c → d ∈ neighbors →
  table_sound A m st → table_sound A m (add_neighbor_pure A m kti idx c st d).
Proof.
  intros Hc Hd [S1 S2]. unfold add_neighbor_pure.
  destruct (neighbor_index m kti c d) as [j|] eqn:Hj; [|done].
  split; cbn [fst snd].
  - intros u v w. rewrite lookup_insert. case_decide as E.
    + injection E as <- <-. intros [= <-]. eauto 10.
    + apply S1.
  - intros u adj v. rewrite lookup_insert. case_decide as E.
    + subst u. intros [= <-] [Hv|Hv%list_elem_of_singleton]%elem_of_app.
      * destruct (st.1 !! idx) as [adj0|] eqn:Hadj; [|by apply elem_of_nil in Hv].
        rewrite lookup_insert. case_decide; [eauto|]. by eapply S2.
      * subst v. rewrite lookup_insert_eq. eauto.
    + intros Hadj Hv. rewrite lookup_insert. case_decide; [eauto|]. by eapply S2.
Qed.

Lemma built_sound : table_sound A m (built A m).
Proof.
  unfold built. apply foldl_inv.
  - intros s [idx c] Hin%enumerate_elem Hs. unfold add_vertex_pure.
    apply foldl_inv; [|done]. intros s' d Hd Hs'. by apply add_neighbor_pure_sound.
  - split; cbn [fst snd].
    + intros u v w. by rewrite lookup_empty.
    + intros u adj v. rewrite empty_graph_lookup. case_decide; [|done].
      intros [= <-] Hv. by apply elem_of_nil in Hv.
Qed.

Lemma neighbor_index_Some (c d : Z * Z) (v : nat) :
  neighbor_index m kti c d = Some v ↔
  keys !! v = Some (offset c d) ∧ c.2 + d.2 < len (default [] (head m)).
Proof.
  unfold neighbor_index. destruct (kti !! offset c d) as [j|] eqn:Hj; simpl.
  - apply kti_lookup in Hj. destruct (Z.ltb_spec (c.2 + d.2) (len (default [] (head m)))).
    + split; [intros [= <-]; done|]. intros [Hv _]. f_equal.
      eapply NoDup_lookup; [apply keys_of_NoDup|done..].
    + split; [done|]. intros [_ ?]. lia.
  - split; [done|]. intros [Hv%kti_lookup _]. congruence.
Qed.

End Graph.

Lemma elem_of_successors (graph : gmap nat (list nat)) (X : gset nat) (v : nat) :
  v ∈ successors graph X ↔ ∃ u, u ∈ X ∧ edge graph u v.
Proof.
  unfold successors, edge. rewrite elem_of_set_bind. split.
  - intros (u & Hu & Hv). exists u. split; [done|].
    destruct (graph !! u) as [adj|]; simpl in Hv; [|by apply not_elem_of_empty in Hv].
    exists adj. split; [done|]. by apply elem_of_list_to_set in Hv.
  - intros (u & Hu & adj & Hadj & Hv). exists u. split; [done|].
    rewrite Hadj. simpl. by apply elem_of_list_to_set.
Qed.

Section Hops.

Context (graph : gmap nat (list nat)) (n s : nat).
Hypothesis Hs : (s < n)%nat.
Hypothesis Hedge : ∀ u v, edge graph u v → (v < n)%nat.

Lemma within_hops_bound (k : nat) : within_hops graph s k ⊆ set_seq 0 n.
Proof.
  induction k as [|k IH]; simpl.
  - intros x ->%elem_of_singleton. apply elem_of_set_seq. lia.
  - intros x [Hx|Hx]%elem_of_union; [by apply IH|].
    apply elem_of_successors in Hx as (u & _ & Hx%Hedge).
    apply elem_of_set_seq. lia.
Qed.

Lemma within_hops_stable (k j : nat) :
  within_hops graph s (S k) = within_hops graph s k →
  within_hops graph s (k + j) = within_hops graph s k.
Proof.
  intros E. induction j as [|j IH].
  - by rewrite Nat.add_0_r.
  - rewrite Nat.add_succ_r. simpl. rewrite IH. apply E.
Qed.

Lemma within_hops_mono (k : nat) :
  within_hops graph s k ⊆ within_hops graph s (S k).
Proof. intros x Hx. simpl. apply elem_of_union. by left. Qed.

Lemma within_hops_step (k : nat) :
  within_hops graph s (S k) = within_hops graph s k
  ∨ (size (within_hops graph s k) < size (within_hops graph s (S k)))%nat.
Proof.
  destruct (decide (within_hops graph s (S k) = within_hops graph s k)) as [E|E];
    [by left|right].
  apply subset_size. split; [apply within_hops_mono|].
  intros Hsub. apply E, set_eq. intros x. split; [apply Hsub|apply within_hops_mono].
Qed.

Lemma within_hops_grow (k : nat) :
  (∃ j, (j ≤ k)%nat ∧ within_hops graph s (S j) = within_hops graph s j)
  ∨ (k + 2 ≤ size (within_hops graph s (S k)))%nat.
Proof.
  induction k as [|k [(j & Hj & E)|IH]].
  - destruct (within_hops_step 0) as [E|Hlt]; [left; by exists 0%nat|right].
    change (within_hops graph s 0) with ({[s]} : gset nat) in Hlt.
    rewrite size_singleton in Hlt. lia.
  - left. exists j. split; [lia|done].
  - destruct (within_hops_step (S k)) as [E|Hlt]; [left; by exists (S k)|right]. lia.
Qed.

(** After [n - 1] rounds nothing new can be reached. *)
Lemma within_hops_closed :
  within_hops graph s (S (n - 1)) = within_hops graph s (n - 1).
Proof.
  destruct (within_hops_grow (n - 1)) as [(j & Hj & E)|Hsz].
  - replace (S (n - 1)) with (j + S (n - 1 - j))%nat by lia.
    replace (n - 1)%nat with (j + (n - 1 - j))%nat at 2 by lia.
    by rewrite !within_hops_stable.
  - pose proof (subseteq_size _ _ (within_hops_bound (S (n - 1)))) as Hle.
    rewrite size_set_seq in Hle. lia.
Qed.

Lemma reach_within_hops (x : nat) :
  rtc (edge graph) s x → x ∈ within_hops graph s (n - 1).
Proof.
  revert x. apply rtc_ind_r.
  - clear. induction (n - 1)%nat as [|k IH]; [by apply elem_of_singleton|].
    by apply within_hops_mono.
  - intros u v Hu Huv IH. rewrite <- within_hops_closed. simpl. apply elem_of_union. right.
    apply elem_of_successors. eauto.
Qed.

End Hops.

Section Relax.

Context (A : Arith) (n : nat) (graph : gmap nat (list nat))
  (edge_weights : gmap (nat * nat) (num A)) (s : nat).
Hypothesis Hwf : graph_wf A n graph edge_weights.

Lemma relax_edge_ok (u v : nat) (w dv du : num A) (distances : list (num A))
    (predecessor : list Z) :
  edge_weights !! (u, v) = Some w →
  distances !! v = Some dv → distances !! u = Some du →
  length predecessor = length distances →
  relax_edge A edge_weights u v (distances, predecessor)
  = Ok (if gtb A dv (add A du w)
        then (<[v := add A du w]> distances, <[v := Z.of_nat u]> predecessor)
        else (distances, predecessor)).
Proof.
  intros Hw Hv Hu Hlen. unfold relax_edge, dict_get, list_get, list_set.
  rewrite Hw, Hv, Hu. simpl.
  destruct (gtb A dv (add A du w)); [|done].
  apply lookup_lt_Some in Hv.
  rewrite decide_True by lia. simpl.
  rewrite decide_True by lia. done.
Qed.

(** Every way through the loops of [__relax_edges] keeps a property that one
    relaxation keeps. *)
Lemma relax_edges_inv (P : list (num A) * list Z → Prop) (st : list (num A) * list Z) :
  (∀ u v st, edge graph u v → P st →
     ∃ st', relax_edge A edge_weights u v st = Ok st' ∧ P st') →
  P st →
  ∃ st', relax_edges A graph edge_weights st.1 st.2 = Ok st' ∧ P st'.
Proof.
  intros Hstep Hst. unfold relax_edges. rewrite (wf_size _ _ _ _ Hwf).
  destruct st as [d p]. simpl.
  apply for_each_inv; [|done]. intros _ st1 _ Hst1.
  unfold relax_pass. apply for_each_inv; [|done]. intros u st2 Hu Hst2.
  apply elem_of_seq in Hu. unfold relax_vertex.
  destruct (wf_dom _ _ _ _ Hwf u) as [adj Hadj]; [lia|].
  unfold dict_get. rewrite Hadj. simpl.
  apply for_each_inv; [|done]. intros v st3 Hv Hst3.
  apply Hstep; [|done]. by exists adj.
Qed.

Section Light.

Hypothesis HL : SentinelLaws A.

Lemma light_inv_relax (u v : nat) (st : list (num A) * list Z) :
  edge graph u v → light_inv A n graph s st →
  ∃ st', relax_edge A edge_weights u v st = Ok st' ∧ light_inv A n graph s st'.
Proof.
  intros He (Hd & Hp & Hfs & Hreach).
  destruct (wf_edge _ _ _ _ Hwf u v He) as (Hu & Hv & w & Hw & Hww).
  destruct st as [dist pred]. cbn [fst snd] in *.
  destruct (lookup_lt_is_Some_2 dist u) as [du Hdu]; [lia|].
  destruct (lookup_lt_is_Some_2 dist v) as [dv Hdv]; [lia|].
  rewrite (relax_edge_ok u v w dv du) by (done || lia).
  eexists. split; [done|].
  destruct (gtb A dv (add A du w)) eqn:Hgt; [|done].
  assert (Hnew : eqb A (add A du w) (inf A) = false) by (by eapply below_finite).
  assert (Hfu : finite_at A dist u).
  { exists du. split; [done|]. destruct (eqb A du (inf A)) eqn:E; [|done].
    rewrite (add_inf A HL du w) in Hnew; done. }
  unfold light_inv. simpl. rewrite !length_insert. repeat split; [done..| |].
  - destruct (decide (s = v)) as [->|Hne].
    + exists (add A du w). split; [|done]. apply list_lookup_insert_eq. lia.
    + destruct Hfs as (d & ? & ?). exists d. by rewrite list_lookup_insert_ne.
  - intros x (d & Hx & Hfin). destruct (decide (x = v)) as [->|Hne].
    + eapply rtc_r; [by apply Hreach|done].
    + rewrite list_lookup_insert_ne in Hx by done. apply Hreach. by exists d.
Qed.

Lemma light_inv_relax_edges (st : list (num A) * list Z) :
  light_inv A n graph s st →
  ∃ st', relax_edges A graph edge_weights st.1 st.2 = Ok st'
         ∧ light_inv A n graph s st'.
Proof. apply relax_edges_inv. intros u v st1. apply light_inv_relax. Qed.

Lemma light_inv_init :
  (s < n)%nat →
  light_inv A n graph s (<[s := zero A]> (replicate n (inf A)), replicate n (-1)).
Proof.
  intros Hs. unfold light_inv. simpl.
  rewrite length_insert, !length_replicate. repeat split; [done..| |].
  - exists (zero A). split; [|apply zero_finite, HL].
    apply list_lookup_insert_eq. by rewrite length_replicate.
  - intros x (d & Hx & Hfin). destruct (decide (x = s)) as [->|Hne]; [done|].
    rewrite list_lookup_insert_ne in Hx by done.
    apply lookup_replicate in Hx as [-> _].
    rewrite (inf_eqb_inf A HL) in Hfin. done.
Qed.

End Light.

Section Tree.

Hypothesis HO : OrderLaws A.

Lemma inf_num : is_num A (inf A).
Proof. apply inf_eqb_inf, HO. Qed.

Lemma gtb_irrefl (x : num A) : gtb A x x = false.
Proof.
  destruct (gtb A x x) eqn:E; [|done]. by rewrite (gtb_asym A HO x x E) in E.
Qed.

Lemma zero_dist : is_dist A (zero A).
Proof. split; [apply zero_num, HO|apply gtb_irrefl]. Qed.

Lemma inf_dist : is_dist A (inf A).
Proof.
  split; [apply inf_num|]. destruct (gtb A (zero A) (inf A)) eqn:E; [|done].
  apply (below_finite A (sentinel_laws A HO)) in E.
  by rewrite (inf_eqb_inf A (sentinel_laws A HO)) in E.
Qed.

(** [a > b] and [b >= c] give [a > c]. *)
Lemma gtb_ge_trans (a b c : num A) :
  is_num A a → is_num A b → is_num A c →
  gtb A a b = true → gtb A c b = false → gtb A a c = true.
Proof.
  intros Ha Hb Hc Hab Hcb. destruct (gtb A a c) eqn:E; [done|].
  by rewrite (gtb_negtrans A HO a c b) in Hab.
Qed.

(** A vertex whose distance is below [distances[v]] does not have [v] on its
    way to the start, so an assignment to [predecessor[v]] leaves that way
    as it is. *)
Lemma to_start_avoid (st : list (num A) * list Z) (v : nat) (p : Z) (dv : num A)
    (y : nat) (dy : num A) :
  tree_inv A n s st → st.1 !! v = Some dv →
  to_start st.2 s y → st.1 !! y = Some dy → gtb A dv dy = true →
  to_start (<[v := p]> st.2) s y.
Proof.
  intros (Hd & Hp & Hdist & Hord & Hts) Hv Hy. revert dy.
  assert (Hnum : ∀ x d, st.1 !! x = Some d → is_num A d).
  { intros x d H. by apply (Hdist x d H). }
  induction Hy as [|y u Hys Hyu Hu IH]; intros dy Hdy Hgt; [constructor|].
  destruct (Hord y u Hyu) as (du & dy' & Hdu & Hdy' & Hle).
  assert (dy' = dy) as -> by congruence.
  assert (y ≠ v).
  { intros ->. assert (dy = dv) as -> by congruence. by rewrite gtb_irrefl in Hgt. }
  apply (to_start_step _ _ y u); [done| |].
  - by rewrite list_lookup_insert_ne.
  - apply (IH du); [done|]. eapply gtb_ge_trans; eauto.
Qed.

Lemma to_start_update (pred : list Z) (v u x : nat) :
  (v < length pred)%nat →
  to_start (<[v := Z.of_nat u]> pred) s u →
  to_start pred s x → to_start (<[v := Z.of_nat u]> pred) s x.
Proof.
  intros Hv Hu Hx. induction Hx as [|x u' Hxs Hxu Hu' IH]; [constructor|].
  destruct (decide (x = v)) as [->|Hne].
  - apply (to_start_step _ _ v u); [done| |done]. by apply list_lookup_insert_eq.
  - apply (to_start_step _ _ x u'); [done| |done]. by rewrite list_lookup_insert_ne.
Qed.

(** One relaxation keeps the invariant, loses no finite distance, and makes
    [distances[v]] finite when [distances[u]] is. *)
Lemma tree_inv_relax (u v : nat) (st : list (num A) * list Z) :
  edge graph u v → tree_inv A n s st →
  ∃ st', relax_edge A edge_weights u v st = Ok st' ∧ tree_inv A n s st'
    ∧ (∀ x, finite_at A st.1 x → finite_at A st'.1 x)
    ∧ (finite_at A st.1 u → finite_at A st'.1 v).
Proof.
  intros He Hinv. pose proof Hinv as (Hd & Hp & Hdist & Hord & Hts).
  destruct (wf_edge _ _ _ _ Hwf u v He) as (Hu & Hv & w & Hw & Hww).
  destruct st as [dist pred]. cbn [fst snd] in *.
  assert (Hnum : ∀ x d, dist !! x = Some d → is_num A d).
  { intros x d H. by apply (Hdist x d H). }
  destruct (lookup_lt_is_Some_2 dist u) as [du Hdu]; [lia|].
  destruct (lookup_lt_is_Some_2 dist v) as [dv Hdv]; [lia|].
  rewrite (relax_edge_ok u v w dv du) by (done || lia).
  eexists. split; [done|].
  assert (Hndu : is_num A du) by eauto.
  assert (Hndv : is_num A dv) by eauto.
  assert (Hddu : is_dist A du) by eauto.
  assert (Hnnew : is_num A (add A du w)) by (by apply add_num).
  assert (Hge : gtb A du (add A du w) = false) by (by apply add_ge).
  assert (Hdnew : is_dist A (add A du w)).
  { split; [done|]. apply (gtb_negtrans A HO _ du); auto; [apply zero_num|apply Hddu]; done. }
  destruct (gtb A dv (add A du w)) eqn:Hgt.
  - (* distances[v] and predecessor[v] are assigned *)
    assert (Hnew : eqb A (add A du w) (inf A) = false).
    { eapply below_finite; [apply HO|done]. }
    assert (Hfu : finite_at A dist u).
    { exists du. split; [done|]. destruct (eqb A du (inf A)) eqn:E; [|done].
      rewrite (add_inf A (sentinel_laws A HO) du w) in Hnew; done. }
    assert (Hdvu : gtb A dv du = true).
    { eapply gtb_ge_trans; eauto. }
    assert (Huv : u ≠ v).
    { intros ->. assert (du = dv) as -> by congruence. by rewrite gtb_irrefl in Hdvu. }
    assert (Htsu : to_start (<[v := Z.of_nat u]> pred) s u).
    { apply (to_start_avoid (dist, pred) v (Z.of_nat u) dv u du); auto. }
    split; [|split].
    + unfold tree_inv. cbn [fst snd]. rewrite !length_insert.
      split; [done|]. split; [done|]. split; [|split].
      * intros x d. destruct (decide (x = v)) as [->|Hne].
        -- rewrite list_lookup_insert_eq by lia. by intros [= <-].
        -- rewrite list_lookup_insert_ne by done. apply Hdist.
      * intros x u0. destruct (decide (x = v)) as [->|Hne].
        -- rewrite list_lookup_insert_eq by lia. intros [= E%Nat2Z.inj]. subst u0.
           exists du, (add A du w). rewrite list_lookup_insert_ne by done.
           rewrite list_lookup_insert_eq by lia. repeat split; done.
        -- rewrite list_lookup_insert_ne by done. intros Hx.
           destruct (Hord x u0 Hx) as (du0 & dx & Hdu0 & Hdx & Hle).
           rewrite (list_lookup_insert_ne dist v x) by done.
           destruct (decide (u0 = v)) as [->|Hne0].
           ++ assert (du0 = dv) as -> by congruence.
              exists (add A du w), dx. rewrite list_lookup_insert_eq by lia.
              repeat split; [done|].
              apply (gtb_negtrans A HO _ dv); eauto. by apply gtb_asym.
           ++ exists du0, dx. by rewrite list_lookup_insert_ne.
      * intros x (d & Hx & Hfin). destruct (decide (x = v)) as [->|Hne].
        -- destruct (decide (v = s)) as [->|Hvs]; [constructor|].
           apply (to_start_step _ _ v u); [done| |done].
           apply list_lookup_insert_eq. lia.
        -- rewrite list_lookup_insert_ne in Hx by done.
           apply to_start_update; [lia|done|]. apply Hts. by exists d.
    + intros x (d & Hx & Hfin). cbn [fst]. destruct (decide (x = v)) as [->|Hne].
      * exists (add A du w). by rewrite list_lookup_insert_eq by lia.
      * exists d. by rewrite list_lookup_insert_ne.
    + intros _. exists (add A du w). cbn [fst]. by rewrite list_lookup_insert_eq by lia.
  - (* nothing is assigned *)
    split; [done|]. split; [done|].
    intros (du' & Hdu' & Hfin). assert (du' = du) as -> by congruence.
    exists dv. split; [done|].
    apply (le_finite A HO dv (add A du w)); auto. by apply add_finite.
Qed.

Lemma tree_inv_relax_vertex (u : nat) (st : list (num A) * list Z) :
  (u < n)%nat → tree_inv A n s st →
  ∃ st', relax_vertex A graph edge_weights u st = Ok st' ∧ tree_inv A n s st'
    ∧ keeps_finite A st st'
    ∧ (∀ v, edge graph u v → finite_at A st.1 u → finite_at A st'.1 v).
Proof.
  intros Hu Hinv. unfold relax_vertex, dict_get.
  destruct (wf_dom _ _ _ _ Hwf u Hu) as [adj Hadj]. rewrite Hadj. simpl.
  destruct (for_each_prefix
    (λ vs st', tree_inv A n s st' ∧ keeps_finite A st st'
               ∧ ∀ v, v ∈ vs → finite_at A st.1 u → finite_at A st'.1 v)
    (relax_edge A edge_weights u) adj st) as (st' & E & H1 & H2 & H3).
  - intros l1 v l2 st1 El (I1 & I2 & I3).
    destruct (tree_inv_relax u v st1) as (st2 & E2 & J1 & J2 & J3); [|done|].
    { exists adj. split; [done|]. rewrite El. apply elem_of_app. right. left. }
    exists st2. split; [done|]. split; [done|]. split.
    + intros x Hx. by apply J2, I2.
    + intros v' [Hv'|Hv'%list_elem_of_singleton]%elem_of_app Hfu.
      * by apply J2, I3.
      * subst v'. by apply J3, I2.
  - split; [done|]. split; [by intros x|]. intros v Hv. by apply elem_of_nil in Hv.
  - exists st'. split; [done|]. split; [done|]. split; [done|].
    intros v (adj' & Hadj' & Hv). apply H3. congruence.
Qed.

Lemma tree_inv_relax_pass (st : list (num A) * list Z) :
  tree_inv A n s st →
  ∃ st', relax_pass A graph edge_weights n st = Ok st' ∧ tree_inv A n s st'
    ∧ keeps_finite A st st'
    ∧ (∀ u v, edge graph u v → finite_at A st.1 u → finite_at A st'.1 v).
Proof.
  intros Hinv. unfold relax_pass.
  destruct (for_each_prefix
    (λ us st', tree_inv A n s st' ∧ keeps_finite A st st'
               ∧ ∀ u v, u ∈ us → edge graph u v →
                   finite_at A st.1 u → finite_at A st'.1 v)
    (relax_vertex A graph edge_weights) (seq 0 n) st) as (st' & E & H1 & H2 & H3).
  - intros l1 u l2 st1 El (I1 & I2 & I3).
    destruct (tree_inv_relax_vertex u st1) as (st2 & E2 & J1 & J2 & J3); [|done|].
    { assert (Hu : u ∈ seq 0 n) by (rewrite El; apply elem_of_app; right; left).
      apply elem_of_seq in Hu. lia. }
    exists st2. split; [done|]. split; [done|]. split.
    + intros x Hx. by apply J2, I2.
    + intros u' v [Hu'|Hu'%list_elem_of_singleton]%elem_of_app He Hfu.
      * by eapply J2, I3.
      * subst u'. by apply J3, I2.
  - split; [done|]. split; [by intros x|]. intros u v Hu. by apply elem_of_nil in Hu.
  - exists st'. split; [done|]. split; [done|]. split; [done|].
    intros u v He. apply H3; [|done].
    apply elem_of_seq. destruct (wf_edge _ _ _ _ Hwf u v He). lia.
Qed.

(** After all the passes every vertex that can be reached from [s] has a
    finite distance. *)
Lemma tree_inv_relax_edges (st : list (num A) * list Z) :
  (s < n)%nat → tree_inv A n s st → finite_at A st.1 s →
  ∃ st', relax_edges A graph edge_weights st.1 st.2 = Ok st' ∧ tree_inv A n s st'
    ∧ ∀ x, rtc (edge graph) s x → finite_at A st'.1 x.
Proof.
  intros Hs Hinv Hfs. unfold relax_edges. rewrite (wf_size _ _ _ _ Hwf).
  destruct st as [dist pred]. cbn [fst snd] in *.
  destruct (for_each_prefix
    (λ (ks : list nat) st', tree_inv A n s st'
       ∧ ∀ x, x ∈ within_hops graph s (length ks) → finite_at A st'.1 x)
    (λ _, relax_pass A graph edge_weights n) (seq 0 (n - 1)) (dist, pred))
    as (st' & E & H1 & H2).
  - intros l1 k l2 st1 El (I1 & I2).
    destruct (tree_inv_relax_pass st1 I1) as (st2 & E2 & J1 & J2 & J3).
    exists st2. split; [done|]. split; [done|].
    intros x. rewrite length_app, Nat.add_1_r. simpl.
    intros [Hx|Hx]%elem_of_union.
    + by apply J2, I2.
    + apply elem_of_successors in Hx as (u & Hu & He). eapply J3; eauto.
  - split; [done|]. intros x Hx. simpl in Hx.
    apply elem_of_singleton in Hx. by subst x.
  - exists st'. split; [done|]. split; [done|].
    intros x Hx. apply H2. rewrite length_seq.
    apply (reach_within_hops graph n s); [done| |done].
    intros u v He. by destruct (wf_edge _ _ _ _ Hwf u v He) as (_ & ? & _).
Qed.

Lemma tree_inv_init :
  (s < n)%nat →
  tree_inv A n s (<[s := zero A]> (replicate n (inf A)), replicate n (-1)).
Proof.
  intros Hs. unfold tree_inv. cbn [fst snd].
  rewrite length_insert, !length_replicate.
  split; [done|]. split; [done|]. split; [|split].
  - intros x d. destruct (decide (x = s)) as [->|Hne].
    + rewrite list_lookup_insert_eq by (by rewrite length_replicate).
      intros [= <-]. apply zero_dist.
    + rewrite list_lookup_insert_ne by done. intros [-> _]%lookup_replicate.
      apply inf_dist.
  - intros x u [E _]%lookup_replicate. lia.
  - intros x (d & Hx & Hfin). destruct (decide (x = s)) as [->|Hne]; [constructor|].
    rewrite list_lookup_insert_ne in Hx by done.
    apply lookup_replicate in Hx as [-> _].
    rewrite (inf_eqb_inf A (sentinel_laws A HO)) in Hfin. done.
Qed.

End Tree.

End Relax.

(** ** The way back along the predecessors *)

Lemma reconstruct_loop_start (fuel : nat) (pred : list Z) (s : Z) (acc : list Z) :
  reconstruct_loop fuel pred s s acc = Ok (reverse (acc ++ [s])).
Proof. destruct fuel; simpl; by rewrite decide_False by (by intros []). Qed.

Lemma reconstruct_loop_ok (pred : list Z) (s x : nat) :
  to_start pred s x →
  ∃ (k : nat) (l : list nat),
    head l = Some x ∧ last l = Some s
    ∧ (∀ y, y ∈ l → y = s ∨ is_Some (pred !! y))
    ∧ ∀ fuel acc, (k ≤ fuel)%nat →
        reconstruct_loop fuel pred (Z.of_nat s) (Z.of_nat x) acc
        = Ok (reverse (acc ++ (Z.of_nat <$> l))).
Proof.
  induction 1 as [|x u Hxs Hxu Hu (k & l & Hhd & Hlast & Hall & Hrun)].
  - exists 0%nat, [s]. repeat split; [|intros; apply reconstruct_loop_start].
    intros y ->%list_elem_of_singleton. by left.
  - exists (S k), (x :: l). split; [done|]. split; [|split].
    + rewrite last_cons, Hlast. done.
    + intros y [->|Hy]%elem_of_cons; [right; eauto|by apply Hall].
    + intros [|fuel] acc Hfuel; [lia|]. simpl.
      rewrite decide_True by lia.
      rewrite (py_index_nat pred x (Z.of_nat u)) by done. simpl.
      destruct (Z.eqb_spec (Z.of_nat u) (-1)); [lia|].
      rewrite Hrun by lia. by rewrite <- app_assoc.
Qed.

Lemma map_each_keys (keys : list (Z * Z)) (l : list nat) :
  (∀ y, y ∈ l → is_Some (keys !! y)) →
  ∃ p, map_each (py_index keys) (Z.of_nat <$> l) = Ok p
       ∧ Forall2 (λ y c, keys !! y = Some c) l p.
Proof.
  induction l as [|y l IH]; intros Hl; [by exists []|].
  destruct (Hl y) as [c Hc]; [left|].
  destruct IH as (p & E & Hp); [intros z Hz; apply Hl; by right|].
  rewrite fmap_cons. cbn [map_each].
  rewrite (py_index_nat keys y c), E by done. simpl.
  exists (c :: p). split; [done|]. by constructor.
Qed.

Lemma Forall2_head {B C : Type} (R : B → C → Prop) (l : list B) (p : list C) (x : B) :
  Forall2 R l p → head l = Some x → ∃ c, head p = Some c ∧ R x c.
Proof. destruct 1; simpl; [done|]. intros [= ->]. eauto. Qed.

Lemma Forall2_last_elem {B C : Type} (R : B → C → Prop) (l : list B) (p : list C) (x : B) :
  Forall2 R l p → last l = Some x → ∃ c, last p = Some c ∧ R x c.
Proof.
  intros H%Forall2_reverse. rewrite <- !head_reverse. by apply Forall2_head.
Qed.

Lemma py_list_index_NoDup (keys : list (Z * Z)) (c : Z * Z) (i : nat) :
  NoDup keys → keys !! i = Some c → py_list_index keys c = Ok i.
Proof.
  intros Hnd Hi. destruct (py_list_index_elem keys c) as (j & -> & Hj).
  { by eapply list_elem_of_lookup_2. }
  f_equal. by eapply NoDup_lookup.
Qed.

Section BellmanFord.

Context (A : Arith).

(** What [__bellman_ford] does once the two points are known to be vertices. *)
Lemma bellman_ford_unfold (fuel : nat) (self : RoadFinder)
    (graph : gmap nat (list nat)) (keys : list (Z * Z))
    (edge_weights : gmap (nat * nat) (num A)) (si ei : nat) :
  NoDup keys → size graph = length keys →
  keys !! si = Some (starting_point self) →
  keys !! ei = Some (ending_point self) →
  bellman_ford A fuel self graph keys edge_weights =
    ('(distances, predecessor) ←
        relax_edges A graph edge_weights
          (<[si := zero A]> (replicate (length keys) (inf A)))
          (replicate (length keys) (-1));
     dend ← list_get distances ei;
     if eqb A dend (inf A) then Ok ([], self)
     else
       path_indices ← reconstruct_path fuel predecessor (Z.of_nat si) (Z.of_nat ei);
       match path_indices with
       | [] => Ok ([], self)
       | _ :: _ =>
           p ← map_each (py_index keys) path_indices;
           Ok (p, set_path self p)
       end).
Proof.
  intros Hnd Hsize Hsi Hei. unfold bellman_ford.
  rewrite !bool_decide_eq_false_2.
  2:{ intros H. apply H. by eapply list_elem_of_lookup_2. }
  2:{ intros H. apply H. by eapply list_elem_of_lookup_2. }
  cbn [orb].
  rewrite (py_list_index_NoDup keys (starting_point self) si) by done.
  rewrite (py_list_index_NoDup keys (ending_point self) ei) by done.
  rewrite Hsize. simpl. unfold list_set.
  rewrite decide_True; [done|].
  rewrite length_replicate. by eapply lookup_lt_Some.
Qed.

End BellmanFord.

Lemma neighbors_weight (A : Arith) (d : Z * Z) : is_weight A (weight_of A d).
Proof. unfold weight_of, is_weight. destruct (axis_aligned d); auto. Qed.

Lemma rectangular_column (m : list (list Z)) (c : Z * Z) :
  rectangular m → free m c → c.2 < len (default [] (head m)).
Proof.
  intros Hrect (row & Hx & Hy & Hrow & Hval)%free_inv.
  apply list_elem_of_lookup_2 in Hrow. apply Hrect in Hrow.
  apply lookup_lt_Some in Hval. unfold len. lia.
Qed.

Section Main.

Context (A : Arith) (m : list (list Z)).

Let keys := keys_of m.
Let kti := key_to_index_of keys.
Let graph := (built A m).1.
Let edge_weights := (built A m).2.

Lemma built_edge (u v : nat) :
  edge graph u v ↔
  ∃ c d, keys !! u = Some c ∧ d ∈ neighbors ∧ neighbor_index m kti c d = Some v.
Proof.
  unfold edge. split.
  - intros (adj & (c & Hc & ->)%built_graph & Hv).
    apply list_elem_of_omap in Hv as (d & Hd & Hv). eauto.
  - intros (c & d & Hc & Hd & Hv). exists (omap (neighbor_index m kti c) neighbors).
    split; [apply built_graph; eauto|]. apply list_elem_of_omap. eauto.
Qed.

Lemma built_wf : graph_wf A (length keys) graph edge_weights.
Proof.
  split.
  - apply built_size.
  - intros u Hu. destruct (lookup_lt_is_Some_2 keys u Hu) as [c Hc].
    eexists. apply built_graph. eauto.
  - intros u v He. pose proof He as (c & d & Hc & Hd & Hv)%built_edge.
    pose proof Hv as [Hv' _]%neighbor_index_Some.
    split; [by eapply lookup_lt_Some|]. split; [by eapply lookup_lt_Some|].
    destruct He as (adj & Hadj & Hin).
    destruct (proj2 (built_sound A m) u adj v Hadj Hin) as [w Hw].
    exists w. split; [done|].
    destruct (proj1 (built_sound A m) u v w Hw) as (c' & d' & _ & _ & _ & ->).
    apply neighbors_weight.
Qed.

(** An edge of the graph is a move of 8-connectivity onto a free cell. *)
Lemma edge_step8 (u v : nat) :
  edge graph u v →
  ∃ c c', keys !! u = Some c ∧ keys !! v = Some c' ∧ step8 m c c'.
Proof.
  intros (c & d & Hc & Hd & [Hv _]%neighbor_index_Some)%built_edge.
  exists c, (offset c d). split; [done|]. split; [done|]. split; [|eauto].
  apply keys_of_free. by eapply list_elem_of_lookup_2.
Qed.

(** In a rectangular grid every such move is an edge. *)
Lemma step8_edge (u : nat) (c c' : Z * Z) :
  rectangular m → keys !! u = Some c → step8 m c c' →
  ∃ v, keys !! v = Some c' ∧ edge graph u v.
Proof.
  intros Hrect Hc [Hfree (d & Hd & ->)].
  pose proof Hfree as (v & Hv)%keys_of_free%list_elem_of_lookup_1.
  exists v. split; [done|]. apply built_edge. exists c, d.
  split; [done|]. split; [done|]. apply neighbor_index_Some. split; [done|].
  by apply (rectangular_column m (offset c d)).
Qed.

Lemma reach_graph_grid (si x : nat) (s : Z * Z) :
  keys !! si = Some s → rtc (edge graph) si x →
  ∃ c, keys !! x = Some c ∧ reachable8 m s c.
Proof.
  intros Hs. revert x. apply rtc_ind_r.
  - exists s. split; [done|]. apply rtc_refl.
  - intros u v _ (c & c' & Hc & Hc' & Hstep)%edge_step8 (c0 & Hc0 & Hreach).
    exists c'. split; [done|]. eapply rtc_r; [done|]. congruence.
Qed.

Lemma reach_grid_graph (si : nat) (s e : Z * Z) :
  rectangular m → keys !! si = Some s → reachable8 m s e →
  ∃ ei, keys !! ei = Some e ∧ rtc (edge graph) si ei.
Proof.
  intros Hrect Hs. revert e. apply rtc_ind_r.
  - exists si. split; [done|]. apply rtc_refl.
  - intros c c' _ Hstep (u & Hu & Hreach).
    destruct (step8_edge u c c' Hrect Hu Hstep) as (v & Hv & He).
    exists v. split; [done|]. by eapply rtc_r.
Qed.

Context (self : RoadFinder).
Hypothesis Hmap : lidar_map self = m.

(** [find_path] for a request whose two points are free cells. *)
Lemma find_path_unfold (fuel : nat) (si ei : nat) :
  keys !! si = Some (starting_point self) →
  keys !! ei = Some (ending_point self) →
  find_path A fuel self =
    ('(distances, predecessor) ←
        relax_edges A graph edge_weights
          (<[si := zero A]> (replicate (length keys) (inf A)))
          (replicate (length keys) (-1));
     dend ← list_get distances ei;
     if eqb A dend (inf A) then Ok ([], self)
     else
       path_indices ← reconstruct_path fuel predecessor (Z.of_nat si) (Z.of_nat ei);
       match path_indices with
       | [] => Ok ([], self)
       | _ :: _ =>
           p ← map_each (py_index keys) path_indices;
           Ok (p, set_path self p)
       end).
Proof.
  intros Hsi Hei. unfold find_path.
  destruct (create_graph_ok A m self Hmap) as [-> _].
  { intros E. fold keys in E. by rewrite E in Hsi. }
  simpl. apply bellman_ford_unfold; [apply keys_of_NoDup|apply built_size|done..].
Qed.

Lemma free_index (c : Z * Z) : free m c → ∃ i, keys !! i = Some c.
Proof. intros H%keys_of_free. by apply list_elem_of_lookup_1. Qed.

(** No route: the result is empty and [self] is as before. *)
Lemma find_path_unreachable (fuel : nat) :
  SentinelLaws A →
  free m (starting_point self) → free m (ending_point self) →
  ¬ reachable8 m (starting_point self) (ending_point self) →
  find_path A fuel self = Ok ([], self).
Proof.
  intros HL [si Hsi]%free_index [ei Hei]%free_index Hno.
  rewrite (find_path_unfold fuel si ei) by done.
  assert (Hlt : (si < length keys)%nat) by (by eapply lookup_lt_Some).
  destruct (light_inv_relax_edges A _ graph edge_weights si built_wf HL
              (<[si := zero A]> (replicate (length keys) (inf A)),
               replicate (length keys) (-1)))
    as ([dist pred] & Erelax & Hd & Hp & Hfs & Hreach).
  { by apply light_inv_init. }
  cbn [fst snd] in *. rewrite Erelax. simpl. unfold list_get.
  destruct (lookup_lt_is_Some_2 dist ei) as [dend Hdend].
  { rewrite Hd. by eapply lookup_lt_Some. }
  rewrite Hdend. simpl.
  destruct (eqb A dend (inf A)) eqn:E; [done|].
  exfalso. apply Hno.
  destruct (reach_graph_grid si ei _ Hsi) as (c & Hc & Hr).
  { apply Hreach. by exists dend. }
  congruence.
Qed.

(** The start is the end: the result is that one cell. *)
Lemma find_path_trivial (fuel : nat) :
  SentinelLaws A →
  free m (starting_point self) → ending_point self = starting_point self →
  find_path A fuel self
  = Ok ([starting_point self], set_path self [starting_point self]).
Proof.
  intros HL [si Hsi]%free_index Hend.
  rewrite (find_path_unfold fuel si si) by (done || congruence).
  assert (Hlt : (si < length keys)%nat) by (by eapply lookup_lt_Some).
  destruct (light_inv_relax_edges A _ graph edge_weights si built_wf HL
              (<[si := zero A]> (replicate (length keys) (inf A)),
               replicate (length keys) (-1)))
    as ([dist pred] & Erelax & Hd & Hp & (d & Hds & Hfin) & Hreach).
  { by apply light_inv_init. }
  cbn [fst snd] in *. rewrite Erelax. simpl. unfold list_get. rewrite Hds. simpl. rewrite Hfin.
  unfold reconstruct_path. rewrite reconstruct_loop_start. simpl.
  rewrite (py_index_nat keys si (starting_point self)) by done. done.
Qed.

(** A route exists: with enough iterations allowed to the [while] loop, the
    result starts at the start and ends at the end. *)
Lemma find_path_reachable :
  OrderLaws A → rectangular m →
  free m (starting_point self) → free m (ending_point self) →
  reachable8 m (starting_point self) (ending_point self) →
  ∃ k p, p ≠ [] ∧ head p = Some (starting_point self)
         ∧ last p = Some (ending_point self)
         ∧ ∀ fuel, (k ≤ fuel)%nat → find_path A fuel self = Ok (p, set_path self p).
Proof.
  intros HO Hrect [si Hsi]%free_index Hfe Hr.
  destruct (reach_grid_graph si _ _ Hrect Hsi Hr) as (ei & Hei & Hrg).
  assert (Hlt : (si < length keys)%nat) by (by eapply lookup_lt_Some).
  destruct (tree_inv_relax_edges A _ graph edge_weights si built_wf HO
              (<[si := zero A]> (replicate (length keys) (inf A)),
               replicate (length keys) (-1)))
    as ([dist pred] & Erelax & Hinv & Hfin); [done|by apply tree_inv_init| |].
  { exists (zero A). split; [|apply zero_finite, HO].
    cbn [fst]. apply list_lookup_insert_eq. by rewrite length_replicate. }
  cbn [fst snd] in *.
  destruct (Hfin ei Hrg) as (dend & Hdend & Hfend).
  pose proof Hinv as (Hd & Hp & _ & _ & Hts). cbn [fst snd] in *.
  destruct (reconstruct_loop_ok pred si ei) as (k & l & Hhd & Hlast & Hall & Hrun).
  { apply Hts. by exists dend. }
  destruct (map_each_keys keys (reverse l)) as (p & Ep & Hp2).
  { intros y Hy. rewrite elem_of_reverse in Hy. apply lookup_lt_is_Some_2.
    destruct (Hall y Hy) as [->|Hy']; [done|].
    apply lookup_lt_is_Some_1 in Hy'. lia. }
  exists k, p.
  assert (Hne : reverse l ≠ []).
  { intros E. apply (f_equal reverse) in E. rewrite reverse_involutive in E.
    by rewrite E in Hhd. }
  split; [|split; [|split]].
  - intros ->. apply Forall2_nil_inv_r in Hp2. done.
  - destruct (Forall2_head _ _ _ si Hp2) as (c & -> & Hc).
    { by rewrite head_reverse. }
    congruence.
  - destruct (Forall2_last_elem _ _ _ ei Hp2) as (c & -> & Hc).
    { by rewrite last_reverse. }
    congruence.
  - intros fuel Hfuel. rewrite (find_path_unfold fuel si ei) by done.
    rewrite Erelax. simpl. unfold list_get. rewrite Hdend. simpl. rewrite Hfend.
    unfold reconstruct_path. rewrite Hrun by done. simpl.
    rewrite <- fmap_reverse.
    destruct (reverse l) as [|y l'] eqn:El; [done|].
    rewrite fmap_cons. simpl. rewrite fmap_cons in Ep. simpl in Ep.
    rewrite Ep. done.
Qed.

End Main.

(** ** binary64 *)

Lemma float_eqb_infinity (x : float) :
  PrimFloat.eqb x infinity = true → x = infinity.
Proof.
  rewrite FloatAxioms.eqb_spec. intros H. apply Prim2SF_inj.
  change (Prim2SF infinity) with (S754_infinity false) in *.
  destruct (Prim2SF x) as [[]|[]| |[] ? ?]; done.
Qed.

Lemma float_below_finite (x y : float) :
  PrimFloat.ltb x y = true → PrimFloat.eqb x infinity = false.
Proof.
  rewrite FloatAxioms.ltb_spec, FloatAxioms.eqb_spec.
  change (Prim2SF infinity) with (S754_infinity false).
  destruct (Prim2SF x) as [[]|[]| |[] ? ?], (Prim2SF y) as [[]|[]| |[] ? ?]; done.
Qed.

Lemma float64_sentinel_laws : SentinelLaws float64.
Proof.
  split.
  - reflexivity.
  - reflexivity.
  - intros x y. apply float_below_finite.
  - intros x w [->| ->] ->%float_eqb_infinity; reflexivity.
Qed.


(** ** Rounding in binary64 *)

Lemma digits2_pos_size (p : positive) : digits2_pos p = Pos.size p.
Proof. induction p as [p IH|p IH|]; simpl; by rewrite ?IH. Qed.

Lemma digits2_pos_log2 (p : positive) : Z.pos (digits2_pos p) = Z.log2 (Z.pos p) + 1.
Proof.
  rewrite digits2_pos_size. destruct p as [p|p|]; simpl; [| |done]; lia.
Qed.

Lemma shr_1_spec (m : Z) (r s : bool) :
  0 ≤ m →
  shr_m (shr_1 {| shr_m := m; shr_r := r; shr_s := s |}) = Z.shiftr m 1
  ∧ shr_r (shr_1 {| shr_m := m; shr_r := r; shr_s := s |}) = Z.testbit m 0.
Proof.
  intros Hm. rewrite <- Z.div2_spec, Z.bit0_odd.
  destruct m as [|[p|p|]|p]; simpl; (done || lia).
Qed.

(** [n] steps of [shr_1] drop the [n] low bits of the mantissa and remember
    the last bit dropped. *)
Lemma iter_pos_shr_1 (p : positive) (x : shr_record) :
  0 ≤ shr_m x →
  shr_m (SpecFloat.iter_pos shr_1 p x) = Z.shiftr (shr_m x) (Z.pos p)
  ∧ shr_r (SpecFloat.iter_pos shr_1 p x) = Z.testbit (shr_m x) (Z.pos p - 1).
Proof.
  revert x. induction p as [p IH|p IH|]; intros x Hx.
  - cbn [SpecFloat.iter_pos]. destruct x as [m r s]. simpl in Hx.
    destruct (shr_1_spec m r s Hx) as [E1 E2].
    assert (H1 : 0 ≤ shr_m (shr_1 {| shr_m := m; shr_r := r; shr_s := s |})).
    { rewrite E1. by apply Z.shiftr_nonneg. }
    destruct (IH _ H1) as [F1 F2].
    assert (H2 : 0 ≤ shr_m (SpecFloat.iter_pos shr_1 p (shr_1 {| shr_m := m; shr_r := r; shr_s := s |}))).
    { rewrite F1. by apply Z.shiftr_nonneg. }
    destruct (IH _ H2) as [G1 G2].
    rewrite G1, G2, F1, E1. simpl shr_m.
    rewrite !Z.shiftr_shiftr by lia. rewrite !Z.shiftr_spec by lia.
    rewrite Pos2Z.inj_xI. split; f_equal; lia.
  - cbn [SpecFloat.iter_pos]. destruct (IH _ Hx) as [F1 F2].
    assert (H2 : 0 ≤ shr_m (SpecFloat.iter_pos shr_1 p x)).
    { rewrite F1. by apply Z.shiftr_nonneg. }
    destruct (IH _ H2) as [G1 G2].
    rewrite G1, G2, F1.
    rewrite !Z.shiftr_shiftr by lia. rewrite !Z.shiftr_spec by lia.
    rewrite Pos2Z.inj_xO. split; f_equal; lia.
  - cbn [SpecFloat.iter_pos]. destruct x as [m r s]. apply shr_1_spec. done.
Qed.

Lemma round_nearest_even_cases (q : Z) (l : location) :
  round_nearest_even q l = q ∨ round_nearest_even q l = q + 1.
Proof. destruct l as [|[]]; simpl; auto. destruct (Z.even q); auto. Qed.

Lemma round_nearest_even_down (q : Z) (x : shr_record) :
  shr_r x = false → round_nearest_even q (loc_of_shr_record x) = q.
Proof. destruct x as [m [] []]; simpl; done. Qed.

Lemma shl_align_value (mx : positive) (ex ez : Z) :
  ez ≤ ex → Z.pos (fst (shl_align mx ex ez)) = Z.pos mx * 2 ^ (ex - ez).
Proof.
  intros H. unfold shl_align. destruct (ez - ex) as [|d|d] eqn:E; simpl.
  - replace (ex - ez) with 0 by lia. lia.
  - lia.
  - replace (ex - ez) with (Z.pos d) by lia. clear.
    induction d as [|d IH] using Pos.peano_ind.
    + simpl. lia.
    + rewrite Pos.iter_succ, Pos2Z.inj_xO, IH, Pos2Z.inj_succ, Z.pow_succ_r by lia. lia.
Qed.

Lemma shl_align_same (m : positive) (e e' : Z) : e ≤ e' → shl_align m e e' = (m, e).
Proof. intros H. unfold shl_align. destruct (e' - e) eqn:E; (done || lia). Qed.

Lemma log2_between (z k : Z) : 0 ≤ k → 2 ^ k ≤ z < 2 ^ (k + 1) → Z.log2 z = k.
Proof. intros Hk Hz. apply Z.log2_unique; [done|]. by rewrite <- Z.add_1_r. Qed.

Lemma log2_bounds (z : Z) : 0 < z → 2 ^ Z.log2 z ≤ z < 2 ^ (Z.log2 z + 1).
Proof. intros Hz. rewrite Z.add_1_r. by apply Z.log2_spec. Qed.

(** The first shift of [binary_round_aux] on a mantissa of [d >= 53] bits. *)
Lemma shr_fexp_big (m : positive) (e : Z) :
  53 ≤ Z.log2 (Z.pos m) + 1 → -1074 ≤ Z.log2 (Z.pos m) + 1 + e - 53 →
  ∃ x, shr_fexp prec emax (Z.pos m) e loc_Exact = (x, e + (Z.log2 (Z.pos m) + 1 - 53))
       ∧ shr_m x = Z.shiftr (Z.pos m) (Z.log2 (Z.pos m) + 1 - 53)
       ∧ (54 ≤ Z.log2 (Z.pos m) + 1 →
          shr_r x = Z.testbit (Z.pos m) (Z.log2 (Z.pos m) + 1 - 54)).
Proof.
  intros Hd He. unfold shr_fexp, fexp, Zdigits2. rewrite digits2_pos_log2.
  change (SpecFloat.emin prec emax) with (-1074). change prec with 53.
  set (d := Z.log2 (Z.pos m) + 1) in *.
  rewrite Z.max_l by lia.
  replace (d + e - 53 - e) with (d - 53) by lia.
  unfold shr. destruct (d - 53) as [|p|p] eqn:E; [| |lia].
  - eexists. split; [by rewrite Z.add_0_r|]. split; [done|]. lia.
  - destruct (iter_pos_shr_1 p (shr_record_of_loc (Z.pos m) loc_Exact)) as [E1 E2];
      [done|].
    eexists. split; [done|]. split; [done|]. intros _. rewrite E2. simpl. f_equal. lia.
Qed.

Lemma binary_round_aux_pos (m : positive) (e : Z) :
  53 ≤ Z.log2 (Z.pos m) + 1 → -1074 ≤ Z.log2 (Z.pos m) + 1 + e - 53 →
  ∃ m1,
    (m1 = Z.shiftr (Z.pos m) (Z.log2 (Z.pos m) + 1 - 53)
     ∨ m1 = Z.shiftr (Z.pos m) (Z.log2 (Z.pos m) + 1 - 53) + 1)
    ∧ (54 ≤ Z.log2 (Z.pos m) + 1 →
       Z.testbit (Z.pos m) (Z.log2 (Z.pos m) + 1 - 54) = false →
       m1 = Z.shiftr (Z.pos m) (Z.log2 (Z.pos m) + 1 - 53))
    ∧ 2 ^ 52 ≤ m1 ≤ 2 ^ 53
    ∧ binary_round_aux prec emax false (Z.pos m) e loc_Exact
      = rounded m1 (e + (Z.log2 (Z.pos m) + 1 - 53)).
Proof.
  intros Hd He. destruct (shr_fexp_big m e Hd He) as (x & Ex & Hm & Hr).
  unfold binary_round_aux. rewrite Ex.
  set (d := Z.log2 (Z.pos m) + 1) in *. set (e' := e + (d - 53)).
  set (q := Z.shiftr (Z.pos m) (d - 53)) in *.
  assert (Hq : Z.log2 q = 52).
  { unfold q. rewrite Z.log2_shiftr by done. unfold d. lia. }
  assert (Hqpos : 0 < q).
  { destruct (Z.lt_ge_cases 0 q) as [|Hle]; [done|].
    rewrite Z.log2_nonpos in Hq by done. done. }
  pose proof (log2_bounds q Hqpos) as Hqb. rewrite Hq in Hqb.
  set (m1 := round_nearest_even (shr_m x) (loc_of_shr_record x)).
  assert (Hm1 : m1 = q ∨ m1 = q + 1).
  { unfold m1. rewrite Hm. apply round_nearest_even_cases. }
  assert (Hm1b : 2 ^ 52 ≤ m1 ≤ 2 ^ 53) by (simpl in Hqb |- *; lia).
  exists m1. split; [done|]. split.
  { intros Hd' Hbit. unfold m1. rewrite Hm. apply round_nearest_even_down.
    rewrite Hr by done. done. }
  split; [done|].
  destruct m1 as [|p1|p1] eqn:Ep1; [simpl in Hm1b; lia| |lia].
  unfold rounded. destruct (Z.ltb_spec (Z.pos p1) (2 ^ 53)) as [Hlt|Hge].
  - assert (Hl : Z.log2 (Z.pos p1) = 52) by (apply log2_between; simpl in *; lia).
    destruct (shr_fexp_big p1 e') as (x2 & Ex2 & Hm2 & _); [lia|unfold e'; lia|].
    rewrite Ex2, Hm2, Hl. simpl Z.shiftr.
    replace (e' + (52 + 1 - 53)) with e' by lia. done.
  - assert (E53 : Z.pos p1 = 2 ^ 53) by lia.
    assert (Hl : Z.log2 (Z.pos p1) = 53) by (rewrite E53; done).
    destruct (shr_fexp_big p1 e') as (x2 & Ex2 & Hm2 & _); [lia|unfold e'; lia|].
    rewrite Ex2, Hm2, Hl, E53.
    replace (e' + (53 + 1 - 53)) with (e' + 1) by lia. done.
Qed.

Lemma bounded_facts (mx : positive) (ex : Z) :
  SpecFloat.bounded prec emax mx ex = true →
  -1074 ≤ ex ≤ 971 ∧ Z.log2 (Z.pos mx) + 1 ≤ 53
  ∧ (-1074 < ex → Z.log2 (Z.pos mx) + 1 = 53).
Proof.
  unfold SpecFloat.bounded, canonical_mantissa, fexp.
  rewrite digits2_pos_log2.
  change (SpecFloat.emin prec emax) with (-1074). change prec with 53.
  change emax with 1024.
  intros [H1%Z.eqb_eq H2%Z.leb_le]%andb_true_iff. lia.
Qed.

Lemma pow2_pos (k : Z) : 0 ≤ k → 0 < 2 ^ k.
Proof. intros. by apply Z.pow_pos_nonneg. Qed.

Lemma pow2_le (j k : Z) : 0 ≤ j ≤ k → 2 ^ j ≤ 2 ^ k.
Proof. intros. apply Z.pow_le_mono_r; lia. Qed.

(** The sum of a binary64 number [mx * 2^ex > 0] and of a weight
    [mw * 2^-52], with [1 <= mw * 2^-52 < 2], is a finite number, and it is
    not below the first. *)
Lemma SF64add_weight (mx mw : positive) (ex : Z) :
  SpecFloat.bounded prec emax mx ex = true → 2 ^ 52 ≤ Z.pos mw < 2 ^ 53 →
  ∃ mr er,
    SF64add (S754_finite false mx ex) (S754_finite false mw (-52))
    = S754_finite false mr er
    ∧ (ex < er ∨ (er = ex ∧ (mx ≤ mr)%positive)).
Proof.
  intros (Hex & Hdx & Hnorm)%bounded_facts Hmw.
  unfold SF64add, SFadd, cond_Zopp.
  set (ez := Z.min ex (-52)).
  pose proof (shl_align_value mx ex ez ltac:(lia)) as Vx.
  pose proof (shl_align_value mw (-52) ez ltac:(lia)) as Vw.
  set (px := fst (shl_align mx ex ez)) in *.
  set (pw := fst (shl_align mw (-52) ez)) in *.
  change (Z.pos px + Z.pos pw) with (Z.pos (px + pw)).
  unfold binary_normalize, binary_round.
  assert (Vs : Z.pos (px + pw) = Z.pos mx * 2 ^ (ex - ez) + Z.pos mw * 2 ^ (-52 - ez)).
  { rewrite Pos2Z.inj_add. lia. }
  set (sum := (px + pw)%positive) in *.
  pose proof (log2_bounds (Z.pos mx) ltac:(lia)) as Bx.
  pose proof (log2_bounds (Z.pos sum) ltac:(lia)) as Bs.
  assert (Hxlt : Z.pos mx < 2 ^ 53).
  { eapply Z.lt_le_trans; [apply Bx|]. apply pow2_le. pose proof (Z.log2_nonneg (Z.pos mx)). lia. }
  (* the two alignments *)
  destruct (Z.le_gt_cases (-52) ex) as [Hcase|Hcase].
  - (* ex >= -52: the weight is the one aligned *)
    assert (Eez : ez = -52) by (unfold ez; lia).
    set (a := ex + 52).
    assert (Ha : 0 ≤ a) by (unfold a; lia).
    replace (ex - ez) with a in Vs by (unfold a; lia).
    replace (-52 - ez) with 0 in Vs by lia.
    rewrite Z.pow_0_r, Z.mul_1_r in Vs.
    pose proof (pow2_pos a Ha) as HP. set (P := 2 ^ a) in *.
    assert (Hx52 : 2 ^ 52 ≤ Z.pos mx).
    { assert (El : Z.log2 (Z.pos mx) = 52) by lia. rewrite El in Bx. lia. }
    assert (Hlo : 2 ^ (52 + a) ≤ Z.pos sum).
    { rewrite Z.pow_add_r by lia. fold P. nia. }
    assert (Hhi : Z.pos sum < 2 ^ (54 + a)).
    { rewrite Z.pow_add_r by lia. fold P. nia. }
    assert (Hl : 52 + a ≤ Z.log2 (Z.pos sum) < 54 + a).
    { split.
      - apply Z.log2_le_pow2; [lia|done].
      - apply Z.log2_lt_pow2; [lia|done]. }
    destruct (binary_round_aux_pos sum ez) as (m1 & Hm1 & Hdown & Hm1b & Eround);
      [lia|lia|].
    rewrite shl_align_same.
    2:{ unfold fexp. rewrite digits2_pos_log2. change prec with 53. lia. }
    rewrite Eround. clear Eround.
    set (d := Z.log2 (Z.pos sum) + 1) in *.
    destruct (Z.lt_ge_cases (Z.pos sum) (2 ^ 53 * P)) as [Hsmall|Hbig].
    + (* the sum has as many bits as [mx * 2^a] *)
      assert (Ed : d = 53 + a).
      { unfold d. rewrite (log2_between (Z.pos sum) (52 + a)); [lia|lia|].
        replace (52 + a + 1) with (53 + a) by lia.
        rewrite (Z.pow_add_r 2 53 a) by lia. fold P. lia. }
      assert (Eq : Z.shiftr (Z.pos sum) (d - 53) = Z.pos mx + Z.pos mw / P).
      { rewrite Z.shiftr_div_pow2 by lia. replace (d - 53) with a by lia. fold P.
        rewrite Vs, Z.div_add_l by lia. done. }
      rewrite Eq in Hm1, Hdown.
      pose proof (Z.div_pos (Z.pos mw) P ltac:(lia) HP) as Hdiv.
      replace (ez + (d - 53)) with ex by (unfold a in Ed; lia).
      unfold rounded. destruct (Z.ltb_spec m1 (2 ^ 53)) as [Hlt|Hge].
      * rewrite (proj2 (Z.leb_le ex 971)) by lia.
        eexists _, _. split; [done|]. right. split; [done|].
        assert (Z.pos mx ≤ Z.pos (Z.to_pos m1)) by (rewrite Z2Pos.id; lia). lia.
      * destruct (Z.leb_spec (ex + 1) 971) as [Hok|Hover].
        -- eexists _, _. split; [done|]. left. lia.
        -- exfalso. (* at the top of the range the weight is rounded away *)
           assert (Ha54 : 54 ≤ a) by (unfold a; lia).
           assert (HwP : Z.pos mw < 2 ^ (a - 1)).
           { eapply Z.lt_le_trans; [apply Hmw|]. apply pow2_le. lia. }
           assert (Hbit : Z.testbit (Z.pos sum) (d - 54) = false).
           { rewrite Z.testbit_odd, Z.shiftr_div_pow2 by lia.
             replace (d - 54) with (a - 1) by lia.
             assert (EP : P = 2 * 2 ^ (a - 1)).
             { unfold P. rewrite <- Z.pow_succ_r by lia. f_equal. lia. }
             rewrite Vs, EP.
             replace (Z.pos mx * (2 * 2 ^ (a - 1)) + Z.pos mw)
               with (2 * Z.pos mx * 2 ^ (a - 1) + Z.pos mw) by lia.
             rewrite Z.div_add_l by (pose proof (pow2_pos (a - 1)); lia).
             rewrite (Z.div_small (Z.pos mw)) by lia.
             rewrite Z.add_0_r, Z.odd_mul. done. }
           rewrite (Hdown ltac:(lia) Hbit) in Hge.
           rewrite (Z.div_small (Z.pos mw)) in Hge.
           ++ lia.
           ++ split; [lia|]. eapply Z.lt_le_trans; [apply Hmw|].
              unfold P. apply pow2_le. lia.
    + (* the sum has one bit more: this needs a weight of the size of [2^a] *)
      assert (Ed : d = 54 + a).
      { unfold d. rewrite (log2_between (Z.pos sum) (53 + a)); [lia|lia|].
        replace (53 + a + 1) with (54 + a) by lia.
        rewrite (Z.pow_add_r 2 53 a) by lia. fold P. lia. }
      assert (Ha53 : a < 53).
      { destruct (Z.lt_ge_cases a 53) as [|Hge]; [done|]. exfalso.
        assert (2 ^ 53 ≤ P) by (unfold P; apply pow2_le; lia). nia. }
      replace (ez + (d - 53)) with (ex + 1) by (unfold a in Ed; lia).
      unfold rounded. destruct (Z.ltb_spec m1 (2 ^ 53)) as [Hlt|Hge].
      * rewrite (proj2 (Z.leb_le (ex + 1) 971)) by (unfold a in Ha53; lia).
        eexists _, _. split; [done|]. left. lia.
      * rewrite (proj2 (Z.leb_le (ex + 1 + 1) 971)) by (unfold a in Ha53; lia).
        eexists _, _. split; [done|]. left. lia.
  - (* ex < -52: the first number is the one aligned *)
    assert (Eez : ez = ex) by (unfold ez; lia).
    set (b := -52 - ex).
    assert (Hb : 0 < b) by (unfold b; lia).
    replace (ex - ez) with 0 in Vs by lia.
    replace (-52 - ez) with b in Vs by (unfold b; lia).
    rewrite Z.pow_0_r, Z.mul_1_r in Vs.
    pose proof (pow2_pos b ltac:(lia)) as HP. set (P := 2 ^ b) in *.
    assert (Hlo : 2 ^ (52 + b) ≤ Z.pos sum).
    { rewrite Z.pow_add_r by lia. fold P. nia. }
    assert (Hhi : Z.pos sum < 2 ^ (54 + b)).
    { rewrite Z.pow_add_r by lia. fold P.
      assert (1 ≤ P) by lia. nia. }
    assert (Hl : 52 + b ≤ Z.log2 (Z.pos sum) < 54 + b).
    { split.
      - apply Z.log2_le_pow2; [lia|done].
      - apply Z.log2_lt_pow2; [lia|done]. }
    destruct (binary_round_aux_pos sum ez) as (m1 & Hm1 & Hdown & Hm1b & Eround);
      [lia|unfold b in Hl; lia|].
    rewrite shl_align_same.
    2:{ unfold fexp. rewrite digits2_pos_log2. change prec with 53.
        unfold b in Hl. lia. }
    rewrite Eround. clear Eround.
    unfold rounded.
    destruct (Z.ltb_spec m1 (2 ^ 53)) as [Hlt|Hge].
    + rewrite (proj2 (Z.leb_le _ 971)) by (unfold b in Hl; lia).
      eexists _, _. split; [done|]. left. unfold b in Hl. lia.
    + rewrite (proj2 (Z.leb_le _ 971)) by (unfold b in Hl; lia).
      eexists _, _. split; [done|]. left. unfold b in Hl. lia.
Qed.

(** ** The order of binary64 *)

Lemma SFltb_asym (x y : spec_float) : SFltb x y = true → SFltb y x = false.
Proof.
  unfold SFltb.
  destruct x as [[]|[]| |[] mx ex], y as [[]|[]| |[] my ey]; simpl; try done; sf_compare.
Qed.

(** On numbers that are not NaN, [<=] is transitive. *)
Lemma SFltb_negtrans (x y z : spec_float) :
  x ≠ S754_nan → y ≠ S754_nan → z ≠ S754_nan →
  SFltb y x = false → SFltb z y = false → SFltb z x = false.
Proof.
  unfold SFltb. intros Hx Hy Hz.
  destruct x as [[]|[]| |[] mx ex]; try done;
  destruct y as [[]|[]| |[] my ey]; try done;
  destruct z as [[]|[]| |[] mz ez]; try done; simpl; try done; sf_compare.
Qed.

Lemma SFeqb_refl_inv (x : spec_float) : SFeqb x x = true → x ≠ S754_nan.
Proof. by intros H ->. Qed.

Lemma SFeqb_finite_refl (s : bool) (m : positive) (e : Z) :
  SFeqb (S754_finite s m e) (S754_finite s m e) = true.
Proof.
  unfold SFeqb. simpl. rewrite Z.compare_refl.
  change (PosDef.Pos.compare_cont Eq m m) with (Pos.compare m m).
  rewrite Pos.compare_refl. by destruct s.
Qed.

Lemma float_is_num (x : float) : PrimFloat.eqb x x = true → Prim2SF x ≠ S754_nan.
Proof. rewrite FloatAxioms.eqb_spec. apply SFeqb_refl_inv. Qed.

Lemma float_ltb_asym (x y : float) :
  PrimFloat.ltb x y = true → PrimFloat.ltb y x = false.
Proof. rewrite !FloatAxioms.ltb_spec. apply SFltb_asym. Qed.

Lemma float_ltb_negtrans (x y z : float) :
  PrimFloat.eqb x x = true → PrimFloat.eqb y y = true → PrimFloat.eqb z z = true →
  PrimFloat.ltb y x = false → PrimFloat.ltb z y = false → PrimFloat.ltb z x = false.
Proof.
  intros Hx%float_is_num Hy%float_is_num Hz%float_is_num.
  rewrite !FloatAxioms.ltb_spec. by apply SFltb_negtrans.
Qed.

(** A number that is not above a finite one is not [+infinity]. *)
Lemma float_le_finite (x y : float) :
  PrimFloat.eqb x x = true → PrimFloat.eqb y y = true →
  PrimFloat.ltb y x = false → PrimFloat.eqb y infinity = false →
  PrimFloat.eqb x infinity = false.
Proof.
  intros Hx%float_is_num Hy%float_is_num.
  rewrite FloatAxioms.ltb_spec, !FloatAxioms.eqb_spec.
  change (Prim2SF infinity) with (S754_infinity false).
  destruct (Prim2SF x) as [[]|[]| |[] mx ex]; try done;
  destruct (Prim2SF y) as [[]|[]| |[] my ey]; try done.
Qed.

(** Adding [1.0] or [sqrt(2.0)] to a number that is neither a NaN nor below
    zero gives a number, not below the first, and finite if the first is. *)
Lemma float_add_weight (x w : float) :
  w = 1%float ∨ w = PrimFloat.sqrt 2 →
  PrimFloat.eqb x x = true → PrimFloat.ltb x 0 = false →
  PrimFloat.eqb (x + w) (x + w) = true
  ∧ PrimFloat.ltb (x + w) x = false
  ∧ (PrimFloat.eqb x infinity = false → PrimFloat.eqb (x + w) infinity = false).
Proof.
  intros Hw. rewrite FloatAxioms.ltb_spec, !FloatAxioms.eqb_spec, FloatAxioms.ltb_spec.
  rewrite add_spec.
  change (Prim2SF infinity) with (S754_infinity false).
  change (Prim2SF 0) with (S754_zero false).
  assert (∃ mw, Prim2SF w = S754_finite false mw (-52) ∧ 2 ^ 52 ≤ Z.pos mw < 2 ^ 53)
    as (mw & -> & Hmw).
  { destruct Hw as [-> | ->]; eexists; (split; [reflexivity|]); lia. }
  pose proof (Prim2SF_valid x) as Hvalid.
  destruct (Prim2SF x) as [s|[]| |[] mx ex]; try done.
  - (* a zero *)
    intros _ _. unfold SF64add. cbn [SFadd].
    split; [apply SFeqb_finite_refl|]. split; [by destruct s|done].
  - (* a positive number *)
    intros _ _. destruct (SF64add_weight mx mw ex Hvalid Hmw) as (mr & er & -> & Hord).
    split; [apply SFeqb_finite_refl|]. split; [|done].
    unfold SFltb. simpl. destruct Hord as [Hlt|[-> Hle]].
    + by rewrite (proj2 (Z.compare_gt_iff er ex)) by lia.
    + rewrite Z.compare_refl.
      change (PosDef.Pos.compare_cont Eq mr mx) with (Pos.compare mr mx).
      destruct (Pos.compare_spec mr mx); (done || lia).
Qed.

Lemma float64_order_laws : OrderLaws float64.
Proof.
  split.
  - apply float64_sentinel_laws.
  - reflexivity.
  - intros x w Hw [Hx Hx0]. by apply (float_add_weight x w).
  - intros x y. apply float_ltb_asym.
  - intros x y z Hx Hy Hz H1 H2. by apply (float_ltb_negtrans x y z).
  - intros x w Hw [Hx Hx0]. by apply (float_add_weight x w).
  - intros x w Hw [Hx Hx0]. by apply (float_add_weight x w).
  - intros x y Hx Hy. by apply (float_le_finite x y).
Qed.

Lemma reconstruct_loop_mono (fuel fuel' : nat) (pred : list Z) (s x : Z)
    (acc : list Z) (r : outcome (list Z)) :
  reconstruct_loop fuel pred s x acc = r → r ≠ OutOfFuel → (fuel ≤ fuel')%nat →
  reconstruct_loop fuel' pred s x acc = r.
Proof.
  revert fuel' x acc. induction fuel as [|fuel IH]; intros fuel' x acc Hr Hne Hle.
  - simpl in Hr. destruct fuel'; simpl; case_decide; congruence.
  - destruct fuel' as [|fuel']; [lia|]. simpl in *. case_decide; [|done].
    destruct (py_index pred x) as [y| |]; simpl in *; [|done..].
    destruct (y =? -1); [done|]. apply IH; [done..|lia].
Qed.

(** A result that is there with some bound on the loop is there with any
    larger bound. *)
Lemma find_path_mono (A : Arith) (fuel fuel' : nat) (self : RoadFinder)
    (r : outcome (list (Z * Z) * RoadFinder)) :
  find_path A fuel self = r → r ≠ OutOfFuel → (fuel ≤ fuel')%nat →
  find_path A fuel' self = r.
Proof.
  unfold find_path. destruct (create_graph A self) as [[[graph keys] ew]| |]; [|done..].
  simpl. unfold bellman_ford.
  destruct (_ || _); [done|].
  destruct (py_list_index keys (starting_point self)) as [si| |]; [|done..]. simpl.
  destruct (py_list_index keys (ending_point self)) as [ei| |]; [|done..]. simpl.
  destruct (list_set _ si _) as [d0| |]; [|done..]. simpl.
  destruct (relax_edges _ _ _ _ _) as [[dist pred]| |]; [|done..]. simpl.
  destruct (list_get dist ei) as [dend| |]; [|done..]. simpl.
  destruct (eqb A dend (inf A)); [done|].
  intros Hr Hne Hle.
  destruct (reconstruct_path fuel pred (Z.of_nat si) (Z.of_nat ei)) as [l| e|] eqn:E.
  - unfold reconstruct_path in *.
    by rewrite (reconstruct_loop_mono fuel fuel' _ _ _ _ _ E).
  - unfold reconstruct_path in *.
    by rewrite (reconstruct_loop_mono fuel fuel' _ _ _ _ _ E).
  - simpl in Hr. congruence.
Qed.

Lemma create_graph_inv (A : Arith) (self : RoadFinder) (graph : gmap nat (list nat))
    (keys : list (Z * Z)) (ew : gmap (nat * nat) (num A)) :
  create_graph A self = Ok (graph, keys, ew) →
  keys = keys_of (lidar_map self)
  ∧ graph = (built A (lidar_map self)).1 ∧ ew = (built A (lidar_map self)).2.
Proof.
  intros H. destruct (decide (keys_of (lidar_map self) = [])) as [E|E].
  - unfold create_graph in H. by rewrite decide_True in H.
  - destruct (create_graph_ok A (lidar_map self) self eq_refl E) as [E' _].
    rewrite E' in H. by injection H as <- <- <-.
Qed.

Lemma free_in_bounds (m : list (list Z)) (c : Z * Z) :
  rectangular m → free m c → in_bounds m c.
Proof.
  intros Hrect Hfree. pose proof (rectangular_column m c Hrect Hfree).
  apply free_inv in Hfree as (row & Hx & Hy & Hrow & Hval).
  apply lookup_lt_Some in Hrow. unfold in_bounds, len in *. lia.
Qed.

Lemma map_each_cons {B C : Type} (f : B → outcome C) (x : B) (l : list B) (p : list C) :
  map_each f (x :: l) = Ok p → p ≠ [].
Proof.
  simpl. destruct (f x); simpl; [|done..]. destruct (map_each f l); simpl; [|done..].
  by intros [= <-].
Qed.

(** [find_path] returns the empty list only where it leaves [self] alone, and
    any other list only after storing it. *)
Lemma find_path_result (A : Arith) (fuel : nat) (self self' : RoadFinder)
    (p : list (Z * Z)) :
  find_path A fuel self = Ok (p, self') →
  (p = [] ∧ self' = self) ∨ (p ≠ [] ∧ self' = set_path self p).
Proof.
  unfold find_path. destruct (create_graph A self) as [[[graph keys] ew]| |]; [|done..].
  simpl. unfold bellman_ford.
  destruct (_ || _); [done|].
  destruct (py_list_index keys (starting_point self)) as [si| |]; [|done..]. simpl.
  destruct (py_list_index keys (ending_point self)) as [ei| |]; [|done..]. simpl.
  destruct (list_set _ si _) as [d0| |]; [|done..]. simpl.
  destruct (relax_edges _ _ _ _ _) as [[dist pred]| |]; [|done..]. simpl.
  destruct (list_get dist ei) as [dend| |]; [|done..]. simpl.
  destruct (eqb A dend (inf A)); [intros [= <- <-]; by left|].
  destruct (reconstruct_path _ _ _ _) as [[|i l]| |]; cbn -[map_each].
  - intros [= <- <-]. by left.
  - destruct (map_each (py_index keys) (i :: l)) as [q| |] eqn:E; simpl.
    + intros [= <- <-]. right. split; [|done]. by eapply map_each_cons.
    + intros [=].
    + intros [=].
  - intros [=].
  - intros [=].
Qed.

Lemma float_sqrt2_bits :
  Prim2SF (PrimFloat.sqrt 2) = S754_finite false 6369051672525773 (-52).
Proof. reflexivity. Qed.

Lemma float_sqrt2_value :
  float_value (PrimFloat.sqrt 2) = (6369051672525773 / 4503599627370496)%R.
Proof.
  unfold float_value. rewrite float_sqrt2_bits.
  change (powerRZ 2 (-52)) with (/ 2 ^ 52)%R.
  replace (2 ^ 52)%R with 4503599627370496%R by (simpl; lra).
  lra.
Qed.

(** [math.sqrt(2)] is within [1e-9] of the square root of two. *)
Lemma float_sqrt2_close : (Rabs (float_value (PrimFloat.sqrt 2) - sqrt 2) <= 1 / 10 ^ 9)%R.
Proof.
  rewrite float_sqrt2_value.
  set (q := (6369051672525773 / 4503599627370496)%R).
  set (eps := (1 / 10 ^ 9)%R).
  assert (Heps : eps = (1 / 1000000000)%R) by (unfold eps; simpl; lra).
  assert (Hlo : (sqrt ((q - eps) * (q - eps)) <= sqrt 2)%R).
  { apply sqrt_le_1_alt. rewrite Heps. unfold q. lra. }
  assert (Hhi : (sqrt 2 <= sqrt ((q + eps) * (q + eps)))%R).
  { apply sqrt_le_1_alt. rewrite Heps. unfold q. lra. }
  rewrite sqrt_square in Hlo by (rewrite Heps; unfold q; lra).
  rewrite sqrt_square in Hhi by (rewrite Heps; unfold q; lra).
  apply Rabs_le. lra.
Qed.

(** ** The claims about the planner *)

(** C1: the three scenarios of the specification, which are the three cases
    of [test_road_finder]: with binary64 numbers and at least four iterations
    allowed to the loop of [__reconstruct_path], [find_path] returns the
    listed path (and stores it in [self.path]). *)
Theorem find_path_scenarios (fuel : nat) :
  (4 ≤ fuel)%nat →
  (∃ rf, run_case float64 fuel map_simple (0, 0) (2, 3)
           = Ok ([(0, 0); (0, 1); (0, 2); (1, 3); (2, 3)], rf)
         ∧ path rf = [(0, 0); (0, 1); (0, 2); (1, 3); (2, 3)])
  ∧ (∃ rf, run_case float64 fuel map_blocked (0, 0) (2, 2)
             = Ok ([(0, 0); (1, 0); (2, 1); (2, 2)], rf)
           ∧ path rf = [(0, 0); (1, 0); (2, 1); (2, 2)])
  ∧ (∃ rf, run_case float64 fuel map_diagonal (0, 0) (2, 2)
             = Ok ([(0, 0); (1, 1); (2, 2)], rf)
           ∧ path rf = [(0, 0); (1, 1); (2, 2)]).
Proof.
  intros Hfuel. unfold run_case, init, init_with. simpl.
  split; [|split]; eexists; (split; [eapply (find_path_mono float64 4); [|done|done]|]);
    [vm_compute; reflexivity|reflexivity..].
Qed.

Lemma find_path_scenarios_witness :
  (∃ rf, run_case float64 4 map_simple (0, 0) (2, 3)
           = Ok ([(0, 0); (0, 1); (0, 2); (1, 3); (2, 3)], rf)
         ∧ path rf = [(0, 0); (0, 1); (0, 2); (1, 3); (2, 3)])
  ∧ (∃ rf, run_case float64 4 map_blocked (0, 0) (2, 2)
             = Ok ([(0, 0); (1, 0); (2, 1); (2, 2)], rf)
           ∧ path rf = [(0, 0); (1, 0); (2, 1); (2, 2)])
  ∧ (∃ rf, run_case float64 4 map_diagonal (0, 0) (2, 2)
             = Ok ([(0, 0); (1, 1); (2, 2)], rf)
           ∧ path rf = [(0, 0); (1, 1); (2, 2)]).
Proof. apply (find_path_scenarios 4). lia. Defined.

(** C2: in a rectangular grid, when the end can be reached from the start by
    moves of 8-connectivity over free cells, [find_path] returns (once the
    loop of [__reconstruct_path] is allowed enough iterations) a non-empty
    path whose first cell is the start and whose last cell is the end, and
    stores it in [self.path]. *)
Theorem find_path_reaches_end (self : RoadFinder) :
  rectangular (lidar_map self) →
  free (lidar_map self) (starting_point self) →
  free (lidar_map self) (ending_point self) →
  reachable8 (lidar_map self) (starting_point self) (ending_point self) →
  ∃ k p, p ≠ [] ∧ head p = Some (starting_point self)
         ∧ last p = Some (ending_point self)
         ∧ ∀ fuel, (k ≤ fuel)%nat →
             find_path float64 fuel self = Ok (p, set_path self p).
Proof.
  intros. apply (find_path_reachable float64 (lidar_map self) self); auto.
  apply float64_order_laws.
Qed.

Lemma step8_intro (m : list (list Z)) (c d : Z * Z) :
  d ∈ neighbors → free m (offset c d) → step8 m c (offset c d).
Proof. intros Hd Hf. split; [done|]. eauto. Qed.

Lemma find_path_reaches_end_witness :
  ∃ k p, p ≠ [] ∧ head p = Some (0, 0) ∧ last p = Some (2, 3)
         ∧ ∀ fuel, (k ≤ fuel)%nat →
             find_path float64 fuel (road_finder map_simple (0, 0) (2, 3))
             = Ok (p, set_path (road_finder map_simple (0, 0) (2, 3)) p).
Proof.
  apply (find_path_reaches_end (road_finder map_simple (0, 0) (2, 3))).
  - apply (bool_decide_unpack _). vm_compute. exact I.
  - reflexivity.
  - reflexivity.
  - apply (rtc_l _ _ (offset (0, 0) (0, 1))); [by apply step8_intro; [apply (bool_decide_unpack _)|]|].
    apply (rtc_l _ _ (offset (0, 1) (0, 1))); [by apply step8_intro; [apply (bool_decide_unpack _)|]|].
    apply (rtc_l _ _ (offset (0, 2) (1, 1))); [by apply step8_intro; [apply (bool_decide_unpack _)|]|].
    apply (rtc_l _ _ (offset (1, 3) (1, 0))); [by apply step8_intro; [apply (bool_decide_unpack _)|]|].
    apply rtc_refl.
Defined.

(** C3: when the end cannot be reached from the start over free cells,
    [find_path] raises nothing and returns the empty list, whatever the number
    of iterations allowed; [self] is as it was. *)
Theorem find_path_no_route (fuel : nat) (self : RoadFinder) :
  free (lidar_map self) (starting_point self) →
  free (lidar_map self) (ending_point self) →
  ¬ reachable8 (lidar_map self) (starting_point self) (ending_point self) →
  find_path float64 fuel self = Ok ([], self).
Proof.
  intros. apply (find_path_unreachable float64 (lidar_map self) self); auto.
  apply float64_sentinel_laws.
Qed.

Lemma find_path_no_route_witness :
  find_path float64 0 (road_finder map_walled (0, 0) (2, 2))
  = Ok ([], road_finder map_walled (0, 0) (2, 2)).
Proof.
  apply (find_path_no_route 0 (road_finder map_walled (0, 0) (2, 2))).
  - reflexivity.
  - reflexivity.
  - intros H. apply rtc_inv in H as [E|(c & [Hfree (d & Hd & ->)] & _)]; [done|].
    repeat (apply elem_of_cons in Hd as [->|Hd]; [by vm_compute in Hfree|]).
    by apply elem_of_nil in Hd.
Defined.

(** C7: when the end is the start, [find_path] returns the list of that one
    cell, whatever the number of iterations allowed. *)
Theorem find_path_same_cell (fuel : nat) (self : RoadFinder) :
  free (lidar_map self) (starting_point self) →
  ending_point self = starting_point self →
  find_path float64 fuel self
  = Ok ([starting_point self], set_path self [starting_point self]).
Proof.
  intros. apply (find_path_trivial float64 (lidar_map self) self); auto.
  apply float64_sentinel_laws.
Qed.

Lemma find_path_same_cell_witness :
  find_path float64 0 (road_finder map_simple (2, 3) (2, 3))
  = Ok ([(2, 3)], set_path (road_finder map_simple (2, 3) (2, 3)) [(2, 3)]).
Proof.
  apply (find_path_same_cell 0 (road_finder map_simple (2, 3) (2, 3))); reflexivity.
Defined.

(** C8: a grid with no free cell makes [__create_graph], and so [find_path],
    raise the [ValueError] that the specification calls [InvalidMapError]. *)
Theorem create_graph_no_free_cell (A : Arith) (self : RoadFinder) :
  (∀ c, ¬ free (lidar_map self) c) →
  create_graph A self = Raise (ValueError msg_no_valid_path)
  ∧ ∀ fuel, find_path A fuel self = Raise (ValueError msg_no_valid_path).
Proof.
  intros Hno.
  assert (E : keys_of (lidar_map self) = []).
  { destruct (keys_of (lidar_map self)) as [|c l] eqn:E; [done|].
    exfalso. apply (Hno c), keys_of_free. rewrite E. left. }
  assert (Hc : create_graph A self = Raise (ValueError msg_no_valid_path)).
  { unfold create_graph. by rewrite decide_True. }
  split; [done|]. intros fuel. unfold find_path. by rewrite Hc.
Qed.

Lemma create_graph_no_free_cell_witness :
  create_graph float64 (road_finder map_full (0, 0) (1, 1))
    = Raise (ValueError msg_no_valid_path)
  ∧ ∀ fuel, find_path float64 fuel (road_finder map_full (0, 0) (1, 1))
            = Raise (ValueError msg_no_valid_path).
Proof.
  apply (create_graph_no_free_cell float64 (road_finder map_full (0, 0) (1, 1))).
  intros c H%keys_of_free. vm_compute in H. by apply elem_of_nil in H.
Defined.

(** C4, as the code has it: [__init__] checks only that the object has a
    [map] attribute and stores the two points as they are; a point that is
    not a free cell of the grid (out of bounds, or on a blocked cell) is
    reported by [find_path], with the [ValueError] of [__bellman_ford], when
    the grid has a free cell at all. *)
Theorem endpoints_checked_by_find_path (A : Arith) (map_data : list (list Z))
    (start end_ : Z * Z) :
  init (mkLidarMap map_data) start end_ = Ok (road_finder map_data start end_)
  ∧ ((∃ c, free map_data c) →
     ¬ free map_data start ∨ ¬ free map_data end_ →
     ∀ fuel, find_path A fuel (road_finder map_data start end_)
             = Raise (ValueError msg_not_in_map)).
Proof.
  split; [done|]. intros [c Hc%keys_of_free] Hbad fuel.
  unfold find_path.
  destruct (create_graph_ok A map_data (road_finder map_data start end_) eq_refl) as [-> _].
  { intros E. rewrite E in Hc. by apply elem_of_nil in Hc. }
  simpl. unfold bellman_ford. simpl.
  assert (bool_decide (start ∉ keys_of map_data) || bool_decide (end_ ∉ keys_of map_data)
          = true) as ->; [|done].
  apply orb_true_iff. rewrite !bool_decide_eq_true, <- !keys_of_free in *. done.
Qed.

(** C4 as the specification states it fails: construction succeeds although
    the start is out of bounds and the end is on a blocked cell. *)
Lemma construction_accepts_bad_endpoints :
  ¬ in_bounds map_corner (5, 5) ∧ blocked map_corner (0, 1)
  ∧ init (mkLidarMap map_corner) (5, 5) (0, 1)
    = Ok (road_finder map_corner (5, 5) (0, 1)).
Proof.
  split; [|split].
  - unfold in_bounds, len. simpl. lia.
  - exists 1. done.
  - reflexivity.
Qed.

(** C5: in a rectangular grid, for a free cell [c] (vertex [u]) and any of the
    eight offsets [d], the graph has the edge from [u] to the vertex of the
    cell [offset c d] exactly when that cell is within bounds and free; in
    particular the edge is there when the two cells beside a diagonal move
    are both blocked. *)
Theorem create_graph_edges (A : Arith) (self : RoadFinder)
    (graph : gmap nat (list nat)) (keys : list (Z * Z))
    (edge_weights : gmap (nat * nat) (num A)) (u : nat) (c d : Z * Z) :
  rectangular (lidar_map self) →
  create_graph A self = Ok (graph, keys, edge_weights) →
  keys !! u = Some c → d ∈ neighbors →
  ((∃ v, keys !! v = Some (offset c d) ∧ edge graph u v)
   ↔ in_bounds (lidar_map self) (offset c d) ∧ free (lidar_map self) (offset c d))
  ∧ (blocked (lidar_map self) (c.1 + d.1, c.2) →
     blocked (lidar_map self) (c.1, c.2 + d.2) →
     free (lidar_map self) (offset c d) →
     ∃ v, keys !! v = Some (offset c d) ∧ edge graph u v).
Proof.
  intros Hrect (-> & -> & ->)%create_graph_inv Hc Hd.
  assert (Hedge : free (lidar_map self) (offset c d) →
    ∃ v, keys_of (lidar_map self) !! v = Some (offset c d)
         ∧ edge (built A (lidar_map self)).1 u v).
  { intros Hfree. apply (step8_edge A (lidar_map self) u c); [done..|].
    by apply step8_intro. }
  split; [split|].
  - intros (v & Hv & He). assert (Hfree : free (lidar_map self) (offset c d)).
    { apply keys_of_free. by eapply list_elem_of_lookup_2. }
    split; [by apply free_in_bounds|done].
  - intros [_ Hfree]. by apply Hedge.
  - intros _ _. apply Hedge.
Qed.

Lemma create_graph_edges_witness :
  ((∃ v, keys_of map_corner !! v = Some (offset (0, 0) (1, 1))
         ∧ edge (built float64 map_corner).1 0 v)
   ↔ in_bounds map_corner (offset (0, 0) (1, 1)) ∧ free map_corner (offset (0, 0) (1, 1)))
  ∧ (blocked map_corner (0 + 1, 0) →
     blocked map_corner (0, 0 + 1) →
     free map_corner (offset (0, 0) (1, 1)) →
     ∃ v, keys_of map_corner !! v = Some (offset (0, 0) (1, 1))
          ∧ edge (built float64 map_corner).1 0 v).
Proof.
  apply (create_graph_edges float64 (road_finder map_corner (0, 0) (1, 1))
           (built float64 map_corner).1 (keys_of map_corner)
           (built float64 map_corner).2 0 (0, 0) (1, 1)).
  - apply (bool_decide_unpack _). vm_compute. exact I.
  - vm_compute. reflexivity.
  - reflexivity.
  - by apply (bool_decide_unpack _).
Defined.

(** C6: every entry of the weight table belongs to one of the eight moves
    between two free cells; for an axis-aligned move it is exactly [1.0], for
    a diagonal move it is [math.sqrt(2)], which is within [1e-9] of the
    square root of two; every weight is positive. *)
Theorem edge_weights_values (self : RoadFinder) (graph : gmap nat (list nat))
    (keys : list (Z * Z)) (edge_weights : gmap (nat * nat) float) (u v : nat)
    (w : float) :
  create_graph float64 self = Ok (graph, keys, edge_weights) →
  edge_weights !! (u, v) = Some w →
  ∃ c d, keys !! u = Some c ∧ keys !! v = Some (offset c d) ∧ d ∈ neighbors
    ∧ (Z.abs d.1 + Z.abs d.2 = 1 → w = 1%float)
    ∧ (Z.abs d.1 + Z.abs d.2 ≠ 1 →
       w = PrimFloat.sqrt 2 ∧ (Rabs (float_value w - sqrt 2) <= 1 / 10 ^ 9)%R)
    ∧ PrimFloat.ltb 0 w = true.
Proof.
  intros (-> & -> & ->)%create_graph_inv Hw.
  destruct (proj1 (built_sound float64 (lidar_map self)) u v w Hw)
    as (c & d & Hc & Hd & [Hv _]%neighbor_index_Some & ->).
  exists c, d. split; [done|]. split; [done|]. split; [done|].
  unfold weight_of, axis_aligned.
  destruct (Z.eqb_spec (Z.abs d.1 + Z.abs d.2) 1) as [E|E].
  - split; [done|]. split; [done|]. reflexivity.
  - split; [done|]. split; [|reflexivity].
    intros _. split; [done|]. apply float_sqrt2_close.
Qed.

Lemma edge_weights_values_witness :
  ∃ c d, keys_of map_corner !! 0%nat = Some c
    ∧ keys_of map_corner !! 1%nat = Some (offset c d) ∧ d ∈ neighbors
    ∧ (Z.abs d.1 + Z.abs d.2 = 1 → PrimFloat.sqrt 2 = 1%float)
    ∧ (Z.abs d.1 + Z.abs d.2 ≠ 1 →
       PrimFloat.sqrt 2 = PrimFloat.sqrt 2
       ∧ (Rabs (float_value (PrimFloat.sqrt 2) - sqrt 2) <= 1 / 10 ^ 9)%R)
    ∧ PrimFloat.ltb 0 (PrimFloat.sqrt 2) = true.
Proof.
  apply (edge_weights_values (road_finder map_corner (0, 0) (1, 1))
           (built float64 map_corner).1 (keys_of map_corner)
           (built float64 map_corner).2 0 1 (PrimFloat.sqrt 2)).
  - vm_compute. reflexivity.
  - vm_compute. reflexivity.
Defined.

(** C10: when [find_path] returns the empty list, [self] (and so [self.path]
    and its rendering by [__repr__]) is what it was before the call, the
    empty path for a planner that has just been built; [self.path] changes
    only when the returned path is not empty, and then it is that path. *)
Theorem find_path_empty_keeps_path (A : Arith) (fuel : nat) (self self' : RoadFinder)
    (p : list (Z * Z)) :
  find_path A fuel self = Ok (p, self') →
  (p = [] → self' = self ∧ repr self' = repr self
            ∧ (path self = [] → repr self' = "[]"))
  ∧ (path self' ≠ path self → p ≠ [] ∧ path self' = p).
Proof.
  intros [[-> ->]|[Hp ->]]%find_path_result.
  - split; [|done]. intros _. split; [done|]. split; [done|].
    unfold repr. by intros ->.
  - split; [done|]. done.
Qed.

Lemma find_path_empty_keeps_path_witness :
  (@nil (Z * Z) = [] →
     road_finder map_walled (0, 0) (2, 2) = road_finder map_walled (0, 0) (2, 2)
     ∧ repr (road_finder map_walled (0, 0) (2, 2))
       = repr (road_finder map_walled (0, 0) (2, 2))
     ∧ (path (road_finder map_walled (0, 0) (2, 2)) = [] →
        repr (road_finder map_walled (0, 0) (2, 2)) = "[]"))
  ∧ (path (road_finder map_walled (0, 0) (2, 2))
       ≠ path (road_finder map_walled (0, 0) (2, 2)) →
     @nil (Z * Z) ≠ [] ∧ path (road_finder map_walled (0, 0) (2, 2)) = []).
Proof.
  apply (find_path_empty_keeps_path float64 3 (road_finder map_walled (0, 0) (2, 2))).
  vm_compute. reflexivity.
Defined.

Lemma dict_lookup_set (d : list (Z * level)) (k k' : Z) (v : level) :
  dict_lookup (dict_set d k v) k' = if decide (k = k') then Some v else dict_lookup d k'.
Proof.
  induction d as [|[k0 v0] d IH]; simpl.
  - by destruct (decide (k = k')).
  - destruct (decide (k0 = k)) as [->|Hne]; simpl.
    + by destruct (decide (k = k')).
    + rewrite IH. destruct (decide (k0 = k')) as [->|]; [|done].
      by rewrite decide_False.
Qed.

Lemma dict_set_keys (d : list (Z * level)) (k k' : Z) (v : level) :
  k' ∈ (dict_set d k v).*1 ↔ k' = k ∨ k' ∈ d.*1.
Proof.
  induction d as [|[k0 v0] d IH]; simpl.
  - rewrite list_elem_of_singleton. split; [by left|]. intros [?|H]; [done|].
    by apply elem_of_nil in H.
  - destruct (decide (k0 = k)) as [->|Hne]; simpl; rewrite !elem_of_cons.
    + tauto.
    + rewrite IH. tauto.
Qed.

Lemma dict_set_NoDup (d : list (Z * level)) (k : Z) (v : level) :
  NoDup d.*1 → NoDup (dict_set d k v).*1.
Proof.
  induction d as [|[k0 v0] d IH]; simpl; intros Hnd.
  - apply NoDup_singleton.
  - apply NoDup_cons in Hnd as [Hk0 Hnd].
    destruct (decide (k0 = k)) as [->|Hne]; simpl; apply NoDup_cons.
    + done.
    + split; [|by apply IH]. rewrite dict_set_keys. intros [?|?]; done.
Qed.

Lemma dict_lookup_None (d : list (Z * level)) (k : Z) :
  k ∉ d.*1 → dict_lookup d k = None.
Proof.
  induction d as [|[k0 v0] d IH]; simpl; [done|].
  intros [Hne Hk]%not_elem_of_cons. rewrite decide_False by done. by apply IH.
Qed.

(** After [GPIO.output(list(d.keys()), list(d.values()))] a line of [d] is at
    the level [d] gives it, and any other line is as before. *)
Lemma GPIO_output_dict (d : list (Z * level)) (w : world) (k : Z) :
  NoDup d.*1 →
  lines (GPIO_output d.*1 d.*2 w) !! k
  = match dict_lookup d k with Some v => Some v | None => lines w !! k end.
Proof.
  unfold GPIO_output. simpl. rewrite zip_fst_snd. generalize (lines w). clear w.
  induction d as [|[k0 v0] d IH]; intros l Hnd; simpl; [done|].
  apply NoDup_cons in Hnd as [Hk0 Hnd]. rewrite IH by done.
  destruct (decide (k0 = k)) as [->|Hne].
  - rewrite dict_lookup_None by done. apply lookup_insert_eq.
  - destruct (dict_lookup d k); [done|]. by apply lookup_insert_ne.
Qed.

Lemma pin_states_init (pins : list Z) :
  let d := foldl (λ d pin, dict_set d pin LOW) [] pins in
  NoDup d.*1 ∧ ∀ k, dict_lookup d k = if decide (k ∈ pins) then Some LOW else None.
Proof.
  induction pins as [|pin pins IH] using rev_ind; simpl.
  - split; [apply NoDup_nil_2|]. intros k.
    destruct (decide (k ∈ [])) as [H|_]; [by apply elem_of_nil in H|done].
  - rewrite foldl_snoc. destruct IH as [Hnd Hl]. split; [by apply dict_set_NoDup|].
    intros k. rewrite dict_lookup_set, Hl.
    destruct (decide (pin = k)) as [->|Hne].
    + rewrite decide_True; [done|]. apply elem_of_app. right. by apply list_elem_of_singleton.
    + destruct (decide (k ∈ pins)) as [Hin|Hin].
      * rewrite decide_True; [done|]. apply elem_of_app. by left.
      * rewrite decide_False; [done|]. intros [?|?%list_elem_of_singleton]%elem_of_app; done.
Qed.

(** C9, as the code has it: a direction command drives its own line high and
    the three others low; [STOP] drives all four low and prints nothing; any
    other command drives all four low and prints a diagnostic. *)
Theorem update_output_lines (ca : CommandArray) (w0 w : world) (command : Z) :
  STOP ca ∉ pins_of ca →
  let self := (handler_init ca w0).1 in
  let w' := update_output ca self command w in
  (command ∈ pins_of ca →
     lines w' !! command = Some HIGH
     ∧ (∀ pin, pin ∈ pins_of ca → pin ≠ command → lines w' !! pin = Some LOW)
     ∧ stdout w' = stdout w)
  ∧ (command = STOP ca →
     (∀ pin, pin ∈ pins_of ca → lines w' !! pin = Some LOW)
     ∧ stdout w' = stdout w)
  ∧ (command ∉ pins_of ca → command ≠ STOP ca →
     (∀ pin, pin ∈ pins_of ca → lines w' !! pin = Some LOW)
     ∧ stdout w' = stdout w ++ ["Invalid command: " +:+ pretty command]).
Proof.
  intros Hstop. cbn zeta. unfold update_output, handler_init. cbn [fst _pins].
  destruct (pin_states_init (pins_of ca)) as [Hnd Hl]. cbn zeta in Hnd, Hl.
  set (d := foldl (λ d pin, dict_set d pin LOW) [] (pins_of ca)) in *.
  split; [|split].
  - intros Hin. rewrite bool_decide_eq_true_2 by done.
    split; [|split; [|done]].
    + rewrite GPIO_output_dict by (by apply dict_set_NoDup).
      by rewrite dict_lookup_set, decide_True.
    + intros pin Hpin Hne. rewrite GPIO_output_dict by (by apply dict_set_NoDup).
      rewrite dict_lookup_set, decide_False, Hl, decide_True; done.
  - intros ->. rewrite bool_decide_eq_false_2 by done.
    rewrite bool_decide_eq_false_2 by (by intros H; apply H).
    split; [|done]. intros pin Hpin.
    rewrite GPIO_output_dict by done. by rewrite Hl, decide_True.
  - intros Hnin Hne. rewrite bool_decide_eq_false_2 by done.
    rewrite bool_decide_eq_true_2 by done.
    split; [|done]. intros pin Hpin.
    rewrite GPIO_output_dict by done. by rewrite Hl, decide_True.
Qed.

Lemma update_output_lines_witness :
  let self := (handler_init sample_commands world0).1 in
  let w' := update_output sample_commands self 13 world0 in
  (13 ∈ pins_of sample_commands →
     lines w' !! 13 = Some HIGH
     ∧ (∀ pin, pin ∈ pins_of sample_commands → pin ≠ 13 → lines w' !! pin = Some LOW)
     ∧ stdout w' = stdout world0)
  ∧ (13 = STOP sample_commands →
     (∀ pin, pin ∈ pins_of sample_commands → lines w' !! pin = Some LOW)
     ∧ stdout w' = stdout world0)
  ∧ (13 ∉ pins_of sample_commands → 13 ≠ STOP sample_commands →
     (∀ pin, pin ∈ pins_of sample_commands → lines w' !! pin = Some LOW)
     ∧ stdout w' = stdout world0 ++ ["Invalid command: " +:+ pretty 13]).
Proof.
  apply (update_output_lines sample_commands world0 world0 13).
  vm_compute. intros H. repeat (apply elem_of_cons in H as [H|H]; [done|]).
  by apply elem_of_nil in H.
Defined.

(** C9 as the specification states it fails for [STOP]: no line is driven
    high by that command. *)
Lemma update_output_stop_no_line_high :
  let self := (handler_init sample_commands world0).1 in
  let w' := update_output sample_commands self (STOP sample_commands) world0 in
  (STOP sample_commands ∉ pins_of sample_commands)
  ∧ ¬ (∃ pin, lines w' !! pin = Some HIGH).
Proof.
  cbn zeta. split.
  - vm_compute. intros H. repeat (apply elem_of_cons in H as [H|H]; [done|]).
    by apply elem_of_nil in H.
  - intros [pin Hpin].
    assert (map_Forall (λ _ v, v = LOW)
              (lines (update_output sample_commands
                        (handler_init sample_commands world0).1
                        (STOP sample_commands) world0))) as Hlow
      by (apply (bool_decide_unpack _); vm_compute; exact I).
    by apply Hlow in Hpin.
Qed.

(** * Further properties *)

(** ** The loop of [__reconstruct_path], for any list of predecessors *)

Lemma linked_cons {B : Type} (R : B → B → Prop) (a : B) (l : list B) :
  linked R (a :: l) ↔ (∀ b, head l = Some b → R a b) ∧ linked R l.
Proof.
  unfold linked. split.
  - intros H. split.
    + intros b Hb. apply (H 0%nat); [done|]. by destruct l; simplify_eq/=.
    + intros i x y Hx Hy. by apply (H (S i)).
  - intros [H1 H2] [|i] x y Hx Hy; simplify_eq/=.
    + apply H1. by destruct l; simplify_eq/=.
    + by eapply H2.
Qed.

Lemma linked_reverse_1 {B : Type} (R : B → B → Prop) (l : list B) :
  linked R l → linked (flip R) (reverse l).
Proof.
  intros H i a b Ha Hb.
  assert (S i < length l)%nat as Hi.
  { apply lookup_lt_Some in Hb. by rewrite length_reverse in Hb. }
  rewrite reverse_lookup in Ha by lia. rewrite reverse_lookup in Hb by lia.
  apply (H (length l - S (S i))%nat); [done|].
  by replace (S (length l - S (S i))) with (length l - S i)%nat by lia.
Qed.

Lemma linked_reverse {B : Type} (R : B → B → Prop) (l : list B) :
  linked R (reverse l) ↔ linked (flip R) l.
Proof.
  split; intros H.
  - rewrite <- (reverse_involutive l). by apply linked_reverse_1 in H.
  - by apply linked_reverse_1 in H.
Qed.

Lemma chain_head (pred : list Z) (s x : Z) (c : list Z) :
  chain pred s x c → head c = Some x.
Proof. by destruct 1. Qed.

Lemma chain_last (pred : list Z) (s x : Z) (c : list Z) :
  chain pred s x c → last c = Some s.
Proof.
  induction 1 as [|x u l _ Hl IH]; [done|].
  rewrite last_cons, IH. done.
Qed.

Lemma chain_linked (pred : list Z) (s x : Z) (c : list Z) :
  chain pred s x c → linked (follows pred s) c.
Proof.
  induction 1 as [|x u l Hf Hl IH].
  - intros [|i] ????; simplify_eq/=.
  - apply linked_cons. split; [|done].
    intros b Hb. rewrite (chain_head _ _ _ _ Hl) in Hb. by simplify_eq.
Qed.

Lemma chain_det (pred : list Z) (s x : Z) (c c' : list Z) :
  chain pred s x c → chain pred s x c' → c = c'.
Proof.
  intros H. revert c'. induction H as [|x u l Hf Hl IH]; intros c' H'.
  - inversion H' as [|? ? ? [Hne _]]; [done|]. done.
  - inversion H' as [|? u' l' Hf' Hl']; subst.
    + by destruct Hf as [Hne _].
    + destruct Hf as (_ & E & _), Hf' as (_ & E' & _).
      rewrite E in E'. simplify_eq. f_equal. by apply IH.
Qed.

Lemma chain_from (pred : list Z) (s x y : Z) (c : list Z) :
  chain pred s x c → y ∈ c →
  ∃ c', chain pred s y c' ∧ (length c' ≤ length c)%nat.
Proof.
  induction 1 as [|x u l Hf Hl IH].
  - intros ->%list_elem_of_singleton. exists [s]. split; [constructor|done].
  - intros [->|Hy]%elem_of_cons.
    + exists (x :: l). split; [by econstructor|done].
    + destruct (IH Hy) as (c' & Hc' & Hlen). exists c'. split; [done|]. simpl. lia.
Qed.

Lemma chain_NoDup (pred : list Z) (s x : Z) (c : list Z) :
  chain pred s x c → NoDup c.
Proof.
  induction 1 as [|x u l Hf Hl IH]; [apply NoDup_singleton|].
  apply NoDup_cons. split; [|done]. intros Hx.
  destruct (chain_from _ _ _ x _ Hl Hx) as (c' & Hc' & Hlen).
  assert (c' = x :: l) as -> by (eapply chain_det; [done|by econstructor]).
  simpl in Hlen. lia.
Qed.

(** The loop that returns a non-empty list has followed a chain. *)
Lemma reconstruct_loop_chain (fuel : nat) (pred : list Z) (s x : Z) (acc l : list Z) :
  reconstruct_loop fuel pred s x acc = Ok l → l ≠ [] →
  ∃ c, chain pred s x c ∧ l = reverse (acc ++ c) ∧ (length c ≤ S fuel)%nat.
Proof.
  revert x acc. induction fuel as [|fuel IH]; intros x acc;
    (destruct (decide (x = s)) as [->|Hx];
     [rewrite reconstruct_loop_start; intros [= <-] _; exists [s];
      split; [constructor|split; [done|simpl; lia]]|]);
    simpl; rewrite decide_True by done; [done|].
  destruct (py_index pred x) as [u| |] eqn:Eu; simpl; [|done..].
  destruct (Z.eqb_spec u (-1)) as [->|Hu]; [by intros [= <-]|].
  intros Hrun Hne. destruct (IH _ _ Hrun Hne) as (c & Hc & -> & Hlen).
  exists (x :: c). split; [by econstructor|]. split; [by rewrite <- app_assoc|].
  simpl. lia.
Qed.

(** Along a chain the loop returns, given as many turns as the chain has
    links. *)
Lemma chain_run (pred : list Z) (s x : Z) (c : list Z) :
  chain pred s x c →
  ∀ fuel acc, (length c ≤ S fuel)%nat →
    reconstruct_loop fuel pred s x acc = Ok (reverse (acc ++ c)).
Proof.
  induction 1 as [|x u l (Hne & Eu & Hu) Hl IH]; intros fuel acc Hfuel.
  - apply reconstruct_loop_start.
  - destruct fuel as [|fuel]; simpl in *.
    { destruct Hl; simpl in Hfuel; lia. }
    rewrite decide_True by done. rewrite Eu. simpl.
    destruct (Z.eqb_spec u (-1)); [done|].
    rewrite IH by lia. by rewrite <- app_assoc.
Qed.

(** X14: a non-empty list returned by [__reconstruct_path], for any
    [predecessor] list, starts with [start_index], ends with [end_index],
    holds no index twice, has at most one element more than the loop made
    turns, and each of its elements but the first has the element before it
    as its [predecessor] entry. *)
Theorem reconstruct_path_chain (fuel : nat) (predecessor : list Z)
    (start_index end_index : Z) (path_indices : list Z) :
  reconstruct_path fuel predecessor start_index end_index = Ok path_indices →
  path_indices ≠ [] →
  head path_indices = Some start_index
  ∧ last path_indices = Some end_index
  ∧ NoDup path_indices
  ∧ (length path_indices ≤ S fuel)%nat
  ∧ ∀ i a b, path_indices !! i = Some a → path_indices !! S i = Some b →
      b ≠ start_index ∧ py_index predecessor b = Ok a.
Proof.
  intros Hrun Hne. unfold reconstruct_path in Hrun.
  destruct (reconstruct_loop_chain _ _ _ _ _ _ Hrun Hne) as (c & Hc & -> & Hlen).
  simpl. split; [|split; [|split; [|split]]].
  - rewrite head_reverse. by eapply chain_last.
  - rewrite last_reverse. by eapply chain_head.
  - rewrite reverse_Permutation. by eapply chain_NoDup.
  - by rewrite length_reverse.
  - intros i a b Ha Hb.
    pose proof (chain_linked _ _ _ _ Hc) as Hl.
    apply linked_reverse in Hl. destruct (Hl i a b Ha Hb) as (? & ? & ?). done.
Qed.

Lemma reconstruct_path_chain_witness :
  head [0; 2; 1] = Some 0 ∧ last [0; 2; 1] = Some 1 ∧ NoDup [0; 2; 1]
  ∧ (length [0; 2; 1] ≤ S 2)%nat
  ∧ ∀ i a b, [0; 2; 1] !! i = Some a → [0; 2; 1] !! S i = Some b →
      b ≠ 0 ∧ py_index [-1; 2; 0] b = Ok a.
Proof.
  apply (reconstruct_path_chain 2 [-1; 2; 0] 0 1 [0; 2; 1]); [reflexivity|done].
Defined.

Lemma follows_loop (fuel : nat) (pred : list Z) (s x u : Z) (acc : list Z) :
  follows pred s x u →
  reconstruct_loop (S fuel) pred s x acc = reconstruct_loop fuel pred s u (acc ++ [x]).
Proof.
  intros (Hne & Eu & Hu). simpl. rewrite decide_True by done. rewrite Eu. simpl.
  by destruct (Z.eqb_spec u (-1)).
Qed.

Lemma cycle_runs_on (pred : list Z) (s x : Z) :
  tc (follows pred s) x x →
  ∀ fuel acc, reconstruct_loop fuel pred s x acc = OutOfFuel.
Proof.
  intros Hx fuel. revert x Hx. induction fuel as [|fuel IH]; intros x Hx acc.
  - simpl. apply tc_rtc in Hx as Hr. inversion Hx as [? ? [Hne _]|? ? ? [Hne _]]; subst;
      by rewrite decide_True.
  - assert (∃ u, follows pred s x u ∧ tc (follows pred s) u u) as (u & Hf & Hu).
    { inversion Hx as [? ? Hf|? u ? Hf Hr]; subst.
      - exists x. done.
      - exists u. split; [done|]. eapply tc_r; [|done]. done. }
    rewrite (follows_loop _ _ _ _ _ _ Hf). by apply IH.
Qed.

(** X15: when following [predecessor] from [end_index] leads into a cycle
    that meets neither [start_index] nor [-1], the [while] loop of
    [__reconstruct_path] never ends: it is still running after any number of
    turns. *)
Theorem reconstruct_path_cycle (predecessor : list Z) (start_index end_index x : Z) :
  rtc (follows predecessor start_index) end_index x →
  tc (follows predecessor start_index) x x →
  ∀ fuel, reconstruct_path fuel predecessor start_index end_index = OutOfFuel.
Proof.
  intros Hr Hx fuel. unfold reconstruct_path. generalize (@nil Z) as acc. revert fuel.
  induction Hr as [x|e u x Hf Hr IH]; intros fuel acc.
  - by apply cycle_runs_on.
  - destruct fuel as [|fuel].
    + simpl. destruct Hf as [Hne _]. by rewrite decide_True.
    + rewrite (follows_loop _ _ _ _ _ _ Hf). by apply IH.
Qed.

Lemma reconstruct_path_cycle_witness :
  reconstruct_path 100 [-1; 2; 1] 0 1 = OutOfFuel.
Proof.
  apply (reconstruct_path_cycle [-1; 2; 1] 0 1 1); [apply rtc_refl|].
  eapply tc_l; [|apply tc_once]; done.
Defined.

(** ** What [find_path] returns is a route *)

Lemma py_index_nat_inv {B : Type} (l : list B) (i : nat) (a : B) :
  py_index l (Z.of_nat i) = Ok a → l !! i = Some a.
Proof.
  unfold py_index.
  destruct (Z.ltb_spec (Z.of_nat i) 0); [lia|].
  destruct (Z.ltb_spec (Z.of_nat i) 0); [lia|].
  rewrite Nat2Z.id. by destruct (l !! i); intros [=]; subst.
Qed.

Lemma map_each_Forall2 {B C : Type} (f : B → outcome C) (l : list B) (p : list C) :
  map_each f l = Ok p → Forall2 (λ x y, f x = Ok y) l p.
Proof.
  revert p. induction l as [|x l IH]; intros p; simpl.
  - intros [= <-]. constructor.
  - destruct (f x) as [y| |] eqn:Ey; simpl; [|done..].
    destruct (map_each f l) as [ys| |]; simpl; [|done..].
    intros [= <-]. constructor; [done|]. by apply IH.
Qed.

Section Pred.

Context (A : Arith) (n : nat) (graph : gmap nat (list nat))
  (edge_weights : gmap (nat * nat) (num A)).
Hypothesis Hwf : graph_wf A n graph edge_weights.

Lemma pred_edges_relax (u v : nat) (st : list (num A) * list Z) :
  edge graph u v →
  length st.1 = n ∧ length st.2 = n ∧ pred_edges graph st.2 →
  ∃ st', relax_edge A edge_weights u v st = Ok st'
         ∧ length st'.1 = n ∧ length st'.2 = n ∧ pred_edges graph st'.2.
Proof.
  intros He (Hd & Hp & Hpe).
  destruct (wf_edge _ _ _ _ Hwf u v He) as (Hu & Hv & w & Hw & _).
  destruct st as [dist pred]. cbn [fst snd] in *.
  destruct (lookup_lt_is_Some_2 dist u) as [du Hdu]; [lia|].
  destruct (lookup_lt_is_Some_2 dist v) as [dv Hdv]; [lia|].
  rewrite (relax_edge_ok A edge_weights u v w dv du) by (done || lia).
  eexists. split; [done|].
  destruct (gtb A dv (add A du w)); cbn [fst snd]; [|done].
  rewrite !length_insert. split; [done|]. split; [done|].
  intros x p Hx. destruct (decide (x = v)) as [->|Hne].
  - rewrite list_lookup_insert_eq in Hx by lia. simplify_eq. right. eauto.
  - rewrite list_lookup_insert_ne in Hx by done. by eapply Hpe.
Qed.

Lemma pred_edges_relax_edges (s : nat) (st : list (num A) * list Z) :
  relax_edges A graph edge_weights
    (<[s := zero A]> (replicate n (inf A))) (replicate n (-1)) = Ok st →
  length st.1 = n ∧ length st.2 = n ∧ pred_edges graph st.2.
Proof.
  intros Hrun.
  destruct (relax_edges_inv A n graph edge_weights Hwf
              (λ st, length st.1 = n ∧ length st.2 = n ∧ pred_edges graph st.2)
              (<[s := zero A]> (replicate n (inf A)), replicate n (-1)))
    as (st' & Hst' & H).
  - intros u v st1. apply pred_edges_relax.
  - cbn [fst snd]. rewrite length_insert, !length_replicate.
    split; [done|]. split; [done|].
    intros x p [-> _]%lookup_replicate. by left.
  - cbn [fst snd] in Hst'. rewrite Hrun in Hst'. by simplify_eq.
Qed.

(** A chain through such a [predecessor] is a walk of the graph, read from
    its end. *)
Lemma chain_walk (pred : list Z) (s x : nat) (c : list Z) :
  pred_edges graph pred →
  chain pred (Z.of_nat s) (Z.of_nat x) c →
  ∃ l : list nat, c = Z.of_nat <$> l ∧ head l = Some x
    ∧ linked (flip (edge graph)) l.
Proof.
  intros Hpe H. remember (Z.of_nat x) as zx eqn:Ex. revert x Ex.
  induction H as [|zx u c (Hne & Eu & Hu) Hc IH]; intros x ->.
  - exists [x]. split; [done|]. split; [done|]. intros [|i] ????; simplify_eq/=.
  - apply py_index_nat_inv in Eu.
    destruct (Hpe _ _ Eu) as [->|(un & -> & He)]; [done|].
    destruct (IH un eq_refl) as (l & -> & Hhd & Hl).
    exists (x :: l). split; [done|]. split; [done|].
    apply linked_cons. split; [|done]. intros b Hb. by simplify_eq.
Qed.

End Pred.

Lemma find_path_Ok_free (A : Arith) (fuel : nat) (self : RoadFinder)
    (r : list (Z * Z) * RoadFinder) :
  find_path A fuel self = Ok r →
  free (lidar_map self) (starting_point self) ∧ free (lidar_map self) (ending_point self).
Proof.
  unfold find_path. intros H.
  destruct (decide (keys_of (lidar_map self) = [])) as [E|E].
  { unfold create_graph in H. by rewrite decide_True in H. }
  destruct (create_graph_ok A (lidar_map self) self eq_refl E) as [E' _].
  rewrite E' in H. simpl in H. unfold bellman_ford in H.
  destruct (bool_decide (starting_point self ∉ _)) eqn:E1; [done|].
  destruct (bool_decide (ending_point self ∉ _)) eqn:E2; [done|].
  apply bool_decide_eq_false in E1, E2.
  apply dec_stable in E1, E2. by rewrite <- !keys_of_free.
Qed.

(** The vertices behind a non-empty result: a walk of the graph from the
    start to the end that meets no vertex twice. *)
Lemma find_path_walk (A : Arith) (fuel : nat) (self self' : RoadFinder)
    (p : list (Z * Z)) :
  find_path A fuel self = Ok (p, self') → p ≠ [] →
  ∃ (si ei : nat) (l : list nat),
    keys_of (lidar_map self) !! si = Some (starting_point self)
    ∧ keys_of (lidar_map self) !! ei = Some (ending_point self)
    ∧ head l = Some si ∧ last l = Some ei ∧ NoDup l
    ∧ (length l ≤ S fuel)%nat
    ∧ linked (edge (built A (lidar_map self)).1) l
    ∧ Forall2 (λ y c, keys_of (lidar_map self) !! y = Some c) l p.
Proof.
  intros Hrun Hne.
  destruct (find_path_Ok_free _ _ _ _ Hrun)
    as [(si & Hsi)%keys_of_free%list_elem_of_lookup_1
        (ei & Hei)%keys_of_free%list_elem_of_lookup_1].
  exists si, ei.
  rewrite (find_path_unfold A _ self eq_refl fuel si ei) in Hrun by done.
  set (m := lidar_map self) in *.
  revert Hrun.
  destruct (relax_edges A _ _ _ _) as [[dist pred]| |] eqn:Erelax; simpl; [|done..].
  apply (pred_edges_relax_edges A _ _ _ (built_wf A m)) in Erelax as (Hd & Hp & Hpe).
  cbn [fst snd] in *. simpl.
  destruct (list_get dist ei) as [dend| |]; [|done..]. simpl.
  destruct (eqb A dend (inf A)); [by intros [= <- <-]|].
  destruct (reconstruct_path fuel pred _ _) as [l| |] eqn:El; [|done..].
  cbn -[map_each].
  destruct l as [|i l]; [by intros [= <- <-]|].
  destruct (map_each (py_index (keys_of m)) (i :: l)) as [q| |] eqn:Eq; [|done..].
  simpl. intros [= <- <-].
  unfold reconstruct_path in El.
  destruct (reconstruct_loop_chain _ _ _ _ _ _ El) as (c & Hc & Ec & Hlen); [done|].
  simpl in Ec.
  destruct (chain_walk _ pred si ei c Hpe Hc) as (ln & -> & Hhd & Hl).
  exists (reverse ln). rewrite Ec, <- fmap_reverse in Eq.
  split; [done|]. split; [done|].
  assert (last ln = Some si) as Hlast.
  { apply chain_last in Hc. rewrite fmap_last in Hc.
    by destruct (last ln); simplify_eq/=. }
  split; [by rewrite head_reverse|]. split; [by rewrite last_reverse|].
  split; [|split; [|split]].
  - rewrite reverse_Permutation. apply chain_NoDup in Hc.
    by apply (NoDup_fmap Z.of_nat) in Hc.
  - rewrite length_reverse. by rewrite length_fmap in Hlen.
  - by apply linked_reverse.
  - apply map_each_Forall2 in Eq. apply Forall2_fmap_l in Eq.
    eapply Forall2_impl; [done|]. intros y c0 Hy. by apply py_index_nat_inv.
Qed.

(** X1: whatever [find_path] returns is a route: every cell of the result
    is free, each cell is one move of 8-connectivity away from the cell
    before it, and a non-empty result starts at the starting point and ends
    at the ending point.  This holds on any grid and for any arithmetic. *)
Theorem find_path_route (A : Arith) (fuel : nat) (self self' : RoadFinder)
    (p : list (Z * Z)) :
  find_path A fuel self = Ok (p, self') →
  Forall (free (lidar_map self)) p
  ∧ linked (step8 (lidar_map self)) p
  ∧ (p ≠ [] → head p = Some (starting_point self)
              ∧ last p = Some (ending_point self)).
Proof.
  intros Hrun. destruct (decide (p = [])) as [->|Hne].
  { split; [constructor|]. split; [|done]. intros i ????; simplify_eq/=. }
  destruct (find_path_walk _ _ _ _ _ Hrun Hne)
    as (si & ei & l & Hsi & Hei & Hhd & Hlast & _ & _ & Hl & Hp).
  split; [|split].
  - apply Forall_forall. intros c Hc.
    apply list_elem_of_lookup_1 in Hc as [i Hi].
    destruct (Forall2_lookup_r _ _ _ _ _ Hp Hi) as (y & _ & Hy).
    apply keys_of_free. by eapply list_elem_of_lookup_2.
  - intros i c c' Hc Hc'.
    destruct (Forall2_lookup_r _ _ _ _ _ Hp Hc) as (y & Hy & Hyc).
    destruct (Forall2_lookup_r _ _ _ _ _ Hp Hc') as (y' & Hy' & Hyc').
    destruct (edge_step8 A _ y y' (Hl i y y' Hy Hy')) as (c0 & c0' & ? & ? & ?).
    congruence.
  - intros _. split.
    + destruct (Forall2_head _ _ _ _ Hp Hhd) as (c & -> & Hc). congruence.
    + destruct (Forall2_last_elem _ _ _ _ Hp Hlast) as (c & -> & Hc). congruence.
Qed.

Lemma find_path_route_witness :
  Forall (free map_simple) [(0, 0); (0, 1); (0, 2); (1, 3); (2, 3)]
  ∧ linked (step8 map_simple) [(0, 0); (0, 1); (0, 2); (1, 3); (2, 3)]
  ∧ ([(0, 0); (0, 1); (0, 2); (1, 3); (2, 3)] ≠ [] →
     head [(0, 0); (0, 1); (0, 2); (1, 3); (2, 3)] = Some (0, 0)
     ∧ last [(0, 0); (0, 1); (0, 2); (1, 3); (2, 3)] = Some (2, 3)).
Proof.
  apply (find_path_route float64 4 (road_finder map_simple (0, 0) (2, 3))
           (set_path (road_finder map_simple (0, 0) (2, 3))
              [(0, 0); (0, 1); (0, 2); (1, 3); (2, 3)])
           [(0, 0); (0, 1); (0, 2); (1, 3); (2, 3)]).
  vm_compute. reflexivity.
Defined.

(** X2: the path [find_path] returns visits no cell twice, so it has at
    most as many cells as the grid has free cells. *)
Theorem find_path_simple (A : Arith) (fuel : nat) (self self' : RoadFinder)
    (p : list (Z * Z)) :
  find_path A fuel self = Ok (p, self') →
  NoDup p ∧ (length p ≤ length (keys_of (lidar_map self)))%nat.
Proof.
  intros Hrun.
  assert (NoDup p ∧ ∀ c, c ∈ p → c ∈ keys_of (lidar_map self)) as [Hnd Hsub].
  { destruct (decide (p = [])) as [->|Hne].
    { split; [constructor|]. intros c Hc. by apply elem_of_nil in Hc. }
    destruct (find_path_walk _ _ _ _ _ Hrun Hne)
      as (si & ei & l & _ & _ & _ & _ & Hnd & _ & _ & Hp).
    split.
    - apply NoDup_alt. intros i j c Hi Hj.
      destruct (Forall2_lookup_r _ _ _ _ _ Hp Hi) as (y & Hy & Hyc).
      destruct (Forall2_lookup_r _ _ _ _ _ Hp Hj) as (y' & Hy' & Hyc').
      assert (y = y') as <-.
      { eapply NoDup_lookup; [apply keys_of_NoDup|done..]. }
      by eapply NoDup_lookup.
    - intros c [i Hi]%list_elem_of_lookup_1.
      destruct (Forall2_lookup_r _ _ _ _ _ Hp Hi) as (y & _ & Hy).
      by eapply list_elem_of_lookup_2. }
  split; [done|]. apply submseteq_length. by apply NoDup_submseteq.
Qed.

Lemma find_path_simple_witness :
  NoDup [(0, 0); (1, 0); (2, 1); (2, 2)]
  ∧ (length [(0, 0); (1, 0); (2, 1); (2, 2)] ≤ length (keys_of map_blocked))%nat.
Proof.
  apply (find_path_simple float64 4 (road_finder map_blocked (0, 0) (2, 2))
           (set_path (road_finder map_blocked (0, 0) (2, 2))
              [(0, 0); (1, 0); (2, 1); (2, 2)])
           [(0, 0); (1, 0); (2, 1); (2, 2)]).
  vm_compute. reflexivity.
Defined.

(** ** What [__relax_edges] leaves *)

Lemma to_start_chain (pred : list Z) (s x : nat) :
  to_start pred s x →
  ∃ l : list nat, chain pred (Z.of_nat s) (Z.of_nat x) (Z.of_nat <$> l)
    ∧ ∀ y, y ∈ l → y = s ∨ (y < length pred)%nat.
Proof.
  induction 1 as [|x u Hxs Hxu Hu (l & Hc & Hall)].
  - exists [s]. split; [constructor|]. intros y ->%list_elem_of_singleton. by left.
  - exists (x :: l). split.
    + rewrite fmap_cons. apply (chain_next _ _ _ (Z.of_nat u)); [|done].
      split; [lia|]. split; [by apply py_index_nat|lia].
    + intros y [->|Hy]%elem_of_cons; [|by apply Hall].
      right. by eapply lookup_lt_Some.
Qed.

Lemma NoDup_below (l : list nat) (n : nat) :
  NoDup l → (∀ y, y ∈ l → (y < n)%nat) → (length l ≤ n)%nat.
Proof.
  intros Hnd Hall. apply (Nat.le_trans _ (length (seq 0 n))); [|by rewrite length_seq].
  apply submseteq_length.
  apply NoDup_submseteq; [done|]. intros y Hy. apply elem_of_seq. apply Hall in Hy. lia.
Qed.

Section Start.

Context (A : Arith) (n : nat) (graph : gmap nat (list nat))
  (edge_weights : gmap (nat * nat) (num A)) (s : nat).
Hypothesis Hwf : graph_wf A n graph edge_weights.
Hypothesis HO : OrderLaws A.

Lemma start_inv_relax (u v : nat) (st : list (num A) * list Z) :
  edge graph u v → tree_inv A n s st ∧ start_inv A s st →
  ∃ st', relax_edge A edge_weights u v st = Ok st'
         ∧ tree_inv A n s st' ∧ start_inv A s st'.
Proof.
  intros He [Hinv (Hds & Hps & Hpf)].
  destruct (tree_inv_relax A n graph edge_weights s Hwf HO u v st He Hinv)
    as (st' & Hst' & Hinv' & Hkeep & _).
  exists st'. split; [done|]. split; [done|].
  pose proof Hinv as (Hd & Hp & Hdist & _).
  destruct (wf_edge _ _ _ _ Hwf u v He) as (Hu & Hv & w & Hw & Hww).
  destruct st as [dist pred]. cbn [fst snd] in *.
  destruct (lookup_lt_is_Some_2 dist u) as [du Hdu]; [lia|].
  destruct (lookup_lt_is_Some_2 dist v) as [dv Hdv]; [lia|].
  rewrite (relax_edge_ok A edge_weights u v w dv du) in Hst' by (done || lia).
  injection Hst' as <-.
  destruct (gtb A dv (add A du w)) eqn:Hgt; [|done].
  assert (Hddu : is_dist A du) by eauto.
  assert (v ≠ s) as Hvs.
  { intros ->. assert (dv = zero A) as -> by congruence.
    assert (gtb A (zero A) (add A du w) = false); [|congruence].
    apply (gtb_negtrans A HO _ du).
    - apply zero_num, HO.
    - apply Hddu.
    - by apply add_num.
    - apply Hddu.
    - by apply add_ge. }
  unfold start_inv. cbn [fst snd]. rewrite !list_lookup_insert_ne by done.
  split; [done|]. split; [done|].
  intros x u0 Hx. destruct (decide (x = v)) as [->|Hne].
  - exists (add A du w). split; [apply list_lookup_insert_eq; lia|].
    eapply below_finite; [apply HO|done].
  - rewrite list_lookup_insert_ne in Hx by done.
    apply (Hkeep x). by eapply Hpf.
Qed.

Lemma start_inv_init :
  (s < n)%nat →
  start_inv A s (<[s := zero A]> (replicate n (inf A)), replicate n (-1)).
Proof.
  intros Hs. unfold start_inv. cbn [fst snd].
  split; [apply list_lookup_insert_eq; by rewrite length_replicate|].
  split; [by apply lookup_replicate|].
  intros x u [E _]%lookup_replicate. lia.
Qed.

(** What [__relax_edges] leaves in the two lists. *)
Lemma relax_edges_result :
  (s < n)%nat →
  ∃ dist pred,
    relax_edges A graph edge_weights
      (<[s := zero A]> (replicate n (inf A))) (replicate n (-1)) = Ok (dist, pred)
    ∧ tree_inv A n s (dist, pred) ∧ start_inv A s (dist, pred)
    ∧ pred_edges graph pred
    ∧ ∀ x, finite_at A dist x ↔ rtc (edge graph) s x.
Proof.
  intros Hs.
  set (st0 := (<[s := zero A]> (replicate n (inf A)), replicate n (-1))).
  assert (Hfs : finite_at A st0.1 s).
  { exists (zero A). split; [|apply zero_finite, HO].
    apply list_lookup_insert_eq. by rewrite length_replicate. }
  destruct (tree_inv_relax_edges A n graph edge_weights s Hwf HO st0)
    as ([dist pred] & Erelax & Hinv & Hfin);
    [done|by apply tree_inv_init|done|].
  exists dist, pred. split; [done|]. split; [done|].
  destruct (relax_edges_inv A n graph edge_weights Hwf
              (λ st, tree_inv A n s st ∧ start_inv A s st) st0)
    as (st1 & E1 & _ & Hst1).
  { intros u v st. apply start_inv_relax. }
  { split; [by apply tree_inv_init|by apply start_inv_init]. }
  destruct (light_inv_relax_edges A n graph edge_weights s Hwf (sentinel_laws A HO) st0)
    as (st2 & E2 & _ & _ & _ & Hreach).
  { by apply light_inv_init; [apply HO|]. }
  pose proof (pred_edges_relax_edges A n graph edge_weights Hwf s _ Erelax)
    as (_ & _ & Hpe).
  rewrite Erelax in E1, E2. simplify_eq.
  split; [done|]. split; [done|].
  intros x. split; [apply Hreach|apply Hfin].
Qed.

End Start.

(** X13: on the graph of [__create_graph], with the lists as
    [__bellman_ford] prepares them, [__relax_edges] raises nothing and leaves
    the start at distance [0] without predecessor; a vertex has a finite
    distance exactly when it can be reached from the start along edges; every
    other reached vertex has as predecessor the tail of an edge into it, itself
    reached; and an unreached vertex keeps [np.inf] and [-1]. *)
Theorem relax_edges_reached (self : RoadFinder) (graph : gmap nat (list nat))
    (keys : list (Z * Z)) (edge_weights : gmap (nat * nat) float) (s : nat) :
  create_graph float64 self = Ok (graph, keys, edge_weights) →
  (s < length keys)%nat →
  ∃ distances predecessor,
    relax_edges float64 graph edge_weights
      (<[s := 0%float]> (replicate (size graph) infinity))
      (replicate (size graph) (-1)) = Ok (distances, predecessor)
    ∧ length distances = length keys
    ∧ length predecessor = length keys
    ∧ distances !! s = Some 0%float ∧ predecessor !! s = Some (-1)
    ∧ (∀ x, finite_at float64 distances x ↔ rtc (edge graph) s x)
    ∧ (∀ x, x ≠ s → finite_at float64 distances x →
         ∃ u, predecessor !! x = Some (Z.of_nat u)
              ∧ edge graph u x ∧ finite_at float64 distances u)
    ∧ (∀ x, (x < length keys)%nat → ¬ finite_at float64 distances x →
         distances !! x = Some infinity ∧ predecessor !! x = Some (-1)).
Proof.
  intros (-> & -> & ->)%create_graph_inv Hs. set (m := lidar_map self) in *.
  rewrite (built_size float64 m).
  destruct (relax_edges_result float64 _ _ _ s (built_wf float64 m)
              float64_order_laws Hs)
    as (dist & pred & Erelax & Hinv & (Hds & Hps & Hpf) & Hpe & Hreach).
  pose proof Hinv as (Hd & Hp & Hdist & Hord & Hts). cbn [fst snd] in *.
  exists dist, pred. do 5 (split; [done|]). split; [done|]. split.
  - intros x Hxs Hfx. pose proof (Hts x Hfx) as Hx.
    inversion Hx as [|? u _ Hxu Hu]; subst; [done|].
    exists u. split; [done|]. split.
    + destruct (Hpe _ _ Hxu) as [?|(u' & ?%Nat2Z.inj & ?)]; [lia|]. by subst.
    + destruct (Hord _ _ Hxu) as (du & dx & Hdu & Hdx & Hle).
      exists du. split; [done|]. destruct Hfx as (dx' & Hdx' & Hfin).
      assert (dx' = dx) as -> by congruence.
      apply (le_finite float64 float64_order_laws du dx); [| |done..].
      * by apply (Hdist u du).
      * by apply (Hdist x dx).
  - intros x Hx Hnf.
    destruct (lookup_lt_is_Some_2 dist x) as [dx Hdx]; [lia|].
    destruct (lookup_lt_is_Some_2 pred x) as [px Hpx]; [lia|].
    split.
    + assert (dx = infinity) as ->; [|exact Hdx]. apply float_eqb_infinity.
      destruct (PrimFloat.eqb dx infinity) eqn:E; [done|].
      destruct Hnf. by exists dx.
    + destruct (Hpe _ _ Hpx) as [->|(u & -> & _)]; [done|].
      destruct Hnf. by eapply Hpf.
Qed.

Lemma relax_edges_reached_witness :
  ∃ distances predecessor,
    relax_edges float64 (built float64 map_corner).1 (built float64 map_corner).2
      (<[0%nat := 0%float]> (replicate (size (built float64 map_corner).1) infinity))
      (replicate (size (built float64 map_corner).1) (-1)) = Ok (distances, predecessor)
    ∧ length distances = length (keys_of map_corner)
    ∧ length predecessor = length (keys_of map_corner)
    ∧ distances !! 0%nat = Some 0%float ∧ predecessor !! 0%nat = Some (-1)
    ∧ (∀ x, finite_at float64 distances x
            ↔ rtc (edge (built float64 map_corner).1) 0%nat x)
    ∧ (∀ x, x ≠ 0%nat → finite_at float64 distances x →
         ∃ u, predecessor !! x = Some (Z.of_nat u)
              ∧ edge (built float64 map_corner).1 u x ∧ finite_at float64 distances u)
    ∧ (∀ x, (x < length (keys_of map_corner))%nat → ¬ finite_at float64 distances x →
         distances !! x = Some infinity ∧ predecessor !! x = Some (-1)).
Proof.
  apply (relax_edges_reached (road_finder map_corner (0, 0) (1, 1))
           (built float64 map_corner).1 (keys_of map_corner)
           (built float64 map_corner).2 0).
  - vm_compute. reflexivity.
  - vm_compute. lia.
Defined.

(** ** The vertices, the edges and the bounds *)

Lemma enumerate_sorted {B : Type} (l : list B) :
  StronglySorted (λ x y, (x.1 < y.1)%nat) (enumerate l).
Proof.
  induction l as [|a l IH] using rev_ind; [constructor|].
  unfold enumerate in *. rewrite imap_app. simpl.
  apply StronglySorted_app_2; [|done|repeat constructor].
  intros [i x] [j y] Hx ->%list_elem_of_singleton.
  apply (enumerate_elem l) in Hx. apply lookup_lt_Some in Hx. simpl. lia.
Qed.

Lemma bind_sorted {B C : Type} (RB : relation B) (R : relation C)
    (f : B → list C) (l : list B) :
  StronglySorted RB l →
  (∀ a, a ∈ l → StronglySorted R (f a)) →
  (∀ a1 a2 c1 c2, RB a1 a2 → c1 ∈ f a1 → c2 ∈ f a2 → R c1 c2) →
  StronglySorted R (l ≫= f).
Proof.
  intros Hl Hf HR. induction Hl as [|a l Hl IH Ha]; [constructor|].
  cbn [mbind list_bind]. apply StronglySorted_app_2.
  - intros c1 c2 Hc1 (a2 & Hc2 & Ha2)%list_elem_of_bind.
    rewrite Forall_forall in Ha. eapply HR; [by apply Ha|done..].
  - apply Hf. left.
  - apply IH. intros a' Ha'. apply Hf. by right.
Qed.

Lemma keys_of_sorted (m : list (list Z)) : StronglySorted row_major (keys_of m).
Proof.
  unfold keys_of. eapply bind_sorted; [apply enumerate_sorted| |].
  - intros [i row] _. eapply bind_sorted; [apply enumerate_sorted| |].
    + intros [j val] _. destruct (py_not val); repeat constructor.
    + intros [j1 v1] [j2 v2] c1 c2 Hj Hc1 Hc2. simpl in Hj.
      destruct (py_not v1); [|by apply elem_of_nil in Hc1].
      destruct (py_not v2); [|by apply elem_of_nil in Hc2].
      apply list_elem_of_singleton in Hc1 as ->, Hc2 as ->.
      right. simpl. lia.
  - intros [i1 r1] [i2 r2] c1 c2 Hi Hc1 Hc2. simpl in Hi.
    apply list_elem_of_bind in Hc1 as ([j1 v1] & Hc1 & _).
    apply list_elem_of_bind in Hc2 as ([j2 v2] & Hc2 & _).
    destruct (py_not v1); [|by apply elem_of_nil in Hc1].
    destruct (py_not v2); [|by apply elem_of_nil in Hc2].
    apply list_elem_of_singleton in Hc1 as ->, Hc2 as ->.
    left. simpl. lia.
Qed.

Lemma sorted_lookup {B : Type} (R : relation B) (l : list B) (i j : nat) (x y : B) :
  StronglySorted R l → (i < j)%nat → l !! i = Some x → l !! j = Some y → R x y.
Proof.
  intros Hl. revert i j. induction Hl as [|a l Hl IH Ha]; intros i j Hij Hi Hj; [done|].
  destruct j as [|j]; [lia|]. destruct i as [|i]; simplify_eq/=.
  - rewrite Forall_forall in Ha. apply Ha. by eapply list_elem_of_lookup_2.
  - apply (IH i j); [lia|done..].
Qed.

(** X8: the list [keys] of [__create_graph] is not empty, holds exactly the
    free cells, row by row and each once, so that [keys.index] gives back the
    position of a cell; and [graph] has one entry for each of them. *)
Theorem create_graph_keys (A : Arith) (self : RoadFinder)
    (graph : gmap nat (list nat)) (keys : list (Z * Z))
    (edge_weights : gmap (nat * nat) (num A)) :
  create_graph A self = Ok (graph, keys, edge_weights) →
  keys ≠ []
  ∧ (∀ c, c ∈ keys ↔ free (lidar_map self) c)
  ∧ (∀ i j c c', (i < j)%nat → keys !! i = Some c → keys !! j = Some c' →
       row_major c c')
  ∧ NoDup keys
  ∧ (∀ i c, keys !! i = Some c → py_list_index keys c = Ok i)
  ∧ size graph = length keys.
Proof.
  intros H. pose proof H as (-> & -> & ->)%create_graph_inv.
  split; [|split; [|split; [|split; [|split]]]].
  - intros E. unfold create_graph in H. by rewrite decide_True in H.
  - apply keys_of_free.
  - intros i j c c'. apply sorted_lookup, keys_of_sorted.
  - apply keys_of_NoDup.
  - intros i c. apply py_list_index_NoDup, keys_of_NoDup.
  - apply built_size.
Qed.

Lemma create_graph_keys_witness :
  keys_of map_corner ≠ []
  ∧ (∀ c, c ∈ keys_of map_corner ↔ free map_corner c)
  ∧ (∀ i j c c', (i < j)%nat → keys_of map_corner !! i = Some c →
       keys_of map_corner !! j = Some c' → row_major c c')
  ∧ NoDup (keys_of map_corner)
  ∧ (∀ i c, keys_of map_corner !! i = Some c →
       py_list_index (keys_of map_corner) c = Ok i)
  ∧ size (built float64 map_corner).1 = length (keys_of map_corner).
Proof.
  apply (create_graph_keys float64 (road_finder map_corner (0, 0) (1, 1))
           (built float64 map_corner).1 (keys_of map_corner)
           (built float64 map_corner).2).
  vm_compute. reflexivity.
Defined.

Lemma omap_length_le {B C : Type} (f : B → option C) (l : list B) :
  (length (omap f l) ≤ length l)%nat.
Proof.
  induction l as [|x l IH]; [done|]. csimpl. destruct (f x); simpl; lia.
Qed.

Lemma omap_NoDup {B C : Type} (f : B → option C) (l : list B) :
  (∀ x y z, f x = Some z → f y = Some z → x = y) → NoDup l → NoDup (omap f l).
Proof.
  intros Hinj. induction 1 as [|x l Hx Hl IH]; simpl; [constructor|].
  destruct (f x) as [z|] eqn:Ez; [|done]. apply NoDup_cons. split; [|done].
  intros (y & Hy & Ey)%list_elem_of_omap.
  by rewrite (Hinj _ _ _ Ez Ey) in Hx.
Qed.

Lemma neighbors_NoDup : NoDup neighbors.
Proof. apply (bool_decide_unpack _). vm_compute. exact I. Qed.

Lemma neighbors_nonzero (d : Z * Z) : d ∈ neighbors → d ≠ (0, 0).
Proof.
  intros Hd ->. revert Hd. apply (bool_decide_unpack _). vm_compute. exact I.
Qed.

Lemma neighbors_opp (d : Z * Z) : d ∈ neighbors → (- d.1, - d.2) ∈ neighbors.
Proof.
  unfold neighbors. rewrite !elem_of_cons, elem_of_nil.
  intros H. destruct_or!; subst; simpl; tauto.
Qed.

Lemma table_edge (A : Arith) (m : list (list Z)) (u v : nat) :
  is_Some ((built A m).2 !! (u, v)) ↔ edge (built A m).1 u v.
Proof.
  split.
  - intros [w Hw].
    destruct (proj1 (built_sound A m) u v w Hw) as (c & d & Hc & Hd & Hv & _).
    apply built_edge. eauto.
  - intros (adj & Hadj & Hv). by eapply (proj2 (built_sound A m)).
Qed.

(** X9: the dictionaries of [__create_graph]: [graph] has exactly the keys
    [0 .. len(keys)-1]; an adjacency list has at most eight entries, all of
    them vertices, none twice and never the vertex itself; and [edge_weights]
    has an entry exactly for the edges. *)
Theorem create_graph_adjacency (A : Arith) (self : RoadFinder)
    (graph : gmap nat (list nat)) (keys : list (Z * Z))
    (edge_weights : gmap (nat * nat) (num A)) :
  create_graph A self = Ok (graph, keys, edge_weights) →
  (∀ u, is_Some (graph !! u) ↔ (u < length keys)%nat)
  ∧ (∀ u adj, graph !! u = Some adj →
       (length adj ≤ 8)%nat ∧ NoDup adj ∧ (u ∉ adj)
       ∧ ∀ v, v ∈ adj → (v < length keys)%nat)
  ∧ (∀ u v, is_Some (edge_weights !! (u, v)) ↔ edge graph u v).
Proof.
  intros (-> & -> & ->)%create_graph_inv. set (m := lidar_map self).
  split; [|split].
  - intros u. rewrite <- lookup_lt_is_Some. split.
    + intros [adj (c & Hc & _)%built_graph]. eauto.
    + intros [c Hc]. eexists. apply built_graph. eauto.
  - intros u adj (c & Hc & ->)%built_graph. split; [|split; [|split]].
    + etrans; [apply omap_length_le|]. done.
    + apply omap_NoDup; [|apply neighbors_NoDup].
      intros d d' v [Hd _]%neighbor_index_Some [Hd' _]%neighbor_index_Some.
      rewrite Hd in Hd'. unfold offset in Hd'. destruct d, d'. simpl in Hd'.
      injection Hd' as ? ?. f_equal; lia.
    + intros (d & Hd & [Hu _]%neighbor_index_Some)%list_elem_of_omap.
      rewrite Hc in Hu. apply (neighbors_nonzero d Hd).
      unfold offset in Hu. destruct c, d. simpl in Hu. injection Hu as ? ?.
      f_equal; lia.
    + intros v (d & Hd & [Hv _]%neighbor_index_Some)%list_elem_of_omap.
      by eapply lookup_lt_Some.
  - apply table_edge.
Qed.

Lemma create_graph_adjacency_witness :
  (∀ u, is_Some ((built float64 map_corner).1 !! u)
        ↔ (u < length (keys_of map_corner))%nat)
  ∧ (∀ u adj, (built float64 map_corner).1 !! u = Some adj →
       (length adj ≤ 8)%nat ∧ NoDup adj ∧ (u ∉ adj)
       ∧ ∀ v, v ∈ adj → (v < length (keys_of map_corner))%nat)
  ∧ (∀ u v, is_Some ((built float64 map_corner).2 !! (u, v))
            ↔ edge (built float64 map_corner).1 u v).
Proof.
  apply (create_graph_adjacency float64 (road_finder map_corner (0, 0) (1, 1))
           (built float64 map_corner).1 (keys_of map_corner)
           (built float64 map_corner).2).
  vm_compute. reflexivity.
Defined.

Lemma weight_of_opp (A : Arith) (d : Z * Z) :
  weight_of A (- d.1, - d.2) = weight_of A d.
Proof. unfold weight_of, axis_aligned. simpl. by rewrite !Z.abs_opp. Qed.

Lemma table_weight (A : Arith) (m : list (list Z)) (u v : nat) (c d : Z * Z) :
  keys_of m !! u = Some c → keys_of m !! v = Some (offset c d) →
  edge (built A m).1 u v →
  (built A m).2 !! (u, v) = Some (weight_of A d).
Proof.
  intros Hc Hv [w Hw]%table_edge. rewrite Hw. f_equal.
  destruct (proj1 (built_sound A m) u v w Hw)
    as (c' & d' & Hc' & Hd' & [Hv' _]%neighbor_index_Some & ->).
  rewrite Hc in Hc'. injection Hc' as <-. rewrite Hv in Hv'.
  unfold offset in Hv'. destruct d, d'. simpl in Hv'. injection Hv' as ? ?.
  f_equal. f_equal; lia.
Qed.

(** X10: in a rectangular grid the graph of [__create_graph] is undirected:
    an edge has its reverse, with the same weight. *)
Theorem create_graph_symmetric (A : Arith) (self : RoadFinder)
    (graph : gmap nat (list nat)) (keys : list (Z * Z))
    (edge_weights : gmap (nat * nat) (num A)) (u v : nat) :
  rectangular (lidar_map self) →
  create_graph A self = Ok (graph, keys, edge_weights) →
  edge graph u v →
  edge graph v u ∧ edge_weights !! (v, u) = edge_weights !! (u, v).
Proof.
  intros Hrect (-> & -> & ->)%create_graph_inv He. set (m := lidar_map self) in *.
  pose proof He as (c & d & Hc & Hd & [Hv _]%neighbor_index_Some)%built_edge.
  assert (keys_of m !! u = Some (offset (offset c d) (- d.1, - d.2))) as Hu.
  { rewrite Hc. f_equal. unfold offset. destruct c, d. simpl. f_equal; lia. }
  assert (edge (built A m).1 v u) as He'.
  { apply built_edge. exists (offset c d), (- d.1, - d.2).
    split; [done|]. split; [by apply neighbors_opp|].
    apply neighbor_index_Some. split; [done|].
    assert (free m c) as Hfree by (apply keys_of_free; by eapply list_elem_of_lookup_2).
    pose proof (rectangular_column m c Hrect Hfree). destruct c, d. simpl in *. lia. }
  split; [done|].
  rewrite (table_weight A m u v c d) by done.
  rewrite (table_weight A m v u (offset c d) (- d.1, - d.2)) by done.
  by rewrite weight_of_opp.
Qed.

Lemma create_graph_symmetric_witness :
  edge (built float64 map_corner).1 1 0
  ∧ (built float64 map_corner).2 !! (1%nat, 0%nat)
    = (built float64 map_corner).2 !! (0%nat, 1%nat).
Proof.
  apply (create_graph_symmetric float64 (road_finder map_corner (0, 0) (1, 1))
           (built float64 map_corner).1 (keys_of map_corner)
           (built float64 map_corner).2 0 1).
  - apply (bool_decide_unpack _). vm_compute. exact I.
  - vm_compute. reflexivity.
  - exists [1%nat]. split; [vm_compute; reflexivity|left].
Defined.

(** X6: the bounds of [__is_path_clear] come from the first row, so no edge
    enters a cell whose column is not below the length of the first row: for
    such an ending point, free and other than the start, [find_path] returns
    the empty path, even when the cell is one move away from the start. *)
Theorem find_path_beyond_first_row (fuel : nat) (self : RoadFinder) :
  free (lidar_map self) (starting_point self) →
  free (lidar_map self) (ending_point self) →
  starting_point self ≠ ending_point self →
  len (default [] (head (lidar_map self))) ≤ (ending_point self).2 →
  find_path float64 fuel self = Ok ([], self).
Proof.
  set (m := lidar_map self).
  intros [si Hsi]%keys_of_free%list_elem_of_lookup_1
         [ei Hei]%keys_of_free%list_elem_of_lookup_1 Hne Hcol.
  rewrite (find_path_unfold float64 m self eq_refl fuel si ei) by done.
  assert (Hlt : (si < length (keys_of m))%nat) by (by eapply lookup_lt_Some).
  destruct (light_inv_relax_edges float64 _ _ _ si (built_wf float64 m)
              float64_sentinel_laws
              (<[si := zero float64]> (replicate (length (keys_of m)) (inf float64)),
               replicate (length (keys_of m)) (-1)))
    as ([dist pred] & Erelax & Hd & Hp & Hfs & Hreach).
  { by apply (light_inv_init float64 _ _ _ float64_sentinel_laws). }
  cbn [fst snd] in *. rewrite Erelax. simpl. unfold list_get.
  destruct (lookup_lt_is_Some_2 dist ei) as [dend Hdend].
  { rewrite Hd. by eapply lookup_lt_Some. }
  simpl in dist, dend, Hdend. rewrite Hdend. simpl.
  destruct (PrimFloat.eqb dend infinity) eqn:E; [done|].
  exfalso.
  assert (rtc (edge (built float64 m).1) si ei) as Hr.
  { apply Hreach. by exists dend. }
  apply rtc_inv_r in Hr as [->|(u & _ & He)]; [congruence|].
  apply built_edge in He as (c & d & Hc & Hd' & [Hv Hcol']%neighbor_index_Some).
  rewrite Hei in Hv. injection Hv as Hv. rewrite Hv in Hcol. simpl in Hcol.
  fold m in Hcol'. lia.
Qed.

Lemma find_path_beyond_first_row_witness :
  step8 map_ragged (0, 0) (1, 1)
  ∧ find_path float64 0 (road_finder map_ragged (0, 0) (1, 1))
    = Ok ([], road_finder map_ragged (0, 0) (1, 1)).
Proof.
  split.
  - apply (step8_intro map_ragged (0, 0) (1, 1)); [|reflexivity].
    apply (bool_decide_unpack _). vm_compute. exact I.
  - apply (find_path_beyond_first_row 0 (road_finder map_ragged (0, 0) (1, 1)));
      [reflexivity|reflexivity|discriminate|vm_compute; discriminate].
Defined.

(** X11: in a rectangular grid [__is_path_clear] raises nothing and answers
    [True] exactly when the cell it is asked about is a free cell of the grid;
    a negative coordinate is outside the grid, it does not count from the
    end. *)
Theorem is_path_clear_rectangular (m : list (list Z)) (x y dx dy : Z) :
  rectangular m →
  ∃ b, is_path_clear m (x, y) dx dy = Ok b
       ∧ (b = true ↔ free m (x + dx, y + dy)).
Proof.
  intros Hrect. unfold is_path_clear, free, cell_value. cbn [fst snd].
  destruct (Z.leb_spec 0 (x + dx)) as [Hx|Hx]; cbn [andb];
    [|exists false; split; [done|]; split; done].
  destruct (Z.ltb_spec (x + dx) (len m)) as [Hx'|Hx']; cbn [andb].
  2:{ exists false. split; [done|]. rewrite lookup_ge_None_2 by (unfold len in Hx'; lia).
      destruct (0 <=? y + dy); done. }
  destruct (Z.leb_spec 0 (y + dy)) as [Hy|Hy];
    [|exists false; split; [done|]; split; done].
  destruct (lookup_lt_is_Some_2 m (Z.to_nat (x + dx))) as [row Hrow].
  { unfold len in Hx'. lia. }
  rewrite Hrow. cbn [mbind option_bind].
  pose proof (Hrect row (list_elem_of_lookup_2 _ _ _ Hrow)) as Hlen.
  destruct m as [|row0 m']; [done|]. simpl in Hlen.
  change (py_index (row0 :: m') 0) with (Ok (A:=list Z) row0). simpl.
  destruct (Z.ltb_spec (y + dy) (len row0)) as [Hy'|Hy'].
  - rewrite (py_index_nonneg _ _ row) by done. simpl.
    destruct (lookup_lt_is_Some_2 row (Z.to_nat (y + dy))) as [val Hval].
    { unfold len in Hy'. lia. }
    rewrite (py_index_nonneg _ _ val) by done. simpl. rewrite Hval.
    exists (val =? 0). split; [done|]. rewrite Z.eqb_eq. split; congruence.
  - exists false. split; [done|].
    rewrite lookup_ge_None_2 by (unfold len in Hy'; lia). done.
Qed.

Lemma is_path_clear_rectangular_witness :
  ∃ b, is_path_clear map_simple (0, 3) 1 0 = Ok b
       ∧ (b = true ↔ free map_simple (0 + 1, 3 + 0)).
Proof.
  apply (is_path_clear_rectangular map_simple 0 3 1 0).
  apply (bool_decide_unpack _). vm_compute. exact I.
Defined.

(** X12: [__is_path_clear] takes the number of columns from the first row:
    asked about a column that the first row has and the row of the cell has
    not, it raises [IndexError]. *)
Theorem is_path_clear_short_row (m : list (list Z)) (x y dx dy : Z)
    (row0 row : list Z) :
  m !! 0%nat = Some row0 →
  0 ≤ x + dx → m !! Z.to_nat (x + dx) = Some row →
  len row ≤ y + dy < len row0 →
  is_path_clear m (x, y) dx dy = Raise IndexError.
Proof.
  intros Hrow0 Hx Hrow Hy. unfold is_path_clear.
  assert (x + dx < len m).
  { apply lookup_lt_Some in Hrow. unfold len. lia. }
  assert (0 ≤ len row) by (unfold len; lia).
  rewrite (proj2 (Z.leb_le 0 (x + dx))), (proj2 (Z.ltb_lt (x + dx) _)),
    (proj2 (Z.leb_le 0 (y + dy))) by lia. simpl.
  rewrite (py_index_nonneg m 0 row0) by done. simpl.
  rewrite (proj2 (Z.ltb_lt (y + dy) _)) by lia.
  rewrite (py_index_nonneg _ _ row) by done. simpl.
  unfold py_index. rewrite (proj2 (Z.ltb_ge (y + dy) 0)) by lia.
  rewrite (proj2 (Z.ltb_ge (y + dy) 0)) by lia.
  rewrite lookup_ge_None_2 by (unfold len in Hy; lia). done.
Qed.

Lemma is_path_clear_short_row_witness :
  is_path_clear [[0; 0]; [0]] (0, 0) 1 1 = Raise IndexError.
Proof.
  apply (is_path_clear_short_row [[0; 0]; [0]] 0 0 1 1 [0; 0] [0]);
    [reflexivity|lia|reflexivity|unfold len; simpl; lia].
Defined.

(** ** The ways [find_path] ends *)

(** [find_path] between two vertices: the result is empty when the end
    cannot be reached in the graph, and a non-empty path otherwise, once the
    loop of [__reconstruct_path] is allowed one turn for each other free
    cell. *)
Lemma find_path_decided (fuel : nat) (self : RoadFinder) (si ei : nat) :
  keys_of (lidar_map self) !! si = Some (starting_point self) →
  keys_of (lidar_map self) !! ei = Some (ending_point self) →
  (length (keys_of (lidar_map self)) ≤ S fuel)%nat →
  (¬ rtc (edge (built float64 (lidar_map self)).1) si ei
   ∧ find_path float64 fuel self = Ok ([], self))
  ∨ (rtc (edge (built float64 (lidar_map self)).1) si ei
     ∧ ∃ p, p ≠ [] ∧ find_path float64 fuel self = Ok (p, set_path self p)).
Proof.
  set (m := lidar_map self). intros Hsi Hei Hfuel.
  rewrite (find_path_unfold float64 m self eq_refl fuel si ei) by done.
  assert (si < length (keys_of m))%nat as Hlt by (by eapply lookup_lt_Some).
  destruct (relax_edges_result float64 _ _ _ si (built_wf float64 m)
              float64_order_laws Hlt)
    as (dist & pred & -> & Hinv & _ & _ & Hreach).
  destruct Hinv as (Hd & Hp & _ & _ & Hts). cbn [fst snd] in *. simpl.
  unfold list_get.
  destruct (lookup_lt_is_Some_2 dist ei) as [dend Hdend].
  { rewrite Hd. by eapply lookup_lt_Some. }
  simpl in dist, dend, Hdend, Hreach. rewrite Hdend. simpl.
  destruct (PrimFloat.eqb dend infinity) eqn:Efin.
  { left. split; [|done]. intros (d & Hd' & Hfin)%Hreach.
    simpl in Hd', Hfin. congruence. }
  right. assert (finite_at float64 dist ei) as Hfe by (by exists dend).
  split; [by apply Hreach|].
  destruct (to_start_chain pred si ei) as (l & Hc & Hall); [by apply Hts|].
  unfold reconstruct_path. rewrite (chain_run _ _ _ _ Hc).
  2:{ rewrite length_fmap. etrans; [|exact Hfuel].
      apply NoDup_below.
      - apply chain_NoDup in Hc. by apply (NoDup_fmap Z.of_nat) in Hc.
      - intros y Hy. destruct (Hall y Hy) as [->|?]; lia. }
  simpl. rewrite <- fmap_reverse.
  destruct (map_each_keys (keys_of m) (reverse l)) as (p & Ep & Hp2).
  { intros y Hy. rewrite elem_of_reverse in Hy. apply lookup_lt_is_Some_2.
    destruct (Hall y Hy) as [->|?]; lia. }
  destruct (reverse l) as [|y l'] eqn:El.
  { apply (f_equal reverse) in El. rewrite reverse_involutive in El. subst l.
    by apply chain_head in Hc. }
  rewrite fmap_cons. cbn -[map_each]. rewrite fmap_cons in Ep. rewrite Ep. simpl.
  exists p. split; [|done]. intros ->. by apply Forall2_nil_inv_r in Hp2.
Qed.

(** X3: once the loop of [__reconstruct_path] is allowed one turn for each
    free cell but one, [find_path] ends, on any grid, in one of three ways:
    it raises [ValueError("No valid path in the lidar map")], exactly when no
    cell is free; it raises [ValueError("Starting or ending point is not in
    the lidar map")], exactly when some cell is free and one of the two points
    is not; or it returns a path.  It raises no [IndexError] and no
    [KeyError]. *)
Theorem find_path_outcome (fuel : nat) (self : RoadFinder) :
  (length (keys_of (lidar_map self)) ≤ S fuel)%nat →
  match find_path float64 fuel self with
  | Ok (p, self') =>
      free (lidar_map self) (starting_point self)
      ∧ free (lidar_map self) (ending_point self)
  | Raise e =>
      (e = ValueError msg_no_valid_path ∧ ∀ c, ¬ free (lidar_map self) c)
      ∨ (e = ValueError msg_not_in_map
         ∧ (∃ c, free (lidar_map self) c)
         ∧ (¬ free (lidar_map self) (starting_point self)
            ∨ ¬ free (lidar_map self) (ending_point self)))
  | OutOfFuel => False
  end.
Proof.
  intros Hfuel. set (m := lidar_map self) in *.
  destruct (decide (keys_of m = [])) as [E|E].
  { unfold find_path, create_graph. fold m. rewrite decide_True by done. simpl.
    left. split; [done|]. intros c Hc%keys_of_free. rewrite E in Hc.
    by apply elem_of_nil in Hc. }
  assert (∃ c, free m c) as Hsome.
  { destruct (keys_of m) as [|c l] eqn:Ek; [done|]. exists c.
    apply keys_of_free. rewrite Ek. left. }
  destruct (decide (starting_point self ∈ keys_of m)) as [Hs|Hs].
  - destruct (decide (ending_point self ∈ keys_of m)) as [He|He].
    + pose proof Hs as Hfs%keys_of_free. pose proof He as Hfe%keys_of_free.
      apply list_elem_of_lookup_1 in Hs as [si Hsi], He as [ei Hei].
      destruct (find_path_decided fuel self si ei Hsi Hei Hfuel)
        as [[_ ->]|(_ & p & _ & ->)]; done.
    + unfold find_path. destruct (create_graph_ok float64 m self eq_refl E) as [-> _].
      simpl. unfold bellman_ford. fold m.
      rewrite (bool_decide_eq_true_2 (ending_point self ∉ keys_of m)) by done.
      rewrite orb_true_r. right. split; [done|]. split; [done|].
      right. by rewrite <- keys_of_free.
  - unfold find_path. destruct (create_graph_ok float64 m self eq_refl E) as [-> _].
    simpl. unfold bellman_ford. fold m.
    rewrite (bool_decide_eq_true_2 (starting_point self ∉ keys_of m)) by done.
    cbn [orb]. right. split; [done|]. split; [done|].
    left. by rewrite <- keys_of_free.
Qed.

Lemma find_path_outcome_witness :
  match find_path float64 3 (road_finder map_corner (0, 0) (1, 1)) with
  | Ok (p, self') => free map_corner (0, 0) ∧ free map_corner (1, 1)
  | Raise e =>
      (e = ValueError msg_no_valid_path ∧ ∀ c, ¬ free map_corner c)
      ∨ (e = ValueError msg_not_in_map
         ∧ (∃ c, free map_corner c)
         ∧ (¬ free map_corner (0, 0) ∨ ¬ free map_corner (1, 1)))
  | OutOfFuel => False
  end.
Proof.
  apply (find_path_outcome 3 (road_finder map_corner (0, 0) (1, 1))).
  vm_compute. lia.
Defined.

Lemma edge_move (A : Arith) (m : list (list Z)) (u v : nat) :
  edge (built A m).1 u v ↔
  ∃ c c', keys_of m !! u = Some c ∧ keys_of m !! v = Some c' ∧ move m c c'.
Proof.
  rewrite built_edge. split.
  - intros (c & d & Hc & Hd & [Hv Hcol]%neighbor_index_Some).
    exists c, (offset c d). split; [done|]. split; [done|].
    split; [|done]. apply step8_intro; [done|].
    apply keys_of_free. by eapply list_elem_of_lookup_2.
  - intros (c & c' & Hc & Hv & [[_ (d & Hd & ->)] Hcol]).
    exists c, d. split; [done|]. split; [done|].
    by apply neighbor_index_Some.
Qed.

Lemma reach_move (A : Arith) (m : list (list Z)) (si ei : nat) (s e : Z * Z) :
  keys_of m !! si = Some s → keys_of m !! ei = Some e →
  rtc (edge (built A m).1) si ei ↔ rtc (move m) s e.
Proof.
  intros Hs He. split.
  - intros H. revert ei H e He. apply (rtc_ind_r (λ ei, ∀ e, _ → rtc (move m) s e)).
    + intros e He. rewrite Hs in He. injection He as <-. apply rtc_refl.
    + intros u ei _ (c & c' & Hc & Hc' & Hm)%edge_move IH e He.
      rewrite He in Hc'. injection Hc' as <-.
      eapply rtc_r; [by apply IH|done].
  - intros H. revert e H ei He.
    apply (rtc_ind_r (λ e, ∀ ei, _ → rtc (edge (built A m).1) si ei)).
    + intros ei He. assert (si = ei) as ->; [|apply rtc_refl].
      eapply NoDup_lookup; [apply keys_of_NoDup|done..].
    + intros c e Hr Hm IH ei He.
      assert (∃ u, keys_of m !! u = Some c) as [u Hu].
      { apply rtc_inv_r in Hr as [<-|(c0 & _ & [[Hf _] _])]; [eauto|].
        apply keys_of_free in Hf. by apply list_elem_of_lookup_1. }
      eapply rtc_r; [by apply IH|]. apply edge_move. eauto.
Qed.

(** X4: between two free cells, on any grid, [find_path] returns a
    non-empty path exactly when the end can be reached from the start by the
    moves [__create_graph] allows, and the empty path otherwise (the loop of
    [__reconstruct_path] being allowed one turn for each free cell but
    one). *)
Theorem find_path_complete (fuel : nat) (self : RoadFinder) :
  (length (keys_of (lidar_map self)) ≤ S fuel)%nat →
  free (lidar_map self) (starting_point self) →
  free (lidar_map self) (ending_point self) →
  (¬ rtc (move (lidar_map self)) (starting_point self) (ending_point self)
   ∧ find_path float64 fuel self = Ok ([], self))
  ∨ (rtc (move (lidar_map self)) (starting_point self) (ending_point self)
     ∧ ∃ p, p ≠ [] ∧ find_path float64 fuel self = Ok (p, set_path self p)).
Proof.
  intros Hfuel [si Hsi]%keys_of_free%list_elem_of_lookup_1
               [ei Hei]%keys_of_free%list_elem_of_lookup_1.
  rewrite <- (reach_move float64 _ si ei) by done.
  by apply find_path_decided.
Qed.

Lemma find_path_complete_witness :
  (¬ rtc (move map_walled) (0, 0) (2, 2)
   ∧ find_path float64 4 (road_finder map_walled (0, 0) (2, 2))
     = Ok ([], road_finder map_walled (0, 0) (2, 2)))
  ∨ (rtc (move map_walled) (0, 0) (2, 2)
     ∧ ∃ p, p ≠ [] ∧ find_path float64 4 (road_finder map_walled (0, 0) (2, 2))
                     = Ok (p, set_path (road_finder map_walled (0, 0) (2, 2)) p)).
Proof.
  apply (find_path_complete 4 (road_finder map_walled (0, 0) (2, 2)));
    [vm_compute; lia|reflexivity|reflexivity].
Defined.

Lemma move_sym (m : list (list Z)) (c c' : Z * Z) :
  rectangular m → free m c → move m c c' → move m c' c.
Proof.
  intros Hrect Hfree [[Hfree' (d & Hd & ->)] _]. split.
  - split; [done|]. exists (- d.1, - d.2). split; [by apply neighbors_opp|].
    unfold offset. destruct c, d. simpl. f_equal; lia.
  - by apply rectangular_column.
Qed.

Lemma reach_move_sym (m : list (list Z)) (c c' : Z * Z) :
  rectangular m → free m c → rtc (move m) c c' → rtc (move m) c' c.
Proof.
  intros Hrect Hfree H. induction H as [|c c1 c' Hm H IH]; [apply rtc_refl|].
  eapply rtc_r; [|by apply move_sym].
  apply IH. by destruct Hm as [[? _] _].
Qed.

(** X5: in a rectangular grid [find_path] finds no route from a free cell
    to another exactly when it finds none from the second to the first. *)
Theorem find_path_both_ways (fuel : nat) (m : list (list Z)) (a b : Z * Z) :
  rectangular m → free m a → free m b →
  (length (keys_of m) ≤ S fuel)%nat →
  (∃ rf, find_path float64 fuel (road_finder m a b) = Ok ([], rf))
  ↔ (∃ rf, find_path float64 fuel (road_finder m b a) = Ok ([], rf)).
Proof.
  intros Hrect Ha Hb Hfuel.
  assert (∀ a b, free m a → free m b →
    (∃ rf, find_path float64 fuel (road_finder m a b) = Ok ([], rf)) →
    ∃ rf, find_path float64 fuel (road_finder m b a) = Ok ([], rf)) as Hdir.
  { clear a b Ha Hb. intros a b Ha Hb [rf Hrf].
    pose proof Ha as [ia Hia]%keys_of_free%list_elem_of_lookup_1.
    pose proof Hb as [ib Hib]%keys_of_free%list_elem_of_lookup_1.
    destruct (find_path_decided fuel (road_finder m a b) ia ib Hia Hib Hfuel)
      as [[Hno _]|(_ & p & Hp & Ep)].
    2:{ rewrite Ep in Hrf. by simplify_eq. }
    destruct (find_path_decided fuel (road_finder m b a) ib ia Hib Hia Hfuel)
      as [[_ E]|[Hr _]]; [eauto|].
    destruct Hno. cbn [lidar_map road_finder] in *.
    apply (reach_move float64 m ia ib a b Hia Hib).
    apply (reach_move float64 m ib ia b a Hib Hia) in Hr.
    by apply (reach_move_sym m b a). }
  split; by apply Hdir.
Qed.

Lemma find_path_both_ways_witness :
  (∃ rf, find_path float64 4 (road_finder map_walled (0, 0) (2, 2)) = Ok ([], rf))
  ↔ (∃ rf, find_path float64 4 (road_finder map_walled (2, 2) (0, 0)) = Ok ([], rf)).
Proof.
  apply (find_path_both_ways 4 map_walled (0, 0) (2, 2));
    [apply (bool_decide_unpack _); vm_compute; exact I
    |reflexivity|reflexivity|vm_compute; lia].
Defined.

Lemma bellman_ford_set_path (A : Arith) (fuel : nat) (self : RoadFinder)
    (graph : gmap nat (list nat)) (keys : list (Z * Z))
    (edge_weights : gmap (nat * nat) (num A)) (p q : list (Z * Z)) (self' : RoadFinder) :
  bellman_ford A fuel self graph keys edge_weights = Ok (p, self') →
  bellman_ford A fuel (set_path self q) graph keys edge_weights
  = Ok (p, if decide (p = []) then set_path self q else self').
Proof.
  unfold bellman_ford. cbn [starting_point ending_point set_path].
  destruct (_ || _); [done|].
  destruct (py_list_index keys (starting_point self)) as [si| |]; [|done..]. simpl.
  destruct (py_list_index keys (ending_point self)) as [ei| |]; [|done..]. simpl.
  destruct (list_set _ si _) as [d0| |]; [|done..]. simpl.
  destruct (relax_edges _ _ _ _ _) as [[dist pred]| |]; [|done..]. simpl.
  destruct (list_get dist ei) as [dend| |]; [|done..]. simpl.
  destruct (eqb A dend (inf A)); [by intros [= <- <-]|].
  destruct (reconstruct_path _ _ _ _) as [[|i l]| |]; cbn -[map_each]; [| |done..].
  - by intros [= <- <-].
  - destruct (map_each (py_index keys) (i :: l)) as [r| |] eqn:E; simpl; [|done..].
    intros [= <- <-]. apply map_each_cons in E. by rewrite decide_False.
Qed.

(** X7: [find_path] reads neither [self.path] nor anything it changes:
    called again on the object it leaves, it returns the same path and
    leaves the same object; the map, the two points and the dimensions of the
    car are never changed. *)
Theorem find_path_again (A : Arith) (fuel : nat) (self self' : RoadFinder)
    (p : list (Z * Z)) :
  find_path A fuel self = Ok (p, self') →
  find_path A fuel self' = Ok (p, self')
  ∧ lidar_map self' = lidar_map self
  ∧ starting_point self' = starting_point self
  ∧ ending_point self' = ending_point self
  ∧ car_length self' = car_length self ∧ car_width self' = car_width self.
Proof.
  intros Hrun. destruct (find_path_result _ _ _ _ _ Hrun) as [[-> ->]|[Hne ->]];
    [done|]. split; [|done].
  revert Hrun. unfold find_path.
  change (create_graph A (set_path self p)) with (create_graph A self).
  destruct (create_graph A self) as [[[graph keys] ew]| |]; [|done..]. simpl.
  intros Hrun. rewrite (bellman_ford_set_path _ _ _ _ _ _ _ p _ Hrun).
  by rewrite decide_False.
Qed.

Lemma find_path_again_witness :
  find_path float64 4 (set_path (road_finder map_diagonal (0, 0) (2, 2))
                         [(0, 0); (1, 1); (2, 2)])
  = Ok ([(0, 0); (1, 1); (2, 2)],
        set_path (road_finder map_diagonal (0, 0) (2, 2)) [(0, 0); (1, 1); (2, 2)])
  ∧ lidar_map (set_path (road_finder map_diagonal (0, 0) (2, 2))
                 [(0, 0); (1, 1); (2, 2)]) = map_diagonal
  ∧ starting_point (set_path (road_finder map_diagonal (0, 0) (2, 2))
                      [(0, 0); (1, 1); (2, 2)]) = (0, 0)
  ∧ ending_point (set_path (road_finder map_diagonal (0, 0) (2, 2))
                    [(0, 0); (1, 1); (2, 2)]) = (2, 2)
  ∧ car_length (set_path (road_finder map_diagonal (0, 0) (2, 2))
                  [(0, 0); (1, 1); (2, 2)]) = 1.5%float
  ∧ car_width (set_path (road_finder map_diagonal (0, 0) (2, 2))
                 [(0, 0); (1, 1); (2, 2)]) = 0.5%float.
Proof.
  apply (find_path_again float64 4 (road_finder map_diagonal (0, 0) (2, 2))
           (set_path (road_finder map_diagonal (0, 0) (2, 2)) [(0, 0); (1, 1); (2, 2)])
           [(0, 0); (1, 1); (2, 2)]).
  vm_compute. reflexivity.
Defined.

(** ** The lines of the output handler *)

Lemma update_output_lookup (ca : CommandArray) (w0 w : world) (command k : Z) :
  lines (update_output ca (handler_init ca w0).1 command w) !! k
  = if decide (k ∈ pins_of ca)
    then Some (if decide (k = command) then HIGH else LOW)
    else lines w !! k.
Proof.
  unfold update_output, handler_init. cbn [fst _pins].
  destruct (pin_states_init (pins_of ca)) as [Hnd Hl]. cbn zeta in Hnd, Hl.
  set (d := foldl (λ d pin, dict_set d pin LOW) [] (pins_of ca)) in *.
  destruct (bool_decide (command ∈ pins_of ca)) eqn:Ec.
  - apply bool_decide_eq_true in Ec.
    rewrite GPIO_output_dict by (by apply dict_set_NoDup).
    rewrite dict_lookup_set, Hl.
    destruct (decide (command = k)) as [->|Hne].
    + by rewrite decide_True, decide_True.
    + rewrite (decide_False (P := k = command)) by done.
      by destruct (decide (k ∈ pins_of ca)).
  - apply bool_decide_eq_false in Ec.
    assert (∀ w1, lines (GPIO_output d.*1 d.*2 w1) !! k
                  = if decide (k ∈ pins_of ca)
                    then Some (if decide (k = command) then HIGH else LOW)
                    else lines w1 !! k) as Hout.
    { intros w1. rewrite GPIO_output_dict, Hl by done.
      destruct (decide (k ∈ pins_of ca)) as [Hk|Hk]; [|done].
      rewrite decide_False; [done|]. by intros ->. }
    destruct (bool_decide (command ≠ STOP ca)); by rewrite Hout.
Qed.

(** X16: after [update_output], whatever the command and whatever the
    values of the [CommandArray] constants, each of the four lines is driven
    high or low, a line is high exactly when its number is the command, and
    so no two lines are high together. *)
Theorem update_output_levels (ca : CommandArray) (w0 w : world) (command : Z) :
  let w' := update_output ca (handler_init ca w0).1 command w in
  (∀ pin, pin ∈ pins_of ca →
     lines w' !! pin = Some HIGH ∨ lines w' !! pin = Some LOW)
  ∧ (∀ pin, pin ∈ pins_of ca → (lines w' !! pin = Some HIGH ↔ pin = command))
  ∧ (∀ pin pin', pin ∈ pins_of ca → pin' ∈ pins_of ca →
       lines w' !! pin = Some HIGH → lines w' !! pin' = Some HIGH → pin = pin').
Proof.
  cbn zeta.
  assert (∀ pin, pin ∈ pins_of ca →
    (lines (update_output ca (handler_init ca w0).1 command w) !! pin = Some HIGH
     ↔ pin = command)) as Hhigh.
  { intros pin Hpin. rewrite update_output_lookup, decide_True by done.
    destruct (decide (pin = command)); split; (done || congruence). }
  split; [|split].
  - intros pin Hpin. rewrite update_output_lookup, decide_True by done.
    destruct (decide (pin = command)); auto.
  - done.
  - intros pin pin' Hpin Hpin' H H'.
    apply Hhigh in H, H'; congruence.
Qed.

(** X17: [update_output] drives no line but the four of [self._pins], and
    prints one line, the diagnostic, exactly when the command is neither one
    of the four nor [STOP]; otherwise it prints nothing. *)
Theorem update_output_frame (ca : CommandArray) (w0 w : world) (command : Z) :
  let w' := update_output ca (handler_init ca w0).1 command w in
  (∀ k, k ∉ pins_of ca → lines w' !! k = lines w !! k)
  ∧ stdout w'
    = stdout w ++
      (if bool_decide (command ∈ pins_of ca) || bool_decide (command = STOP ca)
       then [] else ["Invalid command: " +:+ pretty command]).
Proof.
  cbn zeta. split.
  - intros k Hk. by rewrite update_output_lookup, decide_False.
  - unfold update_output, handler_init. cbn [fst _pins].
    destruct (bool_decide (command ∈ pins_of ca)); cbn [orb].
    { by rewrite app_nil_r. }
    destruct (decide (command = STOP ca)) as [E|E].
    + rewrite (bool_decide_eq_false_2 (command ≠ STOP ca)) by (by intros H; apply H).
      rewrite bool_decide_eq_true_2 by done. by rewrite app_nil_r.
    + rewrite (bool_decide_eq_true_2 (command ≠ STOP ca)) by done.
      by rewrite bool_decide_eq_false_2 by done.
Qed.

(** X18: [update_output] keeps no state between calls: after two calls
    the lines are as after the second one alone. *)
Theorem update_output_last_wins (ca : CommandArray) (w0 w : world)
    (command command' : Z) :
  let self := (handler_init ca w0).1 in
  lines (update_output ca self command' (update_output ca self command w))
  = lines (update_output ca self command' w).
Proof.
  cbn zeta. apply map_eq. intros k. rewrite !update_output_lookup.
  by destruct (decide (k ∈ pins_of ca)).
Qed.

Lemma GPIO_output_replicate (pins : list Z) (v : level) (w : world) (k : Z) :
  lines (GPIO_output pins (replicate (length pins) v) w) !! k
  = if decide (k ∈ pins) then Some v else lines w !! k.
Proof.
  unfold GPIO_output. cbn [lines]. generalize (lines w). clear w.
  induction pins as [|pin pins IH]; intros l; simpl.
  - destruct (decide (k ∈ [])) as [H|_]; [by apply elem_of_nil in H|done].
  - rewrite IH. destruct (decide (k ∈ pins)) as [Hk|Hk].
    + rewrite decide_True; [done|]. by right.
    + destruct (decide (pin = k)) as [->|Hne].
      * rewrite decide_True by left. apply lookup_insert_eq.
      * rewrite decide_False by (intros [?|?]%elem_of_cons; congruence).
        by apply lookup_insert_ne.
Qed.

(** X19: [UpdateOutputHandler.__init__] stores the four direction commands
    as [self._pins], drives these four lines low, touches no other line and
    prints nothing. *)
Theorem handler_init_lines (ca : CommandArray) (w : world) :
  let self := (handler_init ca w).1 in
  let w' := (handler_init ca w).2 in
  _pins self = [GO_FORWARD ca; GO_LEFT ca; GO_RIGHT ca; GO_BACKWARD ca]
  ∧ (∀ pin, pin ∈ _pins self → lines w' !! pin = Some LOW)
  ∧ (∀ k, k ∉ _pins self → lines w' !! k = lines w !! k)
  ∧ stdout w' = stdout w.
Proof.
  unfold handler_init. cbn [fst snd _pins]. split; [done|]. split; [|split; [|done]].
  - intros pin Hpin. by rewrite GPIO_output_replicate, decide_True.
  - intros k Hk. by rewrite GPIO_output_replicate, decide_False.
Qed.
